(** * The GLPI node for n8n: value normalisation, path resolution, token
      acquisition and per-item dispatch

    A shallow embedding of [nodes/Glpi/Glpi.node.ts] (the node as it stands,
    lines 1-270; line numbers below are that file's).

    - [Module JS]: the JavaScript values and built-ins the node calls, on
      strings of UTF-16 code units and numbers that are doubles:
      assignment to a property, [trim], [JSON.parse], [split], the
      placeholder pattern behind [replace] and [match],
      [encodeURIComponent], [URLSearchParams] and [String].
    - The node: [isEmptyValue], the operation index, [resolvePath], the
      parameter loop, [buildRequest], [processItem], the item loop and
      [execute], over a host [IExecuteFunctions].  Awaited HTTP calls
      thread the list of requests issued so far.
    - [Module Legacy]: the places of the earlier drafts the statements
      compare the node with.
    - Properties, the claims C1-C10, further properties of the node
      (X1-X27), and worked instances. *)

From Stdlib Require Import List NArith ZArith Lia Bool String Ascii DecimalString.
From Stdlib Require Import Floats.SpecFloat.
From stdpp Require Import base option list gmap.
From Equations Require Import Equations.
Import ListNotations.
Local Open Scope N_scope.
Set Warnings "-register-all".

(* ===================================================================== *)
(** * JavaScript values and built-ins *)
(* ===================================================================== *)

Module JS.

(** A JavaScript string is a sequence of UTF-16 code units. *)
Abbreviation jsstring := (list N).

(** ASCII literals of the source, as code units. *)
Fixpoint js (s : string) : jsstring :=
  match s with
  | EmptyString => []
  | String c r => N_of_ascii c :: js r
  end.

Definition cu (c : ascii) : N := N_of_ascii c.

Arguments js : simpl never.
Arguments cu : simpl never.

(** [a === b] on strings. *)
Definition str_eqb (a b : jsstring) : bool := bool_decide (a = b).

(** Numbers are IEEE 754 doubles: binary64, with 53 bits of precision and
    exponents below 1024. *)
Abbreviation number := spec_float.

Definition double_prec : Z := 53.
Definition double_emax : Z := 1024.

(** The double nearest to an integer (ties to even). *)
Definition num_of_Z (z : Z) : number :=
  binary_normalize double_prec double_emax z 0 false.

(** [n === 0]: true of both zeros. *)
Definition num_is_zero (n : number) : bool :=
  match n with
  | S754_zero _ => true
  | _ => false
  end.

Definition num_is_nan (n : number) : bool :=
  match n with
  | S754_nan => true
  | _ => false
  end.

(** The value of a decimal literal [digits * 10 ^ exp10] ([digits] is not
    negative; [neg] is the sign in front), rounded once to the nearest
    double, ties to even: a literal too small becomes a zero, one too
    large an infinity. *)
Definition num_of_decimal (neg : bool) (digits exp10 : Z) : number :=
  match digits with
  | Zpos m =>
      if (0 <=? exp10)%Z
      then binary_normalize double_prec double_emax
             (cond_Zopp neg (Zpos m * 10 ^ exp10)) 0 neg
      else SFdiv double_prec double_emax
             (S754_finite neg m 0)
             (S754_finite false (Z.to_pos (10 ^ (- exp10))) 0)
  | _ => S754_zero neg
  end.

(** The values that reach the node: JSON data plus [undefined].  An object
    is the list of its own properties in insertion order. *)
Inductive value :=
| VUndefined
| VNull
| VBool (b : bool)
| VNum (n : number)
| VStr (s : jsstring)
| VArr (elems : list value)
| VObj (props : list (jsstring * value)).

(** [o[k] = v] on a property list: overwrite in place or append. *)
Fixpoint obj_set {A} (o : list (jsstring * A)) (k : jsstring) (v : A)
  : list (jsstring * A) :=
  match o with
  | [] => [(k, v)]
  | (k', v') :: r =>
      if str_eqb k' k then (k, v) :: r else (k', v') :: obj_set r k v
  end.

Fixpoint obj_get {A} (o : list (jsstring * A)) (k : jsstring) : option A :=
  match o with
  | [] => None
  | (k', v') :: r => if str_eqb k' k then Some v' else obj_get r k
  end.

(** An object the node creates with [{}] and fills by assignment: its own
    properties and its prototype, which an assignment to [__proto__] can
    change. *)
Inductive prototype :=
| Object_prototype            (* [Object.prototype], as for every literal *)
| Null_prototype
| Proto (v : value).          (* an object or an array taken as prototype *)

Record object := {
  own : gmap jsstring value;
  proto : prototype
}.

(** [{}] *)
Definition emptyObject : object := {| own := ∅; proto := Object_prototype |}.

(** Whether the assignment [o[k] = v] of a key that [o] does not own ends
    at the setter of the accessor [Object.prototype.__proto__].  The
    lookup climbs the prototype chain; everything it can meet there is a
    writable data property, which makes the assignment define an own
    property, except that accessor.  An object taken as prototype hides
    the accessor when it owns a property called [__proto__] (as
    [JSON.parse] or a computed key can give it), and a null prototype
    leaves nothing to find. *)
Definition reaches_proto_setter (o : object) (k : jsstring) : bool :=
  str_eqb k (js "__proto__")
  && match proto o with
     | Object_prototype => true
     | Null_prototype => false
     | Proto (VObj props) =>
         match obj_get props k with
         | Some _ => false
         | None => true
         end
     | Proto _ => true
     end.

(** The setter of [__proto__]: an object or [null] becomes the prototype,
    anything else is ignored. *)
Definition set_prototype (o : object) (v : value) : object :=
  match v with
  | VObj _ | VArr _ => {| own := own o; proto := Proto v |}
  | VNull => {| own := own o; proto := Null_prototype |}
  | _ => o
  end.

(** [o[k] = v]. *)
Definition assign (o : object) (k : jsstring) (v : value) : object :=
  match own o !! k with
  | Some _ => {| own := <[k := v]> (own o); proto := proto o |}
  | None =>
      if reaches_proto_setter o k then set_prototype o v
      else {| own := <[k := v]> (own o); proto := proto o |}
  end.

(** [headers[k] = s] for a string [s] and the [headers] literal of the
    node: no assignment of a string changes its prototype, and the setter
    of [__proto__] ignores a string. *)
Definition assign_header (h : gmap jsstring jsstring) (k s : jsstring)
  : gmap jsstring jsstring :=
  if str_eqb k (js "__proto__") then h else <[k := s]> h.

(** [typeof v === 'object'] (true of [null], arrays and objects). *)
Definition typeof_object (v : value) : bool :=
  match v with
  | VNull | VArr _ | VObj _ => true
  | _ => false
  end.

Definition is_null (v : value) : bool :=
  match v with VNull => true | _ => false end.

Definition Array_isArray (v : value) : bool :=
  match v with VArr _ => true | _ => false end.

(** [Object.keys(v).length]; the node calls it on arrays and objects only
    (on [null] the built-in throws, the guards in front exclude it). *)
Definition Object_keys_length (v : value) : nat :=
  match v with
  | VArr l => length l
  | VObj p => length p
  | VStr s => length s
  | _ => 0%nat
  end.

(** Truthiness, as tested by [if (x)], [!x] and [x || y]. *)
Definition truthy (v : value) : bool :=
  match v with
  | VUndefined | VNull => false
  | VBool b => b
  | VNum n => negb (num_is_zero n || num_is_nan n)
  | VStr s => negb (str_eqb s [])
  | VArr _ | VObj _ => true
  end.

(** ** [String.prototype.trim] *)

(** WhiteSpace and LineTerminator code points of ECMAScript. *)
Definition isWhiteSpace (c : N) : bool :=
  ((9 <=? c) && (c <=? 13)) || (c =? 32) || (c =? 0xA0) || (c =? 0x1680)
  || ((0x2000 <=? c) && (c <=? 0x200A)) || (c =? 0x2028) || (c =? 0x2029)
  || (c =? 0x202F) || (c =? 0x205F) || (c =? 0x3000) || (c =? 0xFEFF).

Fixpoint trimStart (s : jsstring) : jsstring :=
  match s with
  | [] => []
  | c :: r => if isWhiteSpace c then trimStart r else s
  end.

Definition trim (s : jsstring) : jsstring :=
  rev (trimStart (rev (trimStart s))).

(** ** [JSON.parse] *)

Inductive token :=
| TLBrace | TRBrace | TLBracket | TRBracket | TColon | TComma
| TString (s : jsstring)
| TNumber (n : number)
| TTrue | TFalse | TNull.

(** Where the lexer stands inside a number literal: an optional minus, an
    integer part without leading zeros, an optional fraction, an optional
    exponent. *)
Inductive numphase :=
| NSign | NZero | NInt | NPoint | NFrac | NExp | NExpSign | NExpDigits.

Record numacc := NumAcc {
  n_neg : bool;      (* a leading minus was read *)
  n_digits : Z;      (* integer and fraction digits, read as one integer *)
  n_scale : Z;       (* how many of them are fraction digits *)
  n_eneg : bool;     (* the exponent is negative *)
  n_exp : Z          (* exponent digits *)
}.

Definition num_of_acc (a : numacc) : number :=
  num_of_decimal (n_neg a) (n_digits a)
    ((if n_eneg a then - n_exp a else n_exp a) - n_scale a)%Z.

Definition is_digit (c : N) : bool := (48 <=? c) && (c <=? 57).
Definition digit_val (c : N) : Z := Z.of_N (c - 48).

Definition num_accepting (ph : numphase) : bool :=
  match ph with
  | NZero | NInt | NFrac | NExpDigits => true
  | _ => false
  end.

Definition push_int (a : numacc) (c : N) : numacc :=
  NumAcc (n_neg a) (n_digits a * 10 + digit_val c)%Z (n_scale a) (n_eneg a) (n_exp a).
Definition push_frac (a : numacc) (c : N) : numacc :=
  NumAcc (n_neg a) (n_digits a * 10 + digit_val c)%Z (n_scale a + 1)%Z (n_eneg a) (n_exp a).
Definition push_exp (a : numacc) (c : N) : numacc :=
  NumAcc (n_neg a) (n_digits a) (n_scale a) (n_eneg a) (n_exp a * 10 + digit_val c)%Z.
Definition set_eneg (a : numacc) (b : bool) : numacc :=
  NumAcc (n_neg a) (n_digits a) (n_scale a) b (n_exp a).

(** One more character of a number literal, if it can continue. *)
Definition number_step (ph : numphase) (a : numacc) (c : N)
  : option (numphase * numacc) :=
  let is_e := (c =? cu "e") || (c =? cu "E") in
  match ph with
  | NSign =>
      if c =? cu "0" then Some (NZero, a)
      else if is_digit c then Some (NInt, push_int a c) else None
  | NZero =>
      if c =? cu "." then Some (NPoint, a)
      else if is_e then Some (NExp, a) else None
  | NInt =>
      if is_digit c then Some (NInt, push_int a c)
      else if c =? cu "." then Some (NPoint, a)
      else if is_e then Some (NExp, a) else None
  | NPoint => if is_digit c then Some (NFrac, push_frac a c) else None
  | NFrac =>
      if is_digit c then Some (NFrac, push_frac a c)
      else if is_e then Some (NExp, a) else None
  | NExp =>
      if c =? cu "+" then Some (NExpSign, a)
      else if c =? cu "-" then Some (NExpSign, set_eneg a true)
      else if is_digit c then Some (NExpDigits, push_exp a c) else None
  | NExpSign => if is_digit c then Some (NExpDigits, push_exp a c) else None
  | NExpDigits => if is_digit c then Some (NExpDigits, push_exp a c) else None
  end.

Inductive lexstate :=
| LStart                                         (* between tokens *)
| LString (acc : jsstring)                       (* in a string; [acc] reversed *)
| LEscape (acc : jsstring)                       (* just after a backslash *)
| LUnicode (acc : jsstring) (need : nat) (code : N)  (* in the digits of \uXXXX *)
| LNumber (ph : numphase) (a : numacc)
| LLiteral (pending : jsstring) (t : token).     (* in true, false or null *)

Definition hex_val (c : N) : option N :=
  if is_digit c then Some (c - 48)
  else if (65 <=? c) && (c <=? 70) then Some (c - 55)
  else if (97 <=? c) && (c <=? 102) then Some (c - 87)
  else None.

Definition escape_val (c : N) : option N :=
  if c =? 34 then Some 34              (* escaped double quote *)
  else if c =? 92 then Some 92         (* escaped backslash *)
  else if c =? cu "/" then Some 47
  else if c =? cu "b" then Some 8
  else if c =? cu "f" then Some 12
  else if c =? cu "n" then Some 10
  else if c =? cu "r" then Some 13
  else if c =? cu "t" then Some 9
  else None.

Definition num_zero_acc : numacc := NumAcc false 0 0 false 0.

(** A character met between two tokens. *)
Definition lex_start (c : N) : option (list token * lexstate) :=
  if (c =? 9) || (c =? 10) || (c =? 13) || (c =? 32) then Some ([], LStart)
  else if c =? cu "{" then Some ([TLBrace], LStart)
  else if c =? cu "}" then Some ([TRBrace], LStart)
  else if c =? cu "[" then Some ([TLBracket], LStart)
  else if c =? cu "]" then Some ([TRBracket], LStart)
  else if c =? cu ":" then Some ([TColon], LStart)
  else if c =? cu "," then Some ([TComma], LStart)
  else if c =? 34 then Some ([], LString [])
  else if c =? cu "-" then
    Some ([], LNumber NSign (NumAcc true 0 0 false 0))
  else if c =? cu "0" then Some ([], LNumber NZero num_zero_acc)
  else if is_digit c then Some ([], LNumber NInt (push_int num_zero_acc c))
  else if c =? cu "t" then Some ([], LLiteral (js "rue") TTrue)
  else if c =? cu "f" then Some ([], LLiteral (js "alse") TFalse)
  else if c =? cu "n" then Some ([], LLiteral (js "ull") TNull)
  else None.

Definition lex_step (st : lexstate) (c : N) : option (list token * lexstate) :=
  match st with
  | LStart => lex_start c
  | LString acc =>
      if c =? 34 then Some ([TString (rev acc)], LStart)
      else if c =? 92 then Some ([], LEscape acc)
      else if c <? 32 then None
      else Some ([], LString (c :: acc))
  | LEscape acc =>
      if c =? cu "u" then Some ([], LUnicode acc 4 0)
      else match escape_val c with
           | Some x => Some ([], LString (x :: acc))
           | None => None
           end
  | LUnicode acc need code =>
      match hex_val c with
      | Some h =>
          match need with
          | 0%nat | 1%nat => Some ([], LString ((code * 16 + h) :: acc))
          | S k => Some ([], LUnicode acc k (code * 16 + h))
          end
      | None => None
      end
  | LNumber ph a =>
      match number_step ph a c with
      | Some (ph', a') => Some ([], LNumber ph' a')
      | None =>
          if num_accepting ph then
            match lex_start c with
            | Some (toks, st') => Some (TNumber (num_of_acc a) :: toks, st')
            | None => None
            end
          else None
      end
  | LLiteral pending t =>
      match pending with
      | p :: rest =>
          if c =? p then
            match rest with
            | [] => Some ([t], LStart)
            | _ => Some ([], LLiteral rest t)
            end
          else None
      | [] => None
      end
  end.

Definition lex_eof (st : lexstate) : option (list token) :=
  match st with
  | LStart => Some []
  | LNumber ph a => if num_accepting ph then Some [TNumber (num_of_acc a)] else None
  | _ => None
  end.

Fixpoint lex (st : lexstate) (s : jsstring) : option (list token) :=
  match s with
  | [] => lex_eof st
  | c :: rest =>
      match lex_step st c with
      | Some (toks, st') =>
          match lex st' rest with
          | Some more => Some (toks ++ more)
          | None => None
          end
      | None => None
      end
  end.

Definition tokenize (s : jsstring) : option (list token) := lex LStart s.

(** The parser is a pushdown automaton over the tokens. *)
Inductive frame :=
| FArray (elems : list value)                       (* reversed *)
| FObject (props : list (jsstring * value)) (key : option jsstring).

Inductive mode :=
| MValue          (* a value must follow *)
| MValueOrEnd     (* just after [ *)
| MCommaOrEnd     (* after an element or a member *)
| MKeyOrEnd       (* just after { *)
| MKey            (* after a comma inside an object *)
| MColon          (* after a member's key *)
| MDone (v : value).

Definition pstate : Type := mode * list frame.

Definition deliver (v : value) (stack : list frame) : option pstate :=
  match stack with
  | [] => Some (MDone v, [])
  | FArray es :: st => Some (MCommaOrEnd, FArray (v :: es) :: st)
  | FObject ps (Some k) :: st => Some (MCommaOrEnd, FObject (obj_set ps k v) None :: st)
  | FObject _ None :: _ => None
  end.

Definition scalar (t : token) : option value :=
  match t with
  | TString s => Some (VStr s)
  | TNumber n => Some (VNum n)
  | TTrue => Some (VBool true)
  | TFalse => Some (VBool false)
  | TNull => Some VNull
  | _ => None
  end.

Definition close_array (stack : list frame) : option pstate :=
  match stack with
  | FArray es :: st => deliver (VArr (rev es)) st
  | _ => None
  end.

Definition close_object (stack : list frame) : option pstate :=
  match stack with
  | FObject ps None :: st => deliver (VObj ps) st
  | _ => None
  end.

Definition open_value (t : token) (stack : list frame) : option pstate :=
  match t with
  | TLBracket => Some (MValueOrEnd, FArray [] :: stack)
  | TLBrace => Some (MKeyOrEnd, FObject [] None :: stack)
  | _ => match scalar t with
         | Some v => deliver v stack
         | None => None
         end
  end.

Definition set_key (k : jsstring) (stack : list frame) : option pstate :=
  match stack with
  | FObject ps None :: st => Some (MColon, FObject ps (Some k) :: st)
  | _ => None
  end.

Definition parse_step (st : pstate) (t : token) : option pstate :=
  let (m, stack) := st in
  match m with
  | MValue => open_value t stack
  | MValueOrEnd =>
      match t with
      | TRBracket => close_array stack
      | _ => open_value t stack
      end
  | MCommaOrEnd =>
      match t with
      | TComma =>
          match stack with
          | FArray _ :: _ => Some (MValue, stack)
          | FObject _ _ :: _ => Some (MKey, stack)
          | [] => None
          end
      | TRBracket => close_array stack
      | TRBrace => close_object stack
      | _ => None
      end
  | MKeyOrEnd =>
      match t with
      | TString k => set_key k stack
      | TRBrace => close_object stack
      | _ => None
      end
  | MKey =>
      match t with
      | TString k => set_key k stack
      | _ => None
      end
  | MColon =>
      match t with
      | TColon => Some (MValue, stack)
      | _ => None
      end
  | MDone _ => None
  end.

Fixpoint parse_run (st : pstate) (ts : list token) : option pstate :=
  match ts with
  | [] => Some st
  | t :: rest =>
      match parse_step st t with
      | Some st' => parse_run st' rest
      | None => None
      end
  end.

(** [JSON.parse(s)]; [None] stands for the SyntaxError it throws. *)
Definition JSON_parse (s : jsstring) : option value :=
  match tokenize s with
  | Some ts =>
      match parse_run (MValue, []) ts with
      | Some (MDone v, _) => Some v
      | _ => None
      end
  | None => None
  end.


(** ** [split], [join], [startsWith], [includes] *)

(** [s.split(sep)] for a one-character separator. *)
Fixpoint split (sep : N) (s : jsstring) : list jsstring :=
  match s with
  | [] => [[]]
  | c :: r =>
      if c =? sep then [] :: split sep r
      else match split sep r with
           | h :: t => (c :: h) :: t
           | [] => [[c]]
           end
  end.

(** [parts.join(sep)]. *)
Fixpoint join (sep : jsstring) (parts : list jsstring) : jsstring :=
  match parts with
  | [] => []
  | [p] => p
  | p :: rest => p ++ sep ++ join sep rest
  end.

Definition startsWith (s : jsstring) (c : N) : bool :=
  match s with
  | x :: _ => x =? c
  | [] => false
  end.

Definition includes (l : list jsstring) (s : jsstring) : bool :=
  existsb (str_eqb s) l.

(** [s.replace(/\/+$/, '')]: drop the trailing slashes. *)
Fixpoint dropSlashes (s : jsstring) : jsstring :=
  match s with
  | [] => []
  | c :: r => if c =? cu "/" then dropSlashes r else s
  end.

Definition stripTrailingSlashes (s : jsstring) : jsstring :=
  rev (dropSlashes (rev s)).

(** ** The placeholder pattern: an opening brace, one or more characters
       other than a closing brace, a closing brace *)

(** The longest prefix without a closing brace, and what follows it. *)
Fixpoint until_close (s : jsstring) : jsstring * jsstring :=
  match s with
  | [] => ([], [])
  | c :: r =>
      if c =? cu "}" then ([], s)
      else let (a, b) := until_close r in (c :: a, b)
  end.

(** The pattern anchored at the head of [s]: the captured name and the
    text after the match. *)
Definition match_placeholder (s : jsstring) : option (jsstring * jsstring) :=
  match s with
  | c :: s' =>
      if c =? cu "{" then
        match until_close s' with
        | (n :: nm, _ :: rest) => Some (n :: nm, rest)
        | _ => None
        end
      else None
  | [] => None
  end.

Inductive segment :=
| Lit (c : N)
| Placeholder (paramName : jsstring).

Definition inspect {A} (a : A) : {b | a = b} := exist _ a eq_refl.

(** The successive matches of the global pattern, left to right, with the
    characters between them: what [replace] and [match] with the [g] flag
    iterate over. *)
Equations? segments (s : jsstring) : list segment by wf (length s) lt :=
  segments [] := [];
  segments (c :: s') with inspect (match_placeholder (c :: s')) := {
    | exist _ (Some (nm, rest)) E := Placeholder nm :: segments rest;
    | exist _ None E := Lit c :: segments s' }.
Proof.
  assert (Hlen : forall s a b, until_close s = (a, b) ->
                               (length a + length b = length s)%nat).
  { clear. induction s as [|c r IH]; intros a b; cbn.
    - intros [= <- <-]. reflexivity.
    - destruct (c =? cu "}").
      + intros [= <- <-]. reflexivity.
      + destruct (until_close r) as [a' b']. cbn. intros [= <- <-].
        cbn. rewrite (IH a' b' eq_refl). reflexivity. }
  cbn in E. destruct (c =? cu "{"); [|discriminate].
  destruct (until_close s') as [[|n a] [|x b]] eqn:U; try discriminate.
  injection E as <- <-. apply Hlen in U. cbn in U |- *. lia.
Qed.

Definition placeholder_text (paramName : jsstring) : jsstring :=
  cu "{" :: paramName ++ [cu "}"].

(** [s.replace(/\{([^}]+)\}/g, callback)]. *)
Definition replace_placeholders (callback : jsstring -> jsstring -> jsstring)
    (s : jsstring) : jsstring :=
  concat (map (fun seg => match seg with
                          | Lit c => [c]
                          | Placeholder nm => callback (placeholder_text nm) nm
                          end) (segments s)).

(** [s.match(/\{[^}]+\}/g)]; the empty list stands for [null]. *)
Definition match_placeholders (s : jsstring) : list jsstring :=
  omap (fun seg => match seg with
                   | Lit _ => None
                   | Placeholder nm => Some (placeholder_text nm)
                   end) (segments s).

(** The names captured by the successive matches. *)
Definition placeholders (s : jsstring) : list jsstring :=
  omap (fun seg => match seg with
                   | Lit _ => None
                   | Placeholder nm => Some nm
                   end) (segments s).

(** ** Percent encoding *)

Definition is_alpha (c : N) : bool :=
  ((65 <=? c) && (c <=? 90)) || ((97 <=? c) && (c <=? 122)).

Definition hex_digit (n : N) : N := if n <? 10 then 48 + n else 55 + n.

Definition percent (b : N) : jsstring :=
  [cu "%"; hex_digit ((b / 16) mod 16); hex_digit (b mod 16)].

(** The UTF-8 bytes of a code point. *)
Definition utf8 (cp : N) : list N :=
  if cp <? 0x80 then [cp]
  else if cp <? 0x800 then [0xC0 + cp / 64; 0x80 + cp mod 64]
  else if cp <? 0x10000 then
    [0xE0 + cp / 4096; 0x80 + (cp / 64) mod 64; 0x80 + cp mod 64]
  else [0xF0 + cp / 262144; 0x80 + (cp / 4096) mod 64;
        0x80 + (cp / 64) mod 64; 0x80 + cp mod 64].

Definition percent_utf8 (cp : N) : jsstring := concat (map percent (utf8 cp)).

Definition is_high_surrogate (c : N) : bool := (0xD800 <=? c) && (c <=? 0xDBFF).
Definition is_low_surrogate (c : N) : bool := (0xDC00 <=? c) && (c <=? 0xDFFF).
Definition surrogate_pair (hi lo : N) : N :=
  0x10000 + (hi - 0xD800) * 0x400 + (lo - 0xDC00).

(** Characters [encodeURIComponent] leaves alone. *)
Definition uriUnreserved (c : N) : bool :=
  is_alpha c || is_digit c || existsb (N.eqb c) (js "-_.!~*'()").

(** [encodeURIComponent(s)]; [None] stands for the URIError thrown on a
    lone surrogate. *)
Fixpoint encodeURIComponent (s : jsstring) : option jsstring :=
  match s with
  | [] => Some []
  | c :: rest =>
      if uriUnreserved c then
        match encodeURIComponent rest with
        | Some e => Some (c :: e)
        | None => None
        end
      else if is_high_surrogate c then
        match rest with
        | d :: rest' =>
            if is_low_surrogate d then
              match encodeURIComponent rest' with
              | Some e => Some (percent_utf8 (surrogate_pair c d) ++ e)
              | None => None
              end
            else None
        | [] => None
        end
      else if is_low_surrogate c then None
      else
        match encodeURIComponent rest with
        | Some e => Some (percent_utf8 c ++ e)
        | None => None
        end
  end.

(** The application/x-www-form-urlencoded serialisation of one name or
    value, as [URLSearchParams] does it (a lone surrogate becomes U+FFFD). *)
Definition formUnreserved (c : N) : bool :=
  is_alpha c || is_digit c || existsb (N.eqb c) (js "*-._").

Fixpoint form_encode (s : jsstring) : jsstring :=
  match s with
  | [] => []
  | c :: rest =>
      if formUnreserved c then c :: form_encode rest
      else if c =? 32 then cu "+" :: form_encode rest
      else if is_high_surrogate c then
        match rest with
        | d :: rest' =>
            if is_low_surrogate d
            then percent_utf8 (surrogate_pair c d) ++ form_encode rest'
            else percent_utf8 0xFFFD ++ form_encode rest
        | [] => percent_utf8 0xFFFD
        end
      else if is_low_surrogate c then percent_utf8 0xFFFD ++ form_encode rest
      else percent_utf8 c ++ form_encode rest
  end.

(** [new URLSearchParams(entries).toString()]. *)
Definition URLSearchParams_toString (entries : list (jsstring * jsstring)) : jsstring :=
  join (js "&") (map (fun '(k, v) => form_encode k ++ cu "=" :: form_encode v) entries).

(** The names a form-encoded body carries, still encoded: the body is cut
    at every ampersand and each piece at its first equals sign. *)
Fixpoint until_char (x : N) (s : jsstring) : jsstring :=
  match s with
  | [] => []
  | c :: r => if c =? x then [] else c :: until_char x r
  end.

Definition form_names (body : jsstring) : list jsstring :=
  map (until_char (cu "=")) (filter (fun piece => piece <> []) (split (cu "&") body)).

(** ** [String(v)], and the conversion behind template literals and
       [encodeURIComponent] *)

(** The message of the TypeError V8 raises when an object has no string
    form. *)
Definition cannotConvert : jsstring := js "Cannot convert object to primitive value".

Section ToString.
(** Number::toString is the engine's (the shortest decimal that reads
    back as the same double); the node's behaviour does not depend on
    it. *)
Variable NumberToString : number -> jsstring.

(** [None] stands for the TypeError.  An object is converted by the
    [toString] it finds: the one of [Object.prototype], unless the object
    owns a property of that name.  Such a property of a data value is not
    callable, and [valueOf] returns the object itself, so nothing gives a
    primitive.  An array joins the string forms of its elements. *)
Fixpoint ToString (v : value) : option jsstring :=
  match v with
  | VUndefined => Some (js "undefined")
  | VNull => Some (js "null")
  | VBool true => Some (js "true")
  | VBool false => Some (js "false")
  | VNum n => Some (NumberToString n)
  | VStr s => Some s
  | VArr l =>
      match
        (fix elems (l : list value) : option (list jsstring) :=
           match l with
           | [] => Some []
           | x :: r =>
               match match x with
                     | VUndefined | VNull => Some []
                     | _ => ToString x
                     end with
               | Some e =>
                   match elems r with
                   | Some es => Some (e :: es)
                   | None => None
                   end
               | None => None
               end
           end) l
      with
      | Some parts => Some (join (js ",") parts)
      | None => None
      end
  | VObj props =>
      match obj_get props (js "toString") with
      | Some _ => None
      | None => Some (js "[object Object]")
      end
  end.
End ToString.

(** [o.k] for a response the node reads a field of: [inl] is the message
    of the TypeError V8 raises on [null] and [undefined]. *)
Definition get_property (o : value) (k : jsstring) : jsstring + value :=
  match o with
  | VObj props => inr (default VUndefined (obj_get props k))
  | VNull =>
      inl (js "Cannot read properties of null (reading '" ++ k ++ js "')")
  | VUndefined =>
      inl (js "Cannot read properties of undefined (reading '" ++ k ++ js "')")
  | _ => inr VUndefined
  end.

End JS.

Import JS.

(* ===================================================================== *)
(** * The node: operation names *)
(* ===================================================================== *)

(** [OperationParser] (Glpi.node.ts, lines 30-39): the name and the value
    of every operation the OpenAPI library generates. *)
Module OperationParser.

(** The parts of the library's [OperationContext] that [name] reads. *)
Record OperationContext := {
  pattern : jsstring;
  method : jsstring
}.

Section Parser.
(** [String.prototype.toUpperCase] is the engine's. *)
Variable toUpperCase : jsstring -> jsstring.

(** Lines 32-34. *)
Definition name (operation : value) (context : OperationContext) : jsstring :=
  toUpperCase (method context) ++ js " " ++ pattern context.

(** Lines 36-38. *)
Definition value (operation : JS.value) (context : OperationContext) : jsstring :=
  name operation context.
End Parser.

End OperationParser.


(* ===================================================================== *)
(** * The node: value normaliser *)
(* ===================================================================== *)

(** [isEmptyValue] (Glpi.node.ts, lines 74-91).  The recursive call is on
    the value [JSON.parse] returns, so the embedding carries a fuel;
    [isEmptyValue_fuel_enough] below shows that [S (value_size val)] always
    suffices, which makes [isEmptyValue] a total function. *)
Fixpoint isEmptyValue_fuel (fuel : nat) (val : value) : option bool :=
  match fuel with
  | O => None
  | S fuel' =>
      match val with
      (* if (val === undefined || val === null || val === '') return true; *)
      | VUndefined | VNull | VStr [] => Some true
      (* if (typeof val === 'string') { ... } *)
      | VStr s =>
          let t := trim s in
          if str_eqb t (js "{}") || str_eqb t (js "[]") then Some true
          else
            match JSON_parse t with
            | Some parsed => isEmptyValue_fuel fuel' parsed
            (* catch {}: control falls through; a string is neither an
               array nor an object, so line 90 returns false *)
            | None => Some false
            end
      (* if (Array.isArray(val)) { ... } *)
      | VArr elems =>
          Some ((length elems =? 0)%nat
                || forallb (fun v => typeof_object v && negb (is_null v)
                                     && (Object_keys_length v =? 0)%nat) elems)
      (* if (typeof val === 'object') { ... } *)
      | VObj _ => Some (Object_keys_length val =? 0)%nat
      | _ => Some false
      end
  end.

Definition value_size (v : value) : nat :=
  match v with
  | VStr s => length s
  | _ => 0%nat
  end.

Definition isEmptyValue (val : value) : bool :=
  match isEmptyValue_fuel (S (value_size val)) val with
  | Some b => b
  | None => false
  end.

(* ===================================================================== *)
(** * The node: descriptors, requests and the host *)
(* ===================================================================== *)

(** What a [catch] can receive. *)
Inductive error :=
| NodeOperationError (message : jsstring)
| JsError (message : jsstring)        (* any other instance of Error *)
| Thrown (v : value).                 (* a thrown value that is no Error *)

Abbreviation result A := (error + A)%type.

(** The parts of an [INodeProperties] the node reads. *)
Record INodeProperties := {
  name : jsstring;
  send_type : option jsstring;              (* routing?.send?.type *)
  send_property : option jsstring;          (* routing.send.property *)
  show_operation : option (list jsstring)   (* displayOptions?.show?.operation,
                                               when it is an array *)
}.

(** The credential of GlpiOAuth2Api.credentials.ts; [None] is a field the
    stored credential does not have. *)
Record ICredentials := {
  glpiUrl : jsstring;
  username : jsstring;
  password : jsstring;
  scope : option jsstring;
  clientId : option jsstring;
  clientSecret : option jsstring;
  ignoreSSLIssues : bool
}.

Inductive HttpBody :=
| BodyText (s : jsstring)
| BodyData (o : object).

Record IHttpRequestOptions := {
  method : jsstring;
  url : jsstring;
  headers : gmap (list N) (list N);
  body : option HttpBody;
  qs : option object;
  json_option : bool;                       (* the request's [json] flag *)
  skipSslCertificateValidation : bool
}.

Record INodeExecutionData := { json : value }.

(** [this: IExecuteFunctions].  The HTTP helper is given the requests
    issued before, so that two equal requests may be answered
    differently. *)
Class IExecuteFunctions := {
  getInputData : list INodeExecutionData;
  getNodeParameter : jsstring -> nat -> result value;
  getCredentials : jsstring -> result ICredentials;
  httpRequest : list IHttpRequestOptions -> IHttpRequestOptions -> result value;
  continueOnFail : bool
}.

(** Code that awaits HTTP calls: the requests issued so far are threaded
    through, and kept when an error is thrown. *)
Definition Exec (A : Type) : Type :=
  list IHttpRequestOptions -> result A * list IHttpRequestOptions.

Definition ret {A} (a : A) : Exec A := fun tr => (inr a, tr).
Definition throw {A} (e : error) : Exec A := fun tr => (inl e, tr).
Definition lift {A} (r : result A) : Exec A := fun tr => (r, tr).
Definition bind {A B} (m : Exec A) (k : A -> Exec B) : Exec B :=
  fun tr =>
    match m tr with
    | (inr a, tr') => k a tr'
    | (inl e, tr') => (inl e, tr')
    end.

Notation "x <- m ;; k" := (bind m (fun x => k))
  (at level 100, m at next level, right associativity).
Notation "x <~ r ;; k" :=
  (match r with inr x => k | inl e => inl e end)
  (at level 100, r at next level, right associativity).

Definition option_truthy (o : option jsstring) : bool :=
  match o with
  | Some s => negb (str_eqb s [])
  | None => false
  end.

(** Lines 132-140. *)
Definition tokenBodyEntries (credentials : ICredentials) : list (jsstring * jsstring) :=
  let tokenBodyEntries :=
    [ (js "grant_type", js "password");
      (js "username", username credentials);
      (js "password", password credentials);
      (* (credentials.scope as string) || 'api' *)
      (js "scope", if option_truthy (scope credentials)
                   then default [] (scope credentials) else js "api") ] in
  (* if (credentials.clientId) tokenBodyEntries.client_id = ... *)
  let tokenBodyEntries :=
    if option_truthy (clientId credentials)
    then obj_set tokenBodyEntries (js "client_id") (default [] (clientId credentials))
    else tokenBodyEntries in
  (* if (credentials.clientSecret) tokenBodyEntries.client_secret = ... *)
  if option_truthy (clientSecret credentials)
  then obj_set tokenBodyEntries (js "client_secret") (default [] (clientSecret credentials))
  else tokenBodyEntries.

(** Lines 142-149: the request sent to the token endpoint. *)
Definition tokenRequest (credentials : ICredentials) : IHttpRequestOptions :=
  let baseUrl := stripTrailingSlashes (glpiUrl credentials) in
  {| method := js "POST";
     url := baseUrl ++ js "/api.php/token";
     headers := {[ js "Content-Type" := js "application/x-www-form-urlencoded" ]};
     body := Some (BodyText (URLSearchParams_toString (tokenBodyEntries credentials)));
     qs := None;
     json_option := true;
     skipSslCertificateValidation := ignoreSSLIssues credentials |}.

(** Line 239. *)
Definition payloadMethods : list jsstring := [js "POST"; js "PUT"; js "PATCH"].

(** Line 168. *)
Definition validMethods : list jsstring :=
  [js "GET"; js "POST"; js "PUT"; js "PATCH"; js "DELETE"].

(** [operation.split]: the receiver must be a string, otherwise V8 raises
    a TypeError. *)
Definition split_receiver (v : value) : result jsstring :=
  match v with
  | VStr s => inr s
  | VUndefined => inl (JsError (js "Cannot read properties of undefined (reading 'split')"))
  | VNull => inl (JsError (js "Cannot read properties of null (reading 'split')"))
  | _ => inl (JsError (js "operation.split is not a function"))
  end.

(** What the parameter loop of lines 212-237 fills. *)
Record Collected := {
  bodyData : object;
  queryParams : object;
  requestHeaders : gmap (list N) (list N)
}.

(** The message of the RangeError V8 raises when a call is given more
    arguments than its stack has room for. *)
Definition stackExceeded : jsstring := js "Maximum call stack size exceeded".

Section Node.
Context (NumberToString : number -> jsstring).
(** The number of arguments the engine accepts in the call of line 253,
    where the elements of the response are spread into [push].  ECMAScript
    sets no limit; V8's is the room left on the stack. *)
Context (maxArguments : nat).
(** [properties] is built by the OpenAPI library from [openapi.json],
    which is not part of the sources: any list of descriptors. *)
Context (properties : list INodeProperties).
Context `{this : IExecuteFunctions}.

(** [error instanceof Error ? error.message : String(error)]; [None] when
    [String] throws. *)
Definition error_message (e : error) : option jsstring :=
  match e with
  | NodeOperationError m | JsError m => Some m
  | Thrown v => ToString NumberToString v
  end.

(** Line 61: [!sendType || !['body','query','header'].includes(sendType)]
    negated. *)
Definition routable (sendType : option jsstring) : bool :=
  match sendType with
  | Some t => negb (str_eqb t [])
              && includes [js "body"; js "query"; js "header"] t
  | None => false
  end.

(** Lines 65-68. *)
Definition index_operations (prop : INodeProperties)
    (m : gmap (list N) (list INodeProperties)) (ops : list jsstring)
  : gmap (list N) (list INodeProperties) :=
  fold_left (fun m op => <[op := default [] (m !! op) ++ [prop]]> m) ops m.

(** Lines 57-69: one turn of the indexing loop. *)
Definition index_property (m : gmap (list N) (list INodeProperties))
    (prop : INodeProperties) : gmap (list N) (list INodeProperties) :=
  if negb (routable (send_type prop)) then m            (* continue *)
  else match show_operation prop with
       | None => m                    (* if (!Array.isArray(ops)) continue *)
       | Some ops => index_operations prop m ops
       end.

(** Lines 56-69. *)
Definition operationPropertiesMap : gmap (list N) (list INodeProperties) :=
  fold_left index_property properties ∅.

(** Line 208: [operationPropertiesMap.get(operation) ?? []]. *)
Definition operationProps (operation : jsstring) : list INodeProperties :=
  default [] (operationPropertiesMap !! operation).

(** Lines 178-184: the callback given to [replace]. *)
Definition resolvePlaceholder (i : nat) (placeholder paramName : jsstring) : jsstring :=
  match getNodeParameter paramName i with
  | inr v =>
      match ToString NumberToString v with
      | Some text =>
          match encodeURIComponent text with
          | Some encoded => encoded
          | None => placeholder                    (* URIError, caught *)
          end
      | None => placeholder                        (* TypeError, caught *)
      end
  | inl _ => placeholder
  end.

(** Line 174: [pathPart.startsWith('/') ? pathPart : '/' + pathPart]. *)
Definition pathTemplate (pathPart : jsstring) : jsstring :=
  if startsWith pathPart (cu "/") then pathPart else cu "/" :: pathPart.

(** Lines 174-194: the path of the request, or the error of line 190. *)
Definition resolvePath (i : nat) (pathPart : jsstring) : result jsstring :=
  let path := pathTemplate pathPart in
  let path := replace_placeholders (resolvePlaceholder i) path in
  match match_placeholders path with
  | [] => inr path
  | unresolved =>
      inl (NodeOperationError
             (js "Missing required path parameter(s): "
              ++ join (js ", ") unresolved))
  end.

(** Line 221: [routing.send.property ?? prop.name]. *)
Definition targetKey (prop : INodeProperties) : jsstring :=
  default (name prop) (send_property prop).

(** Lines 213-236: one turn of the parameter loop. *)
Definition collectProperty (i : nat) (acc : Collected) (prop : INodeProperties)
  : result Collected :=
  match getNodeParameter (name prop) i with
  | inr value =>
      if isEmptyValue value then inr acc                        (* continue *)
      else
        let key := targetKey prop in
        if bool_decide (send_type prop = Some (js "body")) then
          inr {| bodyData := assign (bodyData acc) key value;
                 queryParams := queryParams acc;
                 requestHeaders := requestHeaders acc |}
        else if bool_decide (send_type prop = Some (js "query")) then
          inr {| bodyData := bodyData acc;
                 queryParams := assign (queryParams acc) key value;
                 requestHeaders := requestHeaders acc |}
        else
          match ToString NumberToString value with
          | Some text =>
              inr {| bodyData := bodyData acc;
                     queryParams := queryParams acc;
                     requestHeaders := assign_header (requestHeaders acc) key text |}
          (* the TypeError of [String(value)] is no NodeOperationError *)
          | None => inr acc
          end
  (* if (error instanceof NodeOperationError) throw error; *)
  | inl (NodeOperationError m) => inl (NodeOperationError m)
  | inl _ => inr acc
  end.

(** Lines 212-237. *)
Fixpoint collectProperties (i : nat) (props : list INodeProperties) (acc : Collected)
  : result Collected :=
  match props with
  | [] => inr acc
  | prop :: rest =>
      acc' <~ collectProperty i acc prop ;;
      collectProperties i rest acc'
  end.

(** Lines 161-248: everything an item does before its HTTP call. *)
Definition buildRequest (credentials : ICredentials) (accessToken : value)
    (i : nat) : result IHttpRequestOptions :=
  let baseUrl := stripTrailingSlashes (glpiUrl credentials) in
  parameter <~ getNodeParameter (js "operation") i ;;
  operation <~ split_receiver parameter ;;
  let operationParts := split 32 operation in
  let method := nth 0 operationParts [] in
  let pathPart := nth 1 operationParts [] in
  if negb (includes validMethods method) then
    inl (NodeOperationError
           (js "Invalid HTTP method parsed from operation: " ++ [34] ++ method ++ [34]))
  else
    path <~ resolvePath i pathPart ;;
    (* `Bearer ${accessToken}` *)
    token <~ match ToString NumberToString accessToken with
             | Some text => inr text
             | None => inl (JsError cannotConvert)
             end ;;
    let initialHeaders :=
      <[js "Authorization" := js "Bearer " ++ token]>
        {[ js "Accept" := js "application/json" ]} in
    collected <~ collectProperties i (operationProps operation)
                   {| bodyData := emptyObject; queryParams := emptyObject;
                      requestHeaders := initialHeaders |} ;;
    let carriesBody := includes payloadMethods method in
    inr {| method := method;
           url := baseUrl ++ js "/api.php" ++ path;
           headers :=
             if carriesBody
             then <[js "Content-Type" := js "application/json"]> (requestHeaders collected)
             else requestHeaders collected;
           body :=
             (* Object.keys(bodyData).length > 0 *)
             if carriesBody && (0 <? size (own (bodyData collected)))%nat
             then Some (BodyData (bodyData collected)) else None;
           qs :=
             if (0 <? size (own (queryParams collected)))%nat
             then Some (queryParams collected) else None;
           json_option := true;
           skipSslCertificateValidation := ignoreSSLIssues credentials |}.

(** [await this.helpers.httpRequest(options)]. *)
Definition await_httpRequest (options : IHttpRequestOptions) : Exec value :=
  fun tr => (httpRequest tr options, tr ++ [options]).

(** Lines 252-256: the records of a response.  The elements of an array
    are the arguments of one call of [push], which the engine refuses with
    a RangeError, before anything is pushed, when they are too many. *)
Definition responseItems (response : value) : result (list INodeExecutionData) :=
  match response with
  | VArr items =>
      if (length items <=? maxArguments)%nat
      then inr (map (fun item => {| json := item |}) items)
      else inl (JsError stackExceeded)
  | _ => inr [ {| json := response |} ]
  end.

(** Lines 160-256: the body of the [try]. *)
Definition processItem (credentials : ICredentials) (accessToken : value)
    (i : nat) : Exec (list INodeExecutionData) :=
  requestOptions <- lift (buildRequest credentials accessToken i) ;;
  response <- await_httpRequest requestOptions ;;
  lift (responseItems response).

(** Lines 259-261: the record pushed for a caught error, or the TypeError
    of [String(error)], which leaves the [catch] block. *)
Definition errorRecord (e : error) : result INodeExecutionData :=
  match error_message e with
  | Some message => inr {| json := VObj [(js "error", VStr message)] |}
  | None => inl (JsError cannotConvert)
  end.

(** Lines 159-266: the loop, with its [catch]. *)
Fixpoint itemLoop (credentials : ICredentials) (accessToken : value)
    (indices : list nat) (returnData : list INodeExecutionData)
  : Exec (list INodeExecutionData) :=
  match indices with
  | [] => ret returnData
  | i :: rest =>
      fun tr =>
        match processItem credentials accessToken i tr with
        | (inr records, tr') =>
            itemLoop credentials accessToken rest (returnData ++ records) tr'
        | (inl e, tr') =>
            if continueOnFail then
              match errorRecord e with
              | inr record =>
                  itemLoop credentials accessToken rest (returnData ++ [record]) tr'
              | inl thrown => (inl thrown, tr')
              end
            else (inl e, tr')
        end
  end.

(** What an item adds to the output when its error is captured: its
    records, or the record of its error when the error has a message. *)
Definition capturedRecords (outcome : result (list INodeExecutionData))
  : list INodeExecutionData :=
  match outcome with
  | inr records => records
  | inl e =>
      match errorRecord e with
      | inr record => [record]
      | inl _ => []
      end
  end.

(** Every item processed in turn, whatever its outcome: the outcomes, and
    the requests issued by the end. *)
Fixpoint runItems (credentials : ICredentials) (accessToken : value)
    (indices : list nat) (tr : list IHttpRequestOptions)
  : list (result (list INodeExecutionData)) * list IHttpRequestOptions :=
  match indices with
  | [] => ([], tr)
  | i :: rest =>
      let (outcome, tr') := processItem credentials accessToken i tr in
      let (outcomes, tr'') := runItems credentials accessToken rest tr' in
      (outcome :: outcomes, tr'')
  end.

Definition succeeded {A} (outcome : result A) : Prop :=
  match outcome with inr _ => True | inl _ => False end.

(** An outcome the [catch] of lines 257-265 can put into a record: a
    success, or an error that has a message. *)
Definition reportable {A} (outcome : result A) : Prop :=
  match outcome with
  | inr _ => True
  | inl e => error_message e <> None
  end.

(** A host that throws only what has a message: instances of [Error], and
    values that [String] converts. *)
Definition throwsMessages : Prop :=
  (forall paramName i e, getNodeParameter paramName i = inl e -> error_message e <> None)
  /\ (forall tr options e, httpRequest tr options = inl e -> error_message e <> None).

(** Lines 153-156. *)
Definition noTokenError : error :=
  NodeOperationError
    (js "OAuth2 token request succeeded but returned no access_token. Check GLPI credentials.").

(** Lines 117-269. *)
Definition execute : Exec (list (list INodeExecutionData)) :=
  credentials <- lift (getCredentials (js "glpiOAuth2Api")) ;;
  tokenResponse <- await_httpRequest (tokenRequest credentials) ;;
  accessToken <- lift (match get_property tokenResponse (js "access_token") with
                       | inr v => inr v
                       | inl m => inl (JsError m)
                       end) ;;
  if negb (truthy accessToken) then throw noTokenError
  else
    returnData <- itemLoop credentials accessToken
                    (seq 0 (length getInputData)) [] ;;
    ret [returnData].

(** *** What the statements about requests speak of *)

(** A descriptor the indexing loop files under [operation]. *)
Definition indexed (operation : jsstring) (prop : INodeProperties) : Prop :=
  routable (send_type prop) = true /\
  exists ops, show_operation prop = Some ops /\ operation ∈ ops.

(** [operationParts[0]] and [operationParts[1] || '']. *)
Definition operationMethod (operation : jsstring) : jsstring :=
  nth 0 (split 32 operation) [].

Definition operationPath (operation : jsstring) : jsstring :=
  nth 1 (split 32 operation) [].

(** The collections before the parameter loop: lines 199-202, 209, 210;
    [token] is the string form of the access token. *)
Definition initialCollected (token : jsstring) : Collected :=
  {| bodyData := emptyObject; queryParams := emptyObject;
     requestHeaders :=
       <[js "Authorization" := js "Bearer " ++ token]>
         {[ js "Accept" := js "application/json" ]} |}.

(** What the callback of lines 178-184 substitutes for a name, if
    anything: the lookup must succeed, its value must have a string form
    and that string must encode. *)
Definition encodes (i : nat) (paramName : jsstring) : option jsstring :=
  match getNodeParameter paramName i with
  | inr v =>
      match ToString NumberToString v with
      | Some text => encodeURIComponent text
      | None => None
      end
  | inl _ => None
  end.

(** The names of the template for which nothing can be substituted: the
    lookup fails, or its value has no string form or does not encode. *)
Definition missingParameters (i : nat) (pathPart : jsstring) : list jsstring :=
  filter (fun nm => encodes i nm = None) (placeholders (pathTemplate pathPart)).

(** Which of the three collections a descriptor's value goes to. *)
Inductive destination := ToBody | ToQuery | ToHeader.

Definition destinationOf (prop : INodeProperties) : destination :=
  if bool_decide (send_type prop = Some (js "body")) then ToBody
  else if bool_decide (send_type prop = Some (js "query")) then ToQuery
  else ToHeader.


Definition placed (d : destination) (acc : Collected) (k : jsstring) (v : value) : Prop :=
  match d with
  | ToBody => own (bodyData acc) !! k = Some v
  | ToQuery => own (queryParams acc) !! k = Some v
  | ToHeader =>
      exists text, ToString NumberToString v = Some text
                   /\ requestHeaders acc !! k = Some text
  end.

End Node.

(** ** The earlier drafts kept beside the node (Glpi.node.ts after line
       270, and the unnamed source) *)

Module Legacy.

(** [isEmptyValue] of lines 316-331: as above, but zero is empty too. *)
Fixpoint isEmptyValue_fuel (fuel : nat) (val : value) : option bool :=
  match fuel with
  | O => None
  | S fuel' =>
      match val with
      | VUndefined | VNull | VStr [] => Some true
      | VNum n => Some (num_is_zero n)
      | VStr s =>
          let t := trim s in
          if str_eqb t (js "{}") || str_eqb t (js "[]") then Some true
          else
            match JSON_parse t with
            | Some parsed => isEmptyValue_fuel fuel' parsed
            | None => Some false
            end
      | VArr elems =>
          Some ((length elems =? 0)%nat
                || forallb (fun v => typeof_object v && negb (is_null v)
                                     && (Object_keys_length v =? 0)%nat) elems)
      | VObj _ => Some (Object_keys_length val =? 0)%nat
      | _ => Some false
      end
  end.

(** Lines 423-432: the descriptors the per-item scan keeps for an
    operation. *)
Definition applies (operation : jsstring) (prop : INodeProperties) : bool :=
  match send_type prop with
  | Some t =>
      negb (str_eqb t []) && includes [js "body"; js "query"; js "header"] t
      && match show_operation prop with
         | Some supported => includes supported operation
         | None => true
         end
  | None => false
  end.

Definition operationProps (properties : list INodeProperties)
    (operation : jsstring) : list INodeProperties :=
  filter (fun prop => applies operation prop = true) properties.

(** The draft's [isEmptyValue] as a total function, with the fuel that
    always suffices. *)
Definition isEmptyValue (val : value) : bool :=
  match Legacy.isEmptyValue_fuel (S (value_size val)) val with
  | Some b => b
  | None => false
  end.

Section Draft.
Context (NumberToString : number -> jsstring).
Context `{this : IExecuteFunctions}.

(** Lines 423-451: one turn of the draft's parameter loop, which scans
    every descriptor for every item and swallows every lookup error. *)
Definition collectProperty (operation : jsstring) (i : nat) (acc : Collected)
    (prop : INodeProperties) : Collected :=
  (* if (!sendType || ![...].includes(sendType)) continue; *)
  if negb (routable (send_type prop)) then acc
  (* if (Array.isArray(supported) && !supported.includes(operation)) continue; *)
  else if match show_operation prop with
          | Some supported => negb (includes supported operation)
          | None => false
          end then acc
  else
    match getNodeParameter (name prop) i with
    | inr value =>
        if isEmptyValue value then acc
        else
          let key := targetKey prop in
          if bool_decide (send_type prop = Some (js "body")) then
            {| bodyData := assign (bodyData acc) key value;
               queryParams := queryParams acc;
               requestHeaders := requestHeaders acc |}
          else if bool_decide (send_type prop = Some (js "query")) then
            {| bodyData := bodyData acc;
               queryParams := assign (queryParams acc) key value;
               requestHeaders := requestHeaders acc |}
          else
            match ToString NumberToString value with
            | Some text =>
                {| bodyData := bodyData acc;
                   queryParams := queryParams acc;
                   requestHeaders := assign_header (requestHeaders acc) key text |}
            | None => acc                                   (* catch { } *)
            end
    (* catch { } *)
    | inl _ => acc
    end.

Definition collectProperties (properties : list INodeProperties)
    (operation : jsstring) (i : nat) (acc : Collected) : Collected :=
  fold_left (collectProperty operation i) properties acc.

End Draft.

End Legacy.

(** ** A table-driven host for the worked examples *)

(** Number::toString on the doubles the examples use: the integers below
    10^21, which are printed digit by digit.  The shortest decimal of the
    other finite doubles is left out. *)
Definition sampleNumberToString (n : number) : jsstring :=
  match n with
  | S754_zero _ => js "0"
  | S754_infinity false => js "Infinity"
  | S754_infinity true => js "-Infinity"
  | S754_nan => js "NaN"
  | S754_finite s m e =>
      if (0 <=? e)%Z
      then js (NilZero.string_of_int (Z.to_int (cond_Zopp s (Z.pos m * 2 ^ e))))
      else if (Z.pos m mod 2 ^ (- e) =? 0)%Z
      then js (NilZero.string_of_int (Z.to_int (cond_Zopp s (Z.pos m / 2 ^ (- e)))))
      else []
  end.

(** An engine whose stack takes a hundred thousand arguments, the order of
    magnitude of V8 with its default stack. *)
Definition sampleMaxArguments : nat := N.to_nat 100000.

(** Parameters are read from a table per item; the [k]-th HTTP call of the
    execution is answered by [responses k]. *)
Definition tableHost (items : nat) (parameters : nat -> list (jsstring * value))
    (credentials : result ICredentials) (responses : nat -> result value)
    (continue : bool) : IExecuteFunctions :=
  {| getInputData := replicate items {| json := VObj [] |};
     getNodeParameter := fun paramName i =>
       match obj_get (parameters i) paramName with
       | Some v => inr v
       | None => inl (JsError (js "Could not get parameter"))
       end;
     getCredentials := fun _ => credentials;
     httpRequest := fun tr _ => responses (length tr);
     continueOnFail := continue |}.

Definition sampleCredentials : ICredentials :=
  {| glpiUrl := js "https://glpi.example.com/";
     username := js "tech";
     password := js "s3cret&x=1";
     scope := None;
     clientId := Some (js "n8n");
     clientSecret := Some (js "hush");
     ignoreSSLIssues := false |}.

Definition publicCredentials : ICredentials :=
  {| glpiUrl := js "https://glpi.example.com";
     username := js "tech";
     password := js "s3cret";
     scope := Some (js "api");
     clientId := Some [];
     clientSecret := None;
     ignoreSSLIssues := false |}.

Definition sampleProperties : list INodeProperties :=
  [ {| name := js "name"; send_type := Some (js "body"); send_property := None;
       show_operation := Some [js "POST /Ticket"] |};
    {| name := js "content"; send_type := Some (js "body"); send_property := None;
       show_operation := Some [js "POST /Ticket"] |};
    {| name := js "start"; send_type := Some (js "query"); send_property := None;
       show_operation := Some [js "GET /Ticket"] |};
    {| name := js "GLPI-Entity"; send_type := Some (js "header"); send_property := None;
       show_operation := None |} ].

Definition tokenResponseOk : value :=
  VObj [(js "access_token", VStr (js "tok123")); (js "expires_in", VNum (num_of_Z 3600))].

(** One item asking for the first page of tickets; [start] is zero. *)
Definition pagingHost : IExecuteFunctions :=
  tableHost 1
    (fun _ => [(js "operation", VStr (js "GET /Ticket"));
               (js "start", VNum (num_of_Z 0))])
    (inr sampleCredentials)
    (fun _ => inr (VArr [VObj [(js "id", VNum (num_of_Z 1))];
                         VObj [(js "id", VNum (num_of_Z 2))]]))
    false.

Definition startProperty : INodeProperties :=
  {| name := js "start"; send_type := Some (js "query"); send_property := None;
     show_operation := Some [js "GET /Ticket"] |}.

Definition entityProperty : INodeProperties :=
  {| name := js "GLPI-Entity"; send_type := Some (js "header"); send_property := None;
     show_operation := None |}.

(** One item whose operation has a path parameter; [id] is supplied by
    [idValue] when there is one. *)
Definition ticketHost (operation : jsstring) (idValue : option value) : IExecuteFunctions :=
  tableHost 1
    (fun _ => (js "operation", VStr operation)
              :: match idValue with
                 | Some v => [(js "id", v)]
                 | None => []
                 end)
    (inr sampleCredentials)
    (fun _ => inr (VObj [(js "id", VNum (num_of_Z 42))]))
    true.

(** Three items; the call of the second one (the third call of the
    execution, after the token request and the first item) fails. *)
Definition batchHost (continue : bool) : IExecuteFunctions :=
  tableHost 3
    (fun _ => [(js "operation", VStr (js "GET /Ticket"))])
    (inr sampleCredentials)
    (fun k => match k with
              | O => inr tokenResponseOk
              | 2%nat => inl (JsError (js "Request failed with status code 500"))
              | _ => inr (VObj [(js "call", VNum (num_of_Z (Z.of_nat k)))])
              end)
    continue.

(** The token endpoint answers without a token. *)
Definition deniedHost : IExecuteFunctions :=
  tableHost 2
    (fun _ => [(js "operation", VStr (js "GET /Ticket"))])
    (inr sampleCredentials)
    (fun _ => inr (VObj [(js "error", VStr (js "invalid_grant"))]))
    true.

(** [toUpperCase] on strings of ASCII characters, such as the method
    names of an OpenAPI document: the letters a-z become A-Z, the other
    characters are kept. *)
Definition asciiUpperCase (s : jsstring) : jsstring :=
  map (fun c => if (97 <=? c) && (c <=? 122) then c - 32 else c) s.

Definition nameProperty : INodeProperties :=
  {| name := js "name"; send_type := Some (js "body"); send_property := None;
     show_operation := Some [js "POST /Ticket"] |}.

Definition contentProperty : INodeProperties :=
  {| name := js "content"; send_type := Some (js "body"); send_property := None;
     show_operation := Some [js "POST /Ticket"] |}.

(** The descriptors of [sampleProperties] that name their operations. *)
Definition restrictedProperties : list INodeProperties :=
  [nameProperty; contentProperty; startProperty].

(** One item creating a ticket: a name, and a content left empty. *)
Definition postHost : IExecuteFunctions :=
  tableHost 1
    (fun _ => [(js "operation", VStr (js "POST /Ticket"));
               (js "name", VStr (js "Printer broken"));
               (js "content", VStr [])])
    (inr sampleCredentials) (fun _ => inr VNull) false.

(** The same item on a host whose evaluation of [content] fails with an
    operation error. *)
Definition strictHost : IExecuteFunctions :=
  {| getInputData := [ {| json := VObj [] |} ];
     getNodeParameter := fun paramName i =>
       if str_eqb paramName (js "content")
       then inl (NodeOperationError (js "Invalid expression"))
       else match obj_get [(js "operation", VStr (js "POST /Ticket"));
                           (js "name", VStr (js "Printer broken"))] paramName with
            | Some v => inr v
            | None => inl (JsError (js "Could not get parameter"))
            end;
     getCredentials := fun _ => inr sampleCredentials;
     httpRequest := fun _ _ => inr VNull;
     continueOnFail := false |}.

(** Two descriptors filed under one body key. *)
Definition titleProperty : INodeProperties :=
  {| name := js "title"; send_type := Some (js "body");
     send_property := Some (js "name"); show_operation := Some [js "POST /Ticket"] |}.

Definition titledHost : IExecuteFunctions :=
  tableHost 1
    (fun _ => [(js "operation", VStr (js "POST /Ticket"));
               (js "name", VStr (js "Printer broken"));
               (js "title", VStr (js "Printer on fire"))])
    (inr sampleCredentials) (fun _ => inr VNull) false.

(** Two items listing tickets; every call is answered. *)
Definition steadyHost : IExecuteFunctions :=
  tableHost 2
    (fun _ => [(js "operation", VStr (js "GET /Ticket"))])
    (inr sampleCredentials)
    (fun k => match k with
              | O => inr tokenResponseOk
              | _ => inr (VObj [(js "call", VNum (num_of_Z (Z.of_nat k)))])
              end)
    false.

(** One item listing tickets, answered with two hundred thousand
    records. *)
Definition longResponse : list value := replicate (N.to_nat 200000) (VObj []).

Definition longHost (continue : bool) : IExecuteFunctions :=
  tableHost 1
    (fun _ => [(js "operation", VStr (js "GET /Ticket"))])
    (inr sampleCredentials)
    (fun k => match k with
              | O => inr tokenResponseOk
              | _ => inr (VArr longResponse)
              end)
    continue.

(** Two items reading one ticket each; the identifier of the second is
    the encoded form of the identifier of the first. *)
Definition twoTicketsHost : IExecuteFunctions :=
  tableHost 2
    (fun i => [(js "operation", VStr (js "GET /Ticket/{id}"));
               (js "id", VStr (match i with
                               | O => js "a/b"
                               | _ => js "a%2Fb"
                               end))])
    (inr sampleCredentials) (fun _ => inr VNull) false.

(** A value without a string form: its [toString] is a number. *)
Definition opaqueValue : value := VObj [(js "toString", VNum (num_of_Z 1))].

(** Two items; the call of the first one fails with that value thrown. *)
Definition opaqueHost : IExecuteFunctions :=
  tableHost 2
    (fun _ => [(js "operation", VStr (js "GET /Ticket"))])
    (inr sampleCredentials)
    (fun k => match k with
              | O => inr tokenResponseOk
              | 1%nat => inl (Thrown opaqueValue)
              | _ => inr VNull
              end)
    true.

(** A body descriptor and a header descriptor that meet the two corners
    of assignment and conversion. *)
Definition protoProperty : INodeProperties :=
  {| name := js "__proto__"; send_type := Some (js "body"); send_property := None;
     show_operation := Some [js "POST /Ticket"] |}.

Definition traceProperty : INodeProperties :=
  {| name := js "X-Trace"; send_type := Some (js "header"); send_property := None;
     show_operation := Some [js "POST /Ticket"] |}.

Definition cornerHost (protoValue : value) : IExecuteFunctions :=
  tableHost 1
    (fun _ => [(js "operation", VStr (js "POST /Ticket"));
               (js "name", VStr (js "Printer broken"));
               (js "__proto__", protoValue);
               (js "X-Trace", opaqueValue)])
    (inr sampleCredentials) (fun _ => inr VNull) false.

(** ** Vocabulary of the statements below *)

(** Case analysis on the condition at the head of an equation [H] that
    starts with a conditional. *)
Ltac case_condition H :=
  match type of H with
  | (if ?b then _ else _) = _ => destruct b
  end.

Definition token_weight (t : token) : nat :=
  match t with
  | TString s => length s + 2
  | _ => 0
  end%nat.

Definition tokens_weight (ts : list token) : nat :=
  list_sum (map token_weight ts).

Definition lex_pending (st : lexstate) : nat :=
  match st with
  | LString acc | LEscape acc | LUnicode acc _ _ => length acc + 1
  | LLiteral _ t => token_weight t
  | _ => 0
  end%nat.

Definition compound (v : value) : Prop :=
  match v with
  | VArr _ | VObj _ => True
  | _ => False
  end.

Definition is_done (m : mode) : Prop :=
  match m with MDone _ => True | _ => False end.

Definition no_char (x : N) (s : jsstring) : Prop := Forall (fun c => c <> x) s.


(** What a placeholder becomes: [Some e] when it is replaced by [e], [None]
    when it is left in place. *)
Definition render (f : jsstring -> option jsstring) (seg : segment) : jsstring :=
  match seg with
  | Lit c => [c]
  | Placeholder nm => default (placeholder_text nm) (f nm)
  end.

Definition rendered (f : jsstring -> option jsstring) (s : jsstring) : jsstring :=
  concat (map (render f) (segments s)).

Definition left_in_place (f : jsstring -> option jsstring) (seg : segment)
  : option jsstring :=
  match seg with
  | Lit _ => None
  | Placeholder nm =>
      match f nm with
      | Some _ => None
      | None => Some (placeholder_text nm)
      end
  end.

Definition brace_free (s : jsstring) : Prop :=
  Forall (fun c => c <> cu "{" /\ c <> cu "}") s.

Definition form_safe (s : jsstring) : Prop :=
  Forall (fun c => c <> cu "&" /\ c <> cu "=") s.

(** The credential with another URL. *)
Definition withUrl (credentials : ICredentials) (u : jsstring) : ICredentials :=
  {| glpiUrl := u;
     username := username credentials;
     password := password credentials;
     scope := scope credentials;
     clientId := clientId credentials;
     clientSecret := clientSecret credentials;
     ignoreSSLIssues := ignoreSSLIssues credentials |}.

(** How many times the indexing loop pushes a descriptor under an
    operation: once per occurrence of the operation in its list. *)
Definition occurrences (operation : jsstring) (prop : INodeProperties) : nat :=
  if routable (send_type prop)
  then length (filter (fun op => op = operation) (default [] (show_operation prop)))
  else 0%nat.

Section RequestVocabulary.
Context (NumberToString : number -> jsstring).
Context `{this : IExecuteFunctions}.

(** A descriptor that puts [v] under key [k] of collection [d] for item
    [i]: its parameter is read without error and is not empty. *)
Definition supplies (i : nat) (d : destination) (k : jsstring) (v : value)
    (prop : INodeProperties) : Prop :=
  destinationOf prop = d /\ targetKey prop = k
  /\ getNodeParameter (name prop) i = inr v /\ isEmptyValue v = false.

(** The headers the node sets by itself: lines 199-202 and line 240. *)
Definition ownHeaders (method : jsstring) (token : jsstring) : gmap (list N) (list N) :=
  let initial := requestHeaders (initialCollected token) in
  if includes payloadMethods method
  then <[js "Content-Type" := js "application/json"]> initial
  else initial.

End RequestVocabulary.

(** The characters [encodeURIComponent] can write: the ones it leaves
    alone, and the percent sign of an escape. *)
Definition uri_safe (c : N) : bool := uriUnreserved c || (c =? cu "%").

(** [val === 0]. *)
Definition is_zero (val : value) : bool :=
  match val with
  | VNum n => num_is_zero n
  | _ => false
  end.

(** Every element is a UTF-16 code unit. *)
Definition code_units (s : jsstring) : Prop := Forall (fun c => c < 65536) s.

(** Characters a JSON string literal holds as they are: no double quote,
    no backslash, no control character. *)
Definition plain (s : jsstring) : Prop :=
  Forall (fun c => c <> 34 /\ c <> 92 /\ 32 <= c) s.

(** Arithmetic with quotients and remainders by constants. *)
Ltac euclid := zify; Z.to_euclidean_division_equations; lia.

Ltac nibble_bounds :=
  repeat match goal with
         | |- _ mod 16 < 16 => apply N.mod_lt; discriminate
         end.

(* ===================================================================== *)
(** * Properties *)
(* ===================================================================== *)

Example JSON_parse_ex1 :
  JSON_parse (js "[ {}, [1, -2.50e+3], true, null ]")
  = Some (VArr [VObj []; VArr [VNum (num_of_Z 1); VNum (num_of_Z (-2500))]; VBool true; VNull]).
Proof. vm_compute. reflexivity. Qed.

Example JSON_parse_ex2 : JSON_parse (js "{ 'a' : 1 }") = None.
Proof. vm_compute. reflexivity. Qed.

Example JSON_parse_ex3 : JSON_parse (js "01") = None.
Proof. vm_compute. reflexivity. Qed.

Example JSON_parse_ex4 : JSON_parse (js "[1,]") = None.
Proof. vm_compute. reflexivity. Qed.

Example JSON_parse_ex5 :
  JSON_parse ([34] ++ js "aA\n" ++ [34]) = Some (VStr [97; 65; 10]).
Proof. vm_compute. reflexivity. Qed.

Example JSON_parse_ex6 :
  JSON_parse ((js "{" ++ [34] ++ js "a" ++ [34] ++ js ":1,") ++ [34] ++ js "b" ++ [34] ++ js ": [] ,"
              ++ [34] ++ js "a" ++ [34] ++ js ":2}")
  = Some (VObj [(js "a", VNum (num_of_Z 2)); (js "b", VArr [])]).
Proof. vm_compute. reflexivity. Qed.

Example trim_ex : trim ([32; 0xA0; 10] ++ js "{ }" ++ [9; 0xFEFF]) = js "{ }".
Proof. vm_compute. reflexivity. Qed.

(** ** The lexer never produces a string longer than its source *)

Lemma tokens_weight_app a b :
  tokens_weight (a ++ b) = (tokens_weight a + tokens_weight b)%nat.
Proof. unfold tokens_weight. rewrite map_app, list_sum_app. reflexivity. Qed.

Lemma lex_start_weight c toks st :
  lex_start c = Some (toks, st) ->
  (tokens_weight toks + lex_pending st <= 1)%nat.
Proof.
  unfold lex_start. intros H.
  repeat (case_condition H; [injection H as <- <-; cbn; lia|]).
  discriminate.
Qed.

Lemma lex_step_weight st c toks st' :
  lex_step st c = Some (toks, st') ->
  (tokens_weight toks + lex_pending st' <= lex_pending st + 1)%nat.
Proof.
  destruct st as [|acc|acc|acc need code|ph a|pending t]; cbn [lex_step lex_pending].
  - intros H. apply lex_start_weight in H. lia.
  - intros H.
    repeat (case_condition H;
            [first [discriminate | injection H as <- <-; cbn; rewrite ?length_rev; lia]|]).
    injection H as <- <-. cbn. lia.
  - intros H. destruct (c =? cu "u").
    + injection H as <- <-. cbn. lia.
    + destruct (escape_val c); [|discriminate]. injection H as <- <-. cbn. lia.
  - intros H. destruct (hex_val c); [|discriminate].
    destruct need as [|[|k]]; injection H as <- <-; cbn; lia.
  - intros H. destruct (number_step ph a c) as [[ph' a']|].
    + injection H as <- <-. cbn. lia.
    + destruct (num_accepting ph); [|discriminate].
      destruct (lex_start c) as [[toks0 st0]|] eqn:E; [|discriminate].
      injection H as <- <-. apply lex_start_weight in E.
      change (tokens_weight (TNumber (num_of_acc a) :: toks0)) with (tokens_weight toks0).
      lia.
  - intros H. destruct pending as [|p rest]; [discriminate|].
    destruct (c =? p); [|discriminate].
    destruct rest; injection H as <- <-; cbn; lia.
Qed.

Lemma lex_weight s : forall st toks,
  lex st s = Some toks ->
  (tokens_weight toks <= lex_pending st + length s)%nat.
Proof.
  induction s as [|c rest IH]; intros st toks H; cbn [lex] in H.
  - destruct st; cbn in H; try discriminate.
    + injection H as <-. cbn. lia.
    + destruct (num_accepting ph); [|discriminate]. injection H as <-. cbn. lia.
  - destruct (lex_step st c) as [[toks0 st0]|] eqn:E; [|discriminate].
    destruct (lex st0 rest) as [more|] eqn:E'; [|discriminate].
    injection H as <-. apply lex_step_weight in E. apply IH in E'.
    rewrite tokens_weight_app. cbn [length]. lia.
Qed.

(** ** The parser returns a string only for a lone string token *)

Lemma parse_run_done v stk ts st :
  parse_run (MDone v, stk) ts = Some st -> ts = [] /\ st = (MDone v, stk).
Proof. destruct ts; cbn; [intros [= <-]; auto | discriminate]. Qed.

Lemma deliver_inside v stack st :
  stack <> [] -> deliver v stack = Some st -> snd st <> [] /\ ~ is_done (fst st).
Proof.
  destruct stack as [|[es|ps [k|]] rest]; cbn; try congruence;
    intros _ [= <-]; cbn; split; auto; discriminate.
Qed.

Lemma deliver_compound v stack st :
  compound v -> deliver v stack = Some st ->
  (snd st <> [] /\ ~ is_done (fst st)) \/ (exists v', fst st = MDone v' /\ compound v').
Proof.
  intros Hv H. destruct stack as [|f rest].
  - cbn in H. injection H as <-. right. eauto.
  - left. eapply deliver_inside; [|exact H]. discriminate.
Qed.

Lemma parse_step_inside m stack t st :
  stack <> [] -> parse_step (m, stack) t = Some st ->
  (snd st <> [] /\ ~ is_done (fst st)) \/ (exists v', fst st = MDone v' /\ compound v').
Proof.
  intros Hs H. cbn [parse_step] in H.
  assert (Hopen : forall st, open_value t stack = Some st -> snd st <> [] /\ ~ is_done (fst st)).
  { intros st0 H0. unfold open_value in H0.
    destruct t; cbn in H0;
      try (injection H0 as <-; cbn; split; [discriminate | auto]);
      try discriminate;
      eapply deliver_inside; eauto. }
  assert (Hca : forall st, close_array stack = Some st ->
     (snd st <> [] /\ ~ is_done (fst st)) \/ (exists v', fst st = MDone v' /\ compound v')).
  { intros st0 H0. unfold close_array in H0. destruct stack as [|[es|ps k] rest]; try discriminate.
    eapply deliver_compound; [|exact H0]. exact I. }
  assert (Hco : forall st, close_object stack = Some st ->
     (snd st <> [] /\ ~ is_done (fst st)) \/ (exists v', fst st = MDone v' /\ compound v')).
  { intros st0 H0. unfold close_object in H0. destruct stack as [|[es|ps [k|]] rest]; try discriminate.
    eapply deliver_compound; [|exact H0]. exact I. }
  assert (Hsk : forall k st, set_key k stack = Some st -> snd st <> [] /\ ~ is_done (fst st)).
  { intros k st0 H0. unfold set_key in H0. destruct stack as [|[es|ps [k'|]] rest]; try discriminate.
    injection H0 as <-. cbn. split; [discriminate | auto]. }
  destruct m; try discriminate.
  - left. auto.
  - destruct t; auto.
  - destruct t; try discriminate; auto.
    left. destruct stack as [|[es|ps k] rest]; try congruence;
      injection H as <-; cbn; split; try discriminate; auto.
  - destruct t; try discriminate; eauto.
  - destruct t; try discriminate; eauto.
  - destruct t; try discriminate. injection H as <-. cbn. left. split; auto.
Qed.

Lemma parse_run_inside ts : forall m stack v stk,
  stack <> [] -> ~ is_done m ->
  parse_run (m, stack) ts = Some (MDone v, stk) -> compound v.
Proof.
  induction ts as [|t rest IH]; intros m stack v stk Hs Hm H; cbn [parse_run] in H.
  - injection H as -> ->. cbn in Hm. tauto.
  - destruct (parse_step (m, stack) t) as [[m' stack']|] eqn:E; [|discriminate].
    destruct (parse_step_inside _ _ _ _ Hs E) as [[Hs' Hm']|[v' [Hd Hc]]]; cbn in *.
    + eapply IH; eauto.
    + subst m'. apply parse_run_done in H as [_ [= <- _]]. exact Hc.
Qed.

Lemma parse_run_string ts s stk :
  parse_run (MValue, []) ts = Some (MDone (VStr s), stk) -> ts = [TString s].
Proof.
  destruct ts as [|t rest]; cbn [parse_run]; [discriminate|].
  destruct (parse_step (MValue, []) t) as [[m' stack']|] eqn:E; [|discriminate].
  intros H. cbn in E. unfold open_value in E.
  destruct t; cbn in E; try discriminate; injection E as <- <-;
    try (apply parse_run_done in H as [-> [= ?]]; congruence);
    try (apply parse_run_inside in H; [destruct H | discriminate | auto]).
Qed.

Lemma JSON_parse_string t s :
  JSON_parse t = Some (VStr s) -> tokenize t = Some [TString s].
Proof.
  unfold JSON_parse. destruct (tokenize t) as [ts|]; [|discriminate].
  destruct (parse_run (MValue, []) ts) as [[[] stk]|] eqn:E; try discriminate.
  intros [= ->]. apply parse_run_string in E. congruence.
Qed.

(** A successful parse that yields a string drops at least the two quotes. *)
Lemma JSON_parse_string_shorter t s :
  JSON_parse t = Some (VStr s) -> (length s + 2 <= length t)%nat.
Proof.
  intros H. apply JSON_parse_string in H. unfold tokenize in H.
  apply lex_weight in H. cbn in H. lia.
Qed.

Lemma JSON_parse_nonempty t v : JSON_parse t = Some v -> t <> [].
Proof. intros H ->. vm_compute in H. discriminate. Qed.

Lemma JSON_parse_size t v :
  JSON_parse t = Some v -> (value_size v < length t)%nat.
Proof.
  intros H. destruct v; cbn [value_size];
    try (apply JSON_parse_nonempty in H; destruct t; cbn; [congruence | lia]).
  apply JSON_parse_string_shorter in H. lia.
Qed.

Lemma trimStart_length s : (length (trimStart s) <= length s)%nat.
Proof.
  induction s as [|c r IH]; cbn; [lia|]. destruct (isWhiteSpace c); cbn; lia.
Qed.

Lemma trim_length s : (length (trim s) <= length s)%nat.
Proof.
  unfold trim. rewrite length_rev.
  etransitivity; [apply trimStart_length|]. rewrite length_rev. apply trimStart_length.
Qed.

Lemma trimStart_head s c r : trimStart s = c :: r -> isWhiteSpace c = false.
Proof.
  induction s as [|x s IH]; cbn; [discriminate|].
  destruct (isWhiteSpace x) eqn:E; [exact IH|]. intros [= <- <-]. exact E.
Qed.

Lemma trimStart_keeps_last l h :
  isWhiteSpace h = false -> exists w, trimStart (l ++ [h]) = w ++ [h].
Proof.
  intros Hh. induction l as [|x l [w IH]]; cbn.
  - rewrite Hh. exists []. reflexivity.
  - destruct (isWhiteSpace x); [eauto|]. exists (x :: l). reflexivity.
Qed.

Lemma trim_head s c r : trim s = c :: r -> isWhiteSpace c = false.
Proof.
  unfold trim. destruct (trimStart s) as [|h u] eqn:E.
  - cbn. discriminate.
  - pose proof (trimStart_head _ _ _ E) as Hh.
    cbn [rev]. destruct (trimStart_keeps_last (rev u) h Hh) as [w ->].
    rewrite rev_app_distr. cbn. intros [= <- _]. exact Hh.
Qed.

Lemma trim_last s a c : trim s = a ++ [c] -> isWhiteSpace c = false.
Proof.
  unfold trim. intros H. apply (f_equal (@rev N)) in H.
  rewrite rev_involutive, rev_app_distr in H. cbn in H.
  eapply trimStart_head. exact H.
Qed.







(** ** [isEmptyValue] is total *)

Lemma isEmptyValue_fuel_total n : forall v,
  (value_size v < n)%nat ->
  exists b, forall m, (value_size v < m)%nat -> isEmptyValue_fuel m v = Some b.
Proof.
  induction n as [|n IH]; intros v Hn; [lia|].
  destruct v as [| | b | x | s | l | p];
    try (eexists; intros [|m] Hm; [lia | reflexivity]).
  destruct s as [|c s]; [exists true; intros [|m] Hm; [cbn in Hm; lia | reflexivity]|].
  set (t := trim (c :: s)).
  destruct (str_eqb t (js "{}") || str_eqb t (js "[]")) eqn:Eb.
  { exists true. intros [|m] Hm; [lia|]. cbn [isEmptyValue_fuel]. fold t. rewrite Eb. reflexivity. }
  destruct (JSON_parse t) as [parsed|] eqn:Ep.
  - pose proof (JSON_parse_size _ _ Ep) as Hsz.
    pose proof (trim_length (c :: s)) as Ht. fold t in Ht. cbn [value_size] in Hn.
    destruct (IH parsed ltac:(lia)) as [b Hb]. exists b.
    intros [|m] Hm; [lia|]. cbn [isEmptyValue_fuel]. fold t. rewrite Eb, Ep.
    apply Hb. cbn [value_size] in Hm. lia.
  - exists false. intros [|m] Hm; [lia|]. cbn [isEmptyValue_fuel]. fold t. rewrite Eb, Ep. reflexivity.
Qed.

Lemma isEmptyValue_fuel_enough fuel v :
  (value_size v < fuel)%nat -> isEmptyValue_fuel fuel v = Some (isEmptyValue v).
Proof.
  intros H. destruct (isEmptyValue_fuel_total (S (value_size v)) v ltac:(lia)) as [b Hb].
  unfold isEmptyValue. rewrite (Hb (S (value_size v))) by lia. auto.
Qed.

(** The source's recursive equation for strings. *)
Lemma isEmptyValue_string s :
  isEmptyValue (VStr s) =
    if str_eqb s [] then true
    else let t := trim s in
         if str_eqb t (js "{}") || str_eqb t (js "[]") then true
         else match JSON_parse t with
              | Some parsed => isEmptyValue parsed
              | None => false
              end.
Proof.
  destruct s as [|c s]; [reflexivity|].
  change (str_eqb (c :: s) []) with false. cbv iota zeta.
  unfold isEmptyValue at 1. cbn [value_size isEmptyValue_fuel].
  destruct (str_eqb _ _ || str_eqb _ _); [reflexivity|].
  destruct (JSON_parse (trim (c :: s))) as [parsed|] eqn:Ep; [|reflexivity].
  rewrite isEmptyValue_fuel_enough; [reflexivity|].
  pose proof (JSON_parse_size _ _ Ep). pose proof (trim_length (c :: s)). cbn [length] in *. lia.
Qed.


(** ** The placeholder scan *)

Lemma segments_cons c s' :
  segments (c :: s') =
    match match_placeholder (c :: s') with
    | Some (nm, rest) => Placeholder nm :: segments rest
    | None => Lit c :: segments s'
    end.
Proof.
  assert (H : forall o (E : match_placeholder (c :: s') = o),
             segments_unfold_clause_2 c s' (exist _ o E) =
             match o with
             | Some (nm, rest) => Placeholder nm :: segments rest
             | None => Lit c :: segments s'
             end).
  { intros [[nm rest]|] E; reflexivity. }
  rewrite segments_equation_2. unfold inspect. apply H.
Qed.

Lemma until_close_spec s a b :
  until_close s = (a, b) ->
  s = a ++ b /\ no_char (cu "}") a /\ (b = [] \/ exists r, b = cu "}" :: r).
Proof.
  revert a b. induction s as [|c r IH]; intros a b; cbn.
  - intros [= <- <-]. repeat split; auto; constructor.
  - destruct (c =? cu "}") eqn:E.
    + intros [= <- <-]. apply N.eqb_eq in E. subst c.
      repeat split; [constructor | right; eauto].
    + destruct (until_close r) as [a' b']. cbn. intros [= <- <-].
      destruct (IH a' b' eq_refl) as (-> & Ha & Hb).
      repeat split; auto. constructor; auto. apply N.eqb_neq in E. exact E.
Qed.

Lemma until_close_app a r :
  no_char (cu "}") a -> until_close (a ++ cu "}" :: r) = (a, cu "}" :: r).
Proof.
  induction 1 as [|c a Hc Ha IH]; cbn.
  - rewrite N.eqb_refl. reflexivity.
  - apply N.eqb_neq in Hc. rewrite Hc, IH. reflexivity.
Qed.

Lemma until_close_none s : no_char (cu "}") s -> until_close s = (s, []).
Proof.
  induction 1 as [|c a Hc Ha IH]; cbn; [reflexivity|].
  apply N.eqb_neq in Hc. rewrite Hc, IH. reflexivity.
Qed.

Lemma match_placeholder_other c s : c <> cu "{" -> match_placeholder (c :: s) = None.
Proof. intros H. cbn. apply N.eqb_neq in H. rewrite H. reflexivity. Qed.

Lemma match_placeholder_Some c s nm rest :
  match_placeholder (c :: s) = Some (nm, rest) ->
  c = cu "{" /\ nm <> [] /\ no_char (cu "}") nm /\ s = nm ++ cu "}" :: rest.
Proof.
  cbn. destruct (c =? cu "{") eqn:E; [|discriminate]. apply N.eqb_eq in E.
  destruct (until_close s) as [a b] eqn:U.
  apply until_close_spec in U as (-> & Ha & Hb).
  destruct a as [|n a]; [discriminate|]. destruct b as [|x b]; [discriminate|].
  intros [= <- <-]. destruct Hb as [|[r [= -> ->]]]; [discriminate|].
  repeat split; auto; discriminate.
Qed.

Lemma match_placeholder_text nm rest :
  nm <> [] -> no_char (cu "}") nm ->
  match_placeholder (placeholder_text nm ++ rest) = Some (nm, rest).
Proof.
  intros Hne Hnm. unfold placeholder_text. cbn [app match_placeholder].
  rewrite N.eqb_refl, <- app_assoc. cbn [app].
  rewrite until_close_app by assumption.
  destruct nm; [congruence | reflexivity].
Qed.

Lemma segments_literal w s :
  no_char (cu "{") w -> segments (w ++ s) = map Lit w ++ segments s.
Proof.
  induction 1 as [|c w Hc Hw IH]; [reflexivity|].
  cbn [app map]. rewrite segments_cons, match_placeholder_other by assumption.
  rewrite IH. reflexivity.
Qed.

Lemma segments_no_close s : no_char (cu "}") s -> segments s = map Lit s.
Proof.
  induction 1 as [|c s Hc Hs IH]; [reflexivity|].
  rewrite segments_cons.
  assert (match_placeholder (c :: s) = None) as ->.
  { cbn. destruct (c =? cu "{"); [|reflexivity].
    rewrite until_close_none by assumption. destruct s; reflexivity. }
  rewrite IH. reflexivity.
Qed.

Lemma rendered_cons_Lit f c s :
  match_placeholder (c :: s) = None -> rendered f (c :: s) = c :: rendered f s.
Proof. intros H. unfold rendered. rewrite segments_cons, H. reflexivity. Qed.

Lemma rendered_no_close f s : no_char (cu "}") s -> rendered f s = s.
Proof.
  intros H. unfold rendered. rewrite segments_no_close by assumption.
  clear H. induction s as [|c s IH]; cbn; [reflexivity|]. f_equal. exact IH.
Qed.

(** A brace that opens no placeholder in the template opens none in the
    rendered text either. *)
Lemma match_placeholder_rendered f c s :
  match_placeholder (c :: s) = None ->
  match_placeholder (c :: rendered f s) = None.
Proof.
  intros H. destruct (N.eq_dec c (cu "{")) as [->|Hc];
    [|apply match_placeholder_other; exact Hc].
  cbn in H |- *. rewrite N.eqb_refl in H |- *.
  destruct (until_close s) as [a b] eqn:U.
  apply until_close_spec in U as (-> & Ha & Hb).
  destruct a as [|n a].
  - destruct Hb as [->|[r ->]]; [reflexivity|]. cbn [app].
    rewrite rendered_cons_Lit
      by (apply match_placeholder_other; vm_compute; discriminate).
    cbn. rewrite N.eqb_refl. reflexivity.
  - destruct b as [|x b]; [|discriminate].
    rewrite app_nil_r in *. rewrite rendered_no_close by assumption.
    rewrite until_close_none by assumption. reflexivity.
Qed.

Lemma match_placeholders_literal w s :
  no_char (cu "{") w -> match_placeholders (w ++ s) = match_placeholders s.
Proof.
  intros H. unfold match_placeholders. rewrite segments_literal by assumption.
  rewrite omap_app. clear H.
  induction w as [|c w IH]; [reflexivity | exact IH].
Qed.

Lemma match_placeholders_text nm s :
  nm <> [] -> no_char (cu "}") nm ->
  match_placeholders (placeholder_text nm ++ s)
  = placeholder_text nm :: match_placeholders s.
Proof.
  intros Hne Hnm. pose proof (match_placeholder_text nm s Hne Hnm) as Ht.
  unfold match_placeholders.
  change (placeholder_text nm ++ s) with (cu "{" :: (nm ++ [cu "}"]) ++ s) in Ht |- *.
  rewrite segments_cons, Ht. reflexivity.
Qed.

Lemma match_placeholders_cons_Lit c s :
  match_placeholder (c :: s) = None ->
  match_placeholders (c :: s) = match_placeholders s.
Proof. intros H. unfold match_placeholders. rewrite segments_cons, H. reflexivity. Qed.

Lemma match_placeholders_rendered f :
  (forall nm e, f nm = Some e -> no_char (cu "{") e) ->
  forall s, match_placeholders (rendered f s) = omap (left_in_place f) (segments s).
Proof.
  intros Hf s. remember (length s) as n eqn:Hn.
  revert s Hn. induction n as [n IH] using lt_wf_ind. intros s Hn.
  assert (Hom : forall seg l,
             omap (left_in_place f) (seg :: l) =
             match left_in_place f seg with
             | Some y => y :: omap (left_in_place f) l
             | None => omap (left_in_place f) l
             end) by reflexivity.
  destruct s as [|c s]; [reflexivity|].
  destruct (match_placeholder (c :: s)) as [[nm rest]|] eqn:E.
  - pose proof E as E'.
    apply match_placeholder_Some in E' as (-> & Hne & Hnm & ->).
    assert (Hrest : match_placeholders (rendered f rest)
                    = omap (left_in_place f) (segments rest)).
    { apply (IH (length rest)); [|reflexivity].
      subst n. cbn. rewrite length_app. cbn. lia. }
    unfold rendered at 1. rewrite !segments_cons, E, Hom.
    cbn [map concat render left_in_place]. fold (rendered f rest).
    destruct (f nm) as [e|] eqn:Ef; cbn [default].
    + rewrite match_placeholders_literal by eauto. exact Hrest.
    + rewrite match_placeholders_text by assumption. f_equal. exact Hrest.
  - rewrite rendered_cons_Lit by assumption.
    rewrite match_placeholders_cons_Lit by (apply match_placeholder_rendered; exact E).
    rewrite segments_cons, E, Hom. cbn [left_in_place].
    apply (IH (length s)); [subst n; cbn; lia | reflexivity].
Qed.

(** ** [encodeURIComponent] writes no brace *)

Lemma hex_digit_bound n : n < 16 -> hex_digit n <= 70.
Proof. unfold hex_digit. destruct (n <? 10) eqn:E; [apply N.ltb_lt in E|]; lia. Qed.

Lemma percent_brace_free b : brace_free (percent b).
Proof.
  assert (H : forall c, c <= 70 -> c <> cu "{" /\ c <> cu "}").
  { intros c Hc. change (cu "{") with 123. change (cu "}") with 125. lia. }
  unfold percent. repeat constructor; try (vm_compute; discriminate);
    apply H, hex_digit_bound, N.mod_lt; discriminate.
Qed.

Lemma percent_utf8_brace_free cp : brace_free (percent_utf8 cp).
Proof.
  unfold percent_utf8. apply Forall_concat, Forall_map, Forall_forall.
  intros b _. apply percent_brace_free.
Qed.

Lemma uriUnreserved_no_brace c :
  uriUnreserved c = true -> c <> cu "{" /\ c <> cu "}".
Proof. intros H. split; intros ->; vm_compute in H; discriminate. Qed.

Lemma encodeURIComponent_brace_free s : forall e,
  encodeURIComponent s = Some e -> brace_free e.
Proof.
  remember (length s) as n eqn:Hn. revert s Hn.
  induction n as [n IH] using lt_wf_ind. intros s Hn e.
  destruct s as [|c rest]; cbn [encodeURIComponent].
  - intros [= <-]. constructor.
  - destruct (uriUnreserved c) eqn:Eu.
    + destruct (encodeURIComponent rest) as [e'|] eqn:Er; [|discriminate].
      intros [= <-]. constructor; [apply uriUnreserved_no_brace; exact Eu|].
      apply (IH (length rest)) with (s := rest); [subst n; cbn; lia | reflexivity | exact Er].
    + destruct (is_high_surrogate c).
      * destruct rest as [|d rest']; [discriminate|].
        destruct (is_low_surrogate d); [|discriminate].
        destruct (encodeURIComponent rest') as [e'|] eqn:Er; [|discriminate].
        intros [= <-]. apply Forall_app. split; [apply percent_utf8_brace_free|].
        apply (IH (length rest')) with (s := rest'); [subst n; cbn; lia | reflexivity | exact Er].
      * destruct (is_low_surrogate c); [discriminate|].
        destruct (encodeURIComponent rest) as [e'|] eqn:Er; [|discriminate].
        intros [= <-]. apply Forall_app. split; [apply percent_utf8_brace_free|].
        apply (IH (length rest)) with (s := rest); [subst n; cbn; lia | reflexivity | exact Er].
Qed.

(** ** The operation index *)

Section Index.
Context (properties : list INodeProperties).

Lemma index_operations_elem prop ops : forall m operation p,
  p ∈ default [] (index_operations prop m ops !! operation) <->
  p ∈ default [] (m !! operation) \/ (p = prop /\ operation ∈ ops).
Proof.
  induction ops as [|a ops IH]; intros m operation p.
  - cbn. split; [auto | intros [H|[_ H]]; [exact H | inversion H]].
  - change (index_operations prop m (a :: ops))
      with (index_operations prop (<[a := default [] (m !! a) ++ [prop]]> m) ops).
    rewrite IH. rewrite elem_of_cons.
    destruct (decide (a = operation)) as [->|Hne].
    + rewrite lookup_insert_eq. cbn. rewrite elem_of_app, list_elem_of_singleton.
      tauto.
    + rewrite lookup_insert_ne by exact Hne.
      split; intros [H|[H1 H2]]; auto.
      destruct H2 as [H2|H2]; [congruence | auto].
Qed.

Lemma index_property_elem m prop operation p :
  p ∈ default [] (index_property m prop !! operation) <->
  p ∈ default [] (m !! operation) \/ (p = prop /\ indexed operation prop).
Proof.
  unfold index_property, indexed.
  destruct (routable (send_type prop)); cbn.
  - destruct (show_operation prop) as [ops|].
    + rewrite index_operations_elem. split; intros [H|[-> H]]; auto.
      * right. eauto.
      * right. destruct H as (_ & ops' & [= <-] & H). auto.
    + split; [auto | intros [H|[_ (_ & ops & H & _)]]; [exact H | discriminate]].
  - split; [auto | intros [H|[_ [H _]]]; [exact H | discriminate]].
Qed.

Lemma fold_index_property_elem props : forall m operation p,
  p ∈ default [] (fold_left index_property props m !! operation) <->
  p ∈ default [] (m !! operation) \/ (p ∈ props /\ indexed operation p).
Proof.
  induction props as [|prop props IH]; intros m operation p; cbn [fold_left].
  - split; [auto | intros [H|[H _]]; [exact H | inversion H]].
  - rewrite IH, index_property_elem, elem_of_cons.
    split; [intros [[H|[-> H]]|[H1 H2]] | intros [H|[[->|H1] H2]]]; auto.
Qed.

(** The descriptors the index gives for an operation are those with a
    routable destination whose operation list names it. *)
Lemma operationProps_elem operation p :
  p ∈ operationProps properties operation <->
  p ∈ properties /\ indexed operation p.
Proof.
  unfold operationProps, operationPropertiesMap.
  rewrite fold_index_property_elem, lookup_empty. cbn.
  split; [intros [H|H]; [inversion H | exact H] | auto].
Qed.

Lemma Legacy_operationProps_elem operation p :
  p ∈ Legacy.operationProps properties operation <->
  p ∈ properties /\ routable (send_type p) = true /\
  match show_operation p with
  | Some ops => operation ∈ ops
  | None => True
  end.
Proof.
  unfold Legacy.operationProps. rewrite list_elem_of_filter.
  unfold Legacy.applies, routable.
  assert (Hinc : forall l, includes l operation = true <-> operation ∈ l).
  { intros l. unfold includes. rewrite existsb_exists. split.
    - intros (x & Hx & Heq). unfold str_eqb in Heq.
      apply bool_decide_eq_true in Heq. subst x. apply list_elem_of_In. exact Hx.
    - intros H. exists operation. split; [apply list_elem_of_In; exact H|].
      unfold str_eqb. apply bool_decide_eq_true. reflexivity. }
  destruct (send_type p) as [t|]; [|intuition discriminate].
  destruct (negb (str_eqb t []) && includes [js "body"; js "query"; js "header"] t);
    cbn; [|intuition discriminate].
  destruct (show_operation p) as [ops|]; [rewrite <- Hinc|]; tauto.
Qed.

End Index.

(** ** The form-encoded body *)

Lemma hex_digit_range n :
  n < 16 -> (48 <= hex_digit n <= 57) \/ (65 <= hex_digit n <= 70).
Proof. unfold hex_digit. destruct (n <? 10) eqn:E; [apply N.ltb_lt in E | apply N.ltb_ge in E]; lia. Qed.

Lemma percent_form_safe b : form_safe (percent b).
Proof.
  assert (H : forall n, n < 16 -> hex_digit n <> cu "&" /\ hex_digit n <> cu "=").
  { intros n Hn. change (cu "&") with 38. change (cu "=") with 61.
    destruct (hex_digit_range n Hn); lia. }
  unfold percent. repeat constructor; try (vm_compute; discriminate);
    apply H, N.mod_lt; discriminate.
Qed.

Lemma percent_utf8_form_safe cp : form_safe (percent_utf8 cp).
Proof.
  unfold percent_utf8. apply Forall_concat, Forall_map, Forall_forall.
  intros b _. apply percent_form_safe.
Qed.

Lemma formUnreserved_safe c :
  formUnreserved c = true -> c <> cu "&" /\ c <> cu "=".
Proof. intros H. split; intros ->; vm_compute in H; discriminate. Qed.

Lemma form_encode_safe s : form_safe (form_encode s).
Proof.
  remember (length s) as n eqn:Hn. revert s Hn.
  induction n as [n IH] using lt_wf_ind. intros s Hn.
  assert (Hrec : forall r, (length r < length s)%nat -> form_safe (form_encode r)).
  { intros r Hr. apply (IH (length r)); [subst n; exact Hr | reflexivity]. }
  destruct s as [|c rest]; cbn [form_encode]; [constructor|].
  assert (Hrest : form_safe (form_encode rest)) by (apply Hrec; cbn; lia).
  destruct (formUnreserved c) eqn:Eu.
  { constructor; [apply formUnreserved_safe; exact Eu | exact Hrest]. }
  destruct (c =? 32).
  { constructor; [split; vm_compute; discriminate | exact Hrest]. }
  destruct (is_high_surrogate c).
  - destruct rest as [|d rest']; [apply percent_utf8_form_safe|].
    destruct (is_low_surrogate d); apply Forall_app; split;
      try apply percent_utf8_form_safe; try exact Hrest.
    apply Hrec. cbn. lia.
  - destruct (is_low_surrogate c); apply Forall_app; split;
      try apply percent_utf8_form_safe; exact Hrest.
Qed.

Lemma split_no_sep sep s : no_char sep s -> split sep s = [s].
Proof.
  induction 1 as [|c s Hc Hs IH]; cbn; [reflexivity|].
  apply N.eqb_neq in Hc. rewrite Hc, IH. reflexivity.
Qed.

Lemma split_app sep p s :
  no_char sep p -> split sep (p ++ sep :: s) = p :: split sep s.
Proof.
  induction 1 as [|c p Hc Hp IH]; cbn.
  - rewrite N.eqb_refl. reflexivity.
  - apply N.eqb_neq in Hc. rewrite Hc, IH. reflexivity.
Qed.

Lemma split_join sep pieces :
  pieces <> [] -> Forall (no_char sep) pieces ->
  split sep (join [sep] pieces) = pieces.
Proof.
  intros Hne H. induction H as [|p rest Hp Hrest IH]; [congruence|].
  destruct rest as [|q rest].
  - cbn. apply split_no_sep. exact Hp.
  - change (join [sep] (p :: q :: rest)) with (p ++ sep :: join [sep] (q :: rest)).
    rewrite split_app by exact Hp. rewrite IH by discriminate. reflexivity.
Qed.

Lemma until_char_app x a b : no_char x a -> until_char x (a ++ x :: b) = a.
Proof.
  induction 1 as [|c a Hc Ha IH]; cbn.
  - rewrite N.eqb_refl. reflexivity.
  - apply N.eqb_neq in Hc. rewrite Hc, IH. reflexivity.
Qed.

Lemma form_safe_no_amp s : form_safe s -> no_char (cu "&") s.
Proof. intros H. eapply Forall_impl; [exact H | cbn; tauto]. Qed.

Lemma form_safe_no_eq s : form_safe s -> no_char (cu "=") s.
Proof. intros H. eapply Forall_impl; [exact H | cbn; tauto]. Qed.

(** Reading the names back from the serialised body gives the encoded
    names of the entries, in order: no value can smuggle a name in. *)
Lemma form_names_toString entries :
  form_names (URLSearchParams_toString entries)
  = map (fun kv => form_encode (fst kv)) entries.
Proof.
  unfold form_names, URLSearchParams_toString.
  destruct entries as [|kv0 entries0]; [reflexivity|].
  set (entries := kv0 :: entries0).
  set (pieces := map (fun '(k, v) => form_encode k ++ cu "=" :: form_encode v) entries).
  change (js "&") with [cu "&"].
  rewrite split_join.
  - subst pieces. clearbody entries. clear.
    induction entries as [|[k v] entries IH]; [reflexivity|].
    cbn [map]. rewrite filter_cons_True by (destruct (form_encode k); discriminate).
    cbn [map fst]. rewrite until_char_app by (apply form_safe_no_eq, form_encode_safe).
    f_equal. exact IH.
  - subst pieces entries. destruct kv0. discriminate.
  - subst pieces. apply Forall_map, Forall_forall. intros [k v] _.
    apply Forall_app. split; [apply form_safe_no_amp, form_encode_safe|].
    constructor; [vm_compute; discriminate | apply form_safe_no_amp, form_encode_safe].
Qed.

(* ===================================================================== *)
(** * The claims *)
(* ===================================================================== *)

(** ** Value normaliser *)

Lemma isEmptyValue_not_string val :
  (forall s, val <> VStr s) -> isEmptyValue_fuel 1 val = Some (isEmptyValue val).
Proof.
  intros H. destruct val; try reflexivity. destruct (H s eq_refl).
Qed.

(** C10.  [isEmptyValue] terminates on every value.  It calls itself only
    on what [JSON.parse] returns for the trimmed string; trimming never
    lengthens, and a parse that yields a string yields one at least two
    characters (the quotes) shorter, so a fuel above the length of the
    argument is always enough and the result does not depend on it; a
    value that is not a string needs no recursive call at all. *)
Theorem isEmptyValue_terminates :
  (forall t s, JSON_parse t = Some (VStr s) -> (length s + 2 <= length t)%nat)
  /\ (forall s, (length (trim s) <= length s)%nat)
  /\ (forall val fuel, (value_size val < fuel)%nat ->
        isEmptyValue_fuel fuel val = Some (isEmptyValue val))
  /\ (forall val, (forall s, val <> VStr s) ->
        isEmptyValue_fuel 1 val = Some (isEmptyValue val)).
Proof.
  split; [exact JSON_parse_string_shorter|].
  split; [exact trim_length|].
  split; [intros val fuel; apply isEmptyValue_fuel_enough|].
  exact isEmptyValue_not_string.
Qed.

(** A string quoted twice is unwrapped level by level. *)
Example isEmptyValue_nested_quotes :
  isEmptyValue (VStr ([34; 92; 34] ++ js "[ ]" ++ [92; 34; 34])) = true.
Proof. vm_compute. reflexivity. Qed.


Example isEmptyValue_padded_placeholder :
  isEmptyValue (VStr (js "[" ++ [10; 32; 32] ++ js "{}" ++ [10] ++ js "]")) = true.
Proof. vm_compute. reflexivity. Qed.

Example isEmptyValue_blank_string : isEmptyValue (VStr (js "   ")) = false.
Proof. vm_compute. reflexivity. Qed.

Example isEmptyValue_plain_text : isEmptyValue (VStr (js "Printer broken")) = false.
Proof. vm_compute. reflexivity. Qed.

Example isEmptyValue_array_of_empty_arrays : isEmptyValue (VArr [VArr []; VObj []]) = true.
Proof. vm_compute. reflexivity. Qed.

Lemma isEmptyValue_number n : isEmptyValue (VNum n) = false.
Proof. reflexivity. Qed.

(** The draft of lines 316-331 does drop zero. *)
Example Legacy_isEmptyValue_zero :
  Legacy.isEmptyValue_fuel 1 (VNum (num_of_Z 0)) = Some true.
Proof. reflexivity. Qed.

(** ** What a successful [buildRequest] went through *)

(** *** Assignment *)

Lemma assign_plain o k v :
  k <> js "__proto__" ->
  assign o k v = {| own := <[k := v]> (own o); proto := proto o |}.
Proof.
  intros Hk. unfold assign, reaches_proto_setter, str_eqb.
  rewrite bool_decide_eq_false_2 by exact Hk. cbn.
  destruct (own o !! k); reflexivity.
Qed.

Lemma assign_lookup o k v :
  k <> js "__proto__" -> own (assign o k v) !! k = Some v.
Proof. intros Hk. rewrite assign_plain by exact Hk. apply lookup_insert_eq. Qed.

Lemma assign_lookup_ne o k v k' :
  k <> k' -> own (assign o k v) !! k' = own o !! k'.
Proof.
  intros Hk. unfold assign.
  destruct (own o !! k) eqn:E; cbn.
  - apply lookup_insert_ne, Hk.
  - destruct (reaches_proto_setter o k); [destruct v; reflexivity|].
    cbn. apply lookup_insert_ne, Hk.
Qed.

(** An assignment defines or overwrites the property it names, or leaves
    the own properties as they are. *)
Lemma assign_own o k v :
  own (assign o k v) = <[k := v]> (own o) \/ own (assign o k v) = own o.
Proof.
  unfold assign. destruct (own o !! k); [left; reflexivity|].
  destruct (reaches_proto_setter o k); [right; destruct v; reflexivity|left; reflexivity].
Qed.

Lemma assign_header_plain h k s :
  k <> js "__proto__" -> assign_header h k s = <[k := s]> h.
Proof.
  intros Hk. unfold assign_header, str_eqb.
  rewrite bool_decide_eq_false_2 by exact Hk. reflexivity.
Qed.

Lemma assign_header_lookup_ne h k s k' :
  k <> k' -> assign_header h k s !! k' = h !! k'.
Proof.
  intros Hk. unfold assign_header. destruct (str_eqb k (js "__proto__")); [reflexivity|].
  apply lookup_insert_ne, Hk.
Qed.

Lemma assign_source o k' w k v :
  own (assign o k' w) !! k = Some v ->
  own o !! k = Some v \/ (k' = k /\ w = v).
Proof.
  destruct (assign_own o k' w) as [-> | ->]; [|auto].
  destruct (decide (k' = k)) as [->|Hne].
  - rewrite lookup_insert_eq. intros [= ->]. auto.
  - rewrite lookup_insert_ne by exact Hne. auto.
Qed.

Lemma assign_header_source h k' t k s :
  assign_header h k' t !! k = Some s ->
  h !! k = Some s \/ (k' = k /\ t = s).
Proof.
  unfold assign_header. destruct (str_eqb k' (js "__proto__")); [auto|].
  destruct (decide (k' = k)) as [->|Hne].
  - rewrite lookup_insert_eq. intros [= ->]. auto.
  - rewrite lookup_insert_ne by exact Hne. auto.
Qed.

Lemma collectProperties_cons NumberToString `{this : IExecuteFunctions} i prop rest acc :
  collectProperties NumberToString i (prop :: rest) acc
  = match collectProperty NumberToString i acc prop with
    | inr acc' => collectProperties NumberToString i rest acc'
    | inl e => inl e
    end.
Proof. reflexivity. Qed.

Lemma collectProperties_app NumberToString `{this : IExecuteFunctions} i before after acc :
  collectProperties NumberToString i (before ++ after) acc
  = match collectProperties NumberToString i before acc with
    | inr acc1 => collectProperties NumberToString i after acc1
    | inl e => inl e
    end.
Proof.
  revert acc. induction before as [|p before IH]; intros acc; [reflexivity|].
  cbn [app]. rewrite !collectProperties_cons.
  destruct (collectProperty NumberToString i acc p); [reflexivity|].
  apply IH.
Qed.

Section Requests.
Context (NumberToString : number -> jsstring).
Context (maxArguments : nat).
Context (properties : list INodeProperties).
Context `{this : IExecuteFunctions}.

Local Abbreviation ToString := (ToString NumberToString).
Local Abbreviation collectProperty := (collectProperty NumberToString).
Local Abbreviation collectProperties := (collectProperties NumberToString).
Local Abbreviation buildRequest := (buildRequest NumberToString properties).
Local Abbreviation resolvePath := (resolvePath NumberToString).
Local Abbreviation placed := (placed NumberToString).

Lemma buildRequest_inr credentials accessToken i req :
  buildRequest credentials accessToken i = inr req ->
  exists operation path token collected,
    getNodeParameter (js "operation") i = inr (VStr operation)
    /\ includes validMethods (operationMethod operation) = true
    /\ resolvePath i (operationPath operation) = inr path
    /\ ToString accessToken = Some token
    /\ collectProperties i (operationProps properties operation)
         (initialCollected token) = inr collected
    /\ method req = operationMethod operation
    /\ url req = stripTrailingSlashes (glpiUrl credentials) ++ js "/api.php" ++ path
    /\ body req = (if includes payloadMethods (operationMethod operation)
                      && (0 <? size (own (bodyData collected)))%nat
                   then Some (BodyData (bodyData collected)) else None)
    /\ qs req = (if (0 <? size (own (queryParams collected)))%nat
                 then Some (queryParams collected) else None)
    /\ headers req = (if includes payloadMethods (operationMethod operation)
                      then <[js "Content-Type" := js "application/json"]>
                             (requestHeaders collected)
                      else requestHeaders collected).
Proof.
  unfold buildRequest.
  destruct (getNodeParameter (js "operation") i) as [e|parameter]; [discriminate|].
  destruct parameter as [| | b | n | operation | l | o]; cbn [split_receiver]; try discriminate.
  fold (operationMethod operation). fold (operationPath operation).
  destruct (includes validMethods (operationMethod operation)) eqn:Em; cbn [negb];
    [|discriminate].
  destruct (resolvePath i (operationPath operation)) as [e|path] eqn:Ep; [discriminate|].
  destruct (ToString accessToken) as [token|] eqn:Et; [|discriminate].
  fold (initialCollected token).
  destruct (collectProperties i (operationProps properties operation)
              (initialCollected token)) as [e|collected] eqn:Ec; [discriminate|].
  intros [= <-]. exists operation, path, token, collected. cbn. repeat split; auto.
Qed.

Lemma collectProperty_places i acc prop v :
  getNodeParameter (name prop) i = inr v -> isEmptyValue v = false ->
  targetKey prop <> js "__proto__" ->
  (destinationOf prop = ToHeader -> ToString v <> None) ->
  exists acc', collectProperty i acc prop = inr acc'
               /\ placed (destinationOf prop) acc' (targetKey prop) v.
Proof.
  intros Hv He Hk Hs. unfold collectProperty. unfold destinationOf in *. rewrite Hv, He.
  repeat case_bool_decide.
  - eexists. split; [reflexivity|]. cbn. apply assign_lookup, Hk.
  - eexists. split; [reflexivity|]. cbn. apply assign_lookup, Hk.
  - destruct (ToString v) as [text|] eqn:Et; [|destruct (Hs eq_refl eq_refl)].
    eexists. split; [reflexivity|]. cbn. exists text. split; [exact Et|].
    rewrite assign_header_plain by exact Hk. apply lookup_insert_eq.
Qed.

Lemma assign_keeps o k v k' w :
  own o !! k = Some v -> (k' = k -> w = v) -> own (assign o k' w) !! k = Some v.
Proof.
  intros Hp Hsame. destruct (decide (k' = k)) as [->|Hk].
  - rewrite (Hsame eq_refl). unfold assign. rewrite Hp. cbn. apply lookup_insert_eq.
  - rewrite assign_lookup_ne by exact Hk. exact Hp.
Qed.

Lemma assign_header_keeps h k s k' t :
  h !! k = Some s -> (k' = k -> t = s) -> assign_header h k' t !! k = Some s.
Proof.
  intros Hp Hsame. unfold assign_header. destruct (str_eqb k' (js "__proto__")); [exact Hp|].
  destruct (decide (k' = k)) as [->|Hk].
  - rewrite (Hsame eq_refl). apply lookup_insert_eq.
  - rewrite lookup_insert_ne by exact Hk. exact Hp.
Qed.









Lemma itemLoop_nil credentials accessToken returnData tr :
  itemLoop NumberToString maxArguments properties credentials accessToken [] returnData tr
  = (inr returnData, tr).
Proof. reflexivity. Qed.

Lemma itemLoop_cons credentials accessToken i rest returnData tr :
  itemLoop NumberToString maxArguments properties credentials accessToken (i :: rest) returnData tr
  = match processItem NumberToString maxArguments properties credentials accessToken i tr with
    | (inr records, tr') =>
        itemLoop NumberToString maxArguments properties credentials accessToken rest
          (returnData ++ records) tr'
    | (inl e, tr') =>
        if continueOnFail then
          match errorRecord NumberToString e with
          | inr record =>
              itemLoop NumberToString maxArguments properties credentials accessToken rest
                (returnData ++ [record]) tr'
          | inl thrown => (inl thrown, tr')
          end
        else (inl e, tr')
    end.
Proof. reflexivity. Qed.

Lemma runItems_cons credentials accessToken i rest tr :
  runItems NumberToString maxArguments properties credentials accessToken (i :: rest) tr
  = (fst (processItem NumberToString maxArguments properties credentials accessToken i tr)
     :: fst (runItems NumberToString maxArguments properties credentials accessToken rest
               (snd (processItem NumberToString maxArguments properties credentials accessToken i tr))),
     snd (runItems NumberToString maxArguments properties credentials accessToken rest
            (snd (processItem NumberToString maxArguments properties credentials accessToken i tr)))).
Proof.
  cbn [runItems].
  destruct (processItem NumberToString maxArguments properties credentials accessToken i tr) as [o tr1].
  cbn [fst snd].
  destruct (runItems NumberToString maxArguments properties credentials accessToken rest tr1).
  reflexivity.
Qed.

End Requests.

Section Claims.
Context (NumberToString : number -> jsstring).
Context (maxArguments : nat).
Context (properties : list INodeProperties).
Context `{this : IExecuteFunctions}.

Local Abbreviation buildRequest := (buildRequest NumberToString properties).
Local Abbreviation processItem := (processItem NumberToString maxArguments properties).
Local Abbreviation itemLoop := (itemLoop NumberToString maxArguments properties).
Local Abbreviation execute := (execute NumberToString maxArguments properties).
Local Abbreviation resolvePath := (resolvePath NumberToString).
Local Abbreviation resolvePlaceholder := (resolvePlaceholder NumberToString).
Local Abbreviation encodes := (encodes NumberToString).
Local Abbreviation placed := (placed NumberToString).
Local Abbreviation error_message := (error_message NumberToString).
Local Abbreviation missingParameters := (missingParameters NumberToString).
Local Abbreviation errorRecord := (errorRecord NumberToString).
Local Abbreviation capturedRecords := (capturedRecords NumberToString).
Local Abbreviation runItems := (runItems NumberToString maxArguments properties).


(** ** Path resolver *)

Lemma replace_placeholders_rendered i s :
  replace_placeholders (resolvePlaceholder i) s = rendered (encodes i) s.
Proof.
  unfold replace_placeholders, rendered. f_equal. apply map_ext.
  intros [c|nm]; [reflexivity|]. cbn. unfold resolvePlaceholder, encodes.
  destruct (getNodeParameter nm i) as [e|v]; [reflexivity|].
  destruct (ToString NumberToString v) as [text|]; [|reflexivity].
  destruct (encodeURIComponent text); reflexivity.
Qed.

Lemma left_in_place_filter f s :
  omap (left_in_place f) (segments s)
  = map placeholder_text (filter (fun nm => f nm = None) (placeholders s)).
Proof.
  unfold placeholders. induction (segments s) as [|[c|nm] l IH]; [reflexivity|exact IH|].
  cbn [omap list_omap left_in_place]. 
  change (omap (left_in_place f) (Placeholder nm :: l))
    with (match left_in_place f (Placeholder nm) with
          | Some y => y :: omap (left_in_place f) l
          | None => omap (left_in_place f) l
          end).
  change (omap (fun seg => match seg with Lit _ => None | Placeholder nm0 => Some nm0 end)
            (Placeholder nm :: l))
    with (nm :: omap (fun seg => match seg with Lit _ => None | Placeholder nm0 => Some nm0 end) l).
  cbn [left_in_place]. destruct (f nm) as [e|] eqn:E.
  - rewrite filter_cons_False by congruence. exact IH.
  - rewrite filter_cons_True by exact E. cbn [map]. f_equal. exact IH.
Qed.

Lemma encodes_no_open i nm e : encodes i nm = Some e -> no_char (cu "{") e.
Proof.
  unfold encodes. destruct (getNodeParameter nm i) as [err|v]; [discriminate|].
  destruct (ToString NumberToString v) as [text|]; [|discriminate].
  intros H. apply encodeURIComponent_brace_free in H.
  eapply Forall_impl; [exact H | cbn; tauto].
Qed.

Lemma resolvePath_unresolved i pathPart :
  match_placeholders (replace_placeholders (resolvePlaceholder i) (pathTemplate pathPart))
  = map placeholder_text (missingParameters i pathPart).
Proof.
  rewrite replace_placeholders_rendered.
  rewrite match_placeholders_rendered by (intros nm e; apply encodes_no_open).
  apply left_in_place_filter.
Qed.

Lemma processItem_build_error credentials accessToken i e tr :
  buildRequest credentials accessToken i = inl e ->
  processItem credentials accessToken i tr = (inl e, tr).
Proof. intros H. unfold processItem, bind, lift. rewrite H. reflexivity. Qed.

Lemma processItem_build_ok credentials accessToken i req tr :
  buildRequest credentials accessToken i = inr req ->
  processItem credentials accessToken i tr =
    (match httpRequest tr req with
     | inr response => responseItems maxArguments response
     | inl e => inl e
     end, tr ++ [req]).
Proof.
  intros H. unfold processItem, bind, lift, await_httpRequest, ret. rewrite H.
  destruct (httpRequest tr req); reflexivity.
Qed.

Lemma buildRequest_path_error credentials accessToken i operation e :
  getNodeParameter (js "operation") i = inr (VStr operation) ->
  includes validMethods (operationMethod operation) = true ->
  resolvePath i (operationPath operation) = inl e ->
  buildRequest credentials accessToken i = inl e.
Proof.
  intros Hop Hm Hp. unfold buildRequest. rewrite Hop. cbn [split_receiver].
  fold (operationMethod operation). fold (operationPath operation).
  rewrite Hm. cbn [negb]. rewrite Hp. reflexivity.
Qed.

Lemma resolvePath_cases i pathPart :
  resolvePath i pathPart =
    match missingParameters i pathPart with
    | [] => inr (replace_placeholders (resolvePlaceholder i) (pathTemplate pathPart))
    | missing =>
        inl (NodeOperationError
               (js "Missing required path parameter(s): "
                ++ join (js ", ") (map placeholder_text missing)))
    end.
Proof.
  unfold resolvePath. cbv zeta. rewrite resolvePath_unresolved.
  destruct (missingParameters i pathPart); reflexivity.
Qed.

(** C3 (as amended).  When every placeholder of the path template has a
    value that has a string form which [encodeURIComponent] accepts, the
    resolved path has no placeholder left.  Otherwise the item fails with
    the error naming, in order, every placeholder whose lookup failed or
    whose value could not be converted and encoded, and no request is
    issued for the item. *)
Theorem resolvePath_missing_parameters credentials accessToken i operation tr :
  getNodeParameter (js "operation") i = inr (VStr operation) ->
  includes validMethods (operationMethod operation) = true ->
  let template := pathTemplate (operationPath operation) in
  let missing := missingParameters i (operationPath operation) in
  (forall nm, nm ∈ missing <->
              nm ∈ placeholders template /\
              forall v text, getNodeParameter nm i = inr v ->
                             ToString NumberToString v = Some text ->
                             encodeURIComponent text = None)
  /\ ((forall nm, nm ∈ placeholders template ->
         exists v text encoded,
           getNodeParameter nm i = inr v
           /\ ToString NumberToString v = Some text
           /\ encodeURIComponent text = Some encoded) ->
      exists path, resolvePath i (operationPath operation) = inr path
                   /\ match_placeholders path = [])
  /\ match missing with
     | [] =>
         exists path, resolvePath i (operationPath operation) = inr path
                      /\ match_placeholders path = []
     | _ :: _ =>
         let err := NodeOperationError
                      (js "Missing required path parameter(s): "
                       ++ join (js ", ") (map placeholder_text missing)) in
         resolvePath i (operationPath operation) = inl err
         /\ processItem credentials accessToken i tr = (inl err, tr)
     end.
Proof.
  intros Hop Hm template missing.
  assert (Hmissing : forall nm, nm ∈ missing <->
              nm ∈ placeholders template /\
              forall v text, getNodeParameter nm i = inr v ->
                             ToString NumberToString v = Some text ->
                             encodeURIComponent text = None).
  { intros nm. unfold missing, missingParameters. rewrite list_elem_of_filter.
    fold template. unfold encodes.
    destruct (getNodeParameter nm i) as [e|v].
    + split; [intros [_ H]; split; [exact H | discriminate] | intros [H _]; auto].
    + destruct (ToString NumberToString v) as [text|] eqn:Et.
      * split.
        -- intros [H1 H2]. split; [exact H2|]. intros v' text' [= <-] Ht'.
           rewrite Et in Ht'. injection Ht' as <-. exact H1.
        -- intros [H1 H2]. split; [eapply H2; [reflexivity | exact Et] | exact H1].
      * split.
        -- intros [_ H2]. split; [exact H2|]. intros v' text' [= <-] Ht'.
           rewrite Et in Ht'. discriminate.
        -- intros [H1 _]. split; [reflexivity | exact H1]. }
  pose proof (resolvePath_cases i (operationPath operation)) as Hcases.
  pose proof (resolvePath_unresolved i (operationPath operation)) as Hunres.
  fold missing in Hcases, Hunres.
  split; [exact Hmissing|]. split.
  - intros Hall. destruct missing as [|nm rest].
    + eexists. split; [exact Hcases | exact Hunres].
    + exfalso. destruct (proj1 (Hmissing nm) ltac:(left)) as [Hin Hnone].
      destruct (Hall nm Hin) as (v & text & encoded & Hv & Ht & He).
      rewrite (Hnone v text Hv Ht) in He. discriminate.
  - pose proof (resolvePath_cases i (operationPath operation)) as Hc.
    pose proof (resolvePath_unresolved i (operationPath operation)) as Hu.
    fold missing in Hc, Hu. destruct missing as [|nm rest].
    + eexists. split; [exact Hc | exact Hu].
    + cbv zeta. split; [exact Hc|].
      apply processItem_build_error.
      eapply buildRequest_path_error; [exact Hop | exact Hm | exact Hc].
Qed.

(** ** Request dispatcher *)

Lemma split_not_nil sep s : split sep s <> [].
Proof.
  destruct s as [|c r]; cbn; [discriminate|].
  destruct (c =? sep); [discriminate|]. destruct (split sep r); discriminate.
Qed.

Lemma operationMethod_first_space operation :
  operationMethod operation = until_char 32 operation.
Proof.
  unfold operationMethod. induction operation as [|c r IH]; cbn; [reflexivity|].
  destruct (c =? 32); [reflexivity|].
  destruct (split 32 r) as [|h t] eqn:E; [destruct (split_not_nil _ _ E)|].
  cbn in IH |- *. rewrite IH. reflexivity.
Qed.

(** C4.  The method is the text before the first space of the operation
    identifier.  When it is not one of GET, POST, PUT, PATCH and DELETE the
    item fails with the operation error and the requests issued so far are
    unchanged; a request that is built carries an allowed method. *)
Theorem invalid_method_rejected credentials accessToken i operation tr :
  getNodeParameter (js "operation") i = inr (VStr operation) ->
  operationMethod operation = until_char 32 operation
  /\ (includes validMethods (until_char 32 operation) = false ->
      processItem credentials accessToken i tr =
        (inl (NodeOperationError
                (js "Invalid HTTP method parsed from operation: "
                 ++ [34] ++ until_char 32 operation ++ [34])), tr))
  /\ (forall req, buildRequest credentials accessToken i = inr req ->
        method req = until_char 32 operation
        /\ includes validMethods (method req) = true).
Proof.
  intros Hop. pose proof (operationMethod_first_space operation) as Hm.
  split; [exact Hm|]. split.
  - intros Hbad. apply processItem_build_error.
    unfold buildRequest. rewrite Hop. cbn [split_receiver].
    fold (operationMethod operation). rewrite Hm, Hbad. reflexivity.
  - intros req Hreq.
    apply buildRequest_inr in Hreq as (op' & _ & _ & _ & Hop' & Hv & _ & _ & _ & Hmeth & _).
    rewrite Hop in Hop'. injection Hop' as <-. rewrite Hmeth, <- Hm. auto.
Qed.

Lemma responseItems_array elems :
  (length elems <= maxArguments)%nat ->
  responseItems maxArguments (VArr elems)
  = inr (map (fun item => {| json := item |}) elems).
Proof.
  intros H. cbn. apply Nat.leb_le in H. rewrite H. reflexivity.
Qed.

Lemma responseItems_long elems :
  (maxArguments < length elems)%nat ->
  responseItems maxArguments (VArr elems) = inl (JsError stackExceeded).
Proof.
  intros H. cbn. apply Nat.leb_gt in H. rewrite H. reflexivity.
Qed.

Lemma responseItems_single response :
  Array_isArray response = false ->
  responseItems maxArguments response = inr [ {| json := response |} ].
Proof. destruct response; cbn; try reflexivity. discriminate. Qed.

(** An item whose request was built and answered emits one record per
    element when the response is an array the engine can spread, and one
    record wrapping the response when it is no array. *)
Lemma response_records credentials accessToken i tr req response :
  buildRequest credentials accessToken i = inr req ->
  httpRequest tr req = inr response ->
  (forall elems, response = VArr elems -> (length elems <= maxArguments)%nat ->
     processItem credentials accessToken i tr
     = (inr (map (fun item => {| json := item |}) elems), tr ++ [req]))
  /\ (Array_isArray response = false ->
      processItem credentials accessToken i tr
      = (inr [ {| json := response |} ], tr ++ [req])).
Proof.
  intros Hreq Hresp. rewrite (processItem_build_ok _ _ _ _ _ Hreq), Hresp. split.
  - intros elems -> Hlen. rewrite responseItems_array by exact Hlen. reflexivity.
  - intros Harr. rewrite responseItems_single by exact Harr. reflexivity.
Qed.

(** C8.  An array with more elements than the engine takes as arguments is
    not turned into records.  The request of the item has been issued and
    answered, but the call of line 253 raises a RangeError before any
    record is pushed: the item fails, and what the batch gets for it is
    the record of that error when [continueOnFail] is set, and the end of
    the loop when it is not. *)
Theorem long_response_rejected credentials accessToken i tr req elems :
  buildRequest credentials accessToken i = inr req ->
  httpRequest tr req = inr (VArr elems) ->
  (maxArguments < length elems)%nat ->
  processItem credentials accessToken i tr
  = (inl (JsError stackExceeded), tr ++ [req])
  /\ forall rest returnData,
       itemLoop credentials accessToken (i :: rest) returnData tr
       = if continueOnFail
         then itemLoop credentials accessToken rest
                (returnData ++ [ {| json := VObj [(js "error", VStr stackExceeded)] |} ])
                (tr ++ [req])
         else (inl (JsError stackExceeded), tr ++ [req]).
Proof.
  intros Hreq Hresp Hlen.
  assert (Hitem : processItem credentials accessToken i tr
                  = (inl (JsError stackExceeded), tr ++ [req])).
  { rewrite (processItem_build_ok _ _ _ _ _ Hreq), Hresp.
    rewrite responseItems_long by exact Hlen. reflexivity. }
  split; [exact Hitem|].
  intros rest returnData. rewrite itemLoop_cons, Hitem. reflexivity.
Qed.

(** ** Token acquirer *)

Lemma execute_token credentials tokenResponse accessToken tr :
  getCredentials (js "glpiOAuth2Api") = inr credentials ->
  httpRequest tr (tokenRequest credentials) = inr tokenResponse ->
  get_property tokenResponse (js "access_token") = inr accessToken ->
  execute tr =
    if truthy accessToken then
      match itemLoop credentials accessToken (seq 0 (length getInputData)) []
              (tr ++ [tokenRequest credentials]) with
      | (inr returnData, tr') => (inr [returnData], tr')
      | (inl e, tr') => (inl e, tr')
      end
    else (inl noTokenError, tr ++ [tokenRequest credentials]).
Proof.
  intros Hc Ht Ha. unfold execute, bind, lift, await_httpRequest, throw, ret.
  rewrite Hc, Ht, Ha. destruct (truthy accessToken); cbn [negb]; [|reflexivity].
  destruct (itemLoop _ _ _ _ _) as [[e|rd] tr']; reflexivity.
Qed.

Lemma execute_token_unreadable credentials tokenResponse message tr :
  getCredentials (js "glpiOAuth2Api") = inr credentials ->
  httpRequest tr (tokenRequest credentials) = inr tokenResponse ->
  get_property tokenResponse (js "access_token") = inl message ->
  execute tr = (inl (JsError message), tr ++ [tokenRequest credentials]).
Proof.
  intros Hc Ht Ha. unfold execute, bind, lift, await_httpRequest, throw, ret.
  rewrite Hc, Ht, Ha. reflexivity.
Qed.

(** C6.  When the answer of the token endpoint carries no usable
    [access_token], the execution throws before the item loop, whatever
    [continueOnFail] says, and the token request is the only request
    issued; the error is the node's "returned no access_token" error
    whenever the answer can be read at all (it is not [null]). *)
Theorem missing_access_token_is_fatal credentials tokenResponse tr :
  getCredentials (js "glpiOAuth2Api") = inr credentials ->
  httpRequest tr (tokenRequest credentials) = inr tokenResponse ->
  (forall accessToken,
     get_property tokenResponse (js "access_token") = inr accessToken ->
     truthy accessToken = false) ->
  exists e,
    execute tr = (inl e, tr ++ [tokenRequest credentials])
    /\ (forall accessToken,
          get_property tokenResponse (js "access_token") = inr accessToken ->
          e = noTokenError).
Proof.
  intros Hc Ht Hf.
  destruct (get_property tokenResponse (js "access_token")) as [message|accessToken] eqn:Ha.
  - exists (JsError message). split; [|discriminate].
    apply (execute_token_unreadable _ _ _ _ Hc Ht Ha).
  - exists noTokenError. split; [|reflexivity].
    rewrite (execute_token _ _ _ _ Hc Ht Ha), (Hf _ eq_refl). reflexivity.
Qed.

Lemma get_property_absent props k :
  obj_get props k = None -> get_property (VObj props) k = inr VUndefined.
Proof. intros H. cbn. rewrite H. reflexivity. Qed.

(** ** Failure policy *)

(** The errors of an item that are not the host's are instances of
    [Error]. *)
Lemma collectProperties_error i props : forall acc e,
  collectProperties NumberToString i props acc = inl e ->
  exists message, e = NodeOperationError message.
Proof.
  induction props as [|p props IH]; intros acc e H; cbn in H; [discriminate|].
  destruct (collectProperty NumberToString i acc p) as [e1|acc1] eqn:E1.
  - injection H as <-. unfold collectProperty in E1.
    destruct (getNodeParameter (name p) i) as [[m|m|x]|w]; try discriminate.
    + injection E1 as <-. eauto.
    + destruct (isEmptyValue w); [discriminate|].
      repeat case_bool_decide; try discriminate.
      destruct (ToString NumberToString w); discriminate.
  - eapply IH. exact H.
Qed.

Lemma buildRequest_error_message credentials accessToken i e :
  (forall e', getNodeParameter (js "operation") i = inl e' -> error_message e' <> None) ->
  buildRequest credentials accessToken i = inl e ->
  error_message e <> None.
Proof.
  intros Hhost. unfold buildRequest.
  destruct (getNodeParameter (js "operation") i) as [e0|parameter] eqn:Hop.
  { intros [= <-]. apply Hhost. reflexivity. }
  destruct (split_receiver parameter) as [e1|operation] eqn:Hs.
  { intros [= <-]. destruct parameter; cbn in Hs; try discriminate;
      injection Hs as <-; discriminate. }
  destruct (negb _); [intros [= <-]; discriminate|].
  destruct (resolvePath _ _) as [e2|path] eqn:Hp.
  { intros [= <-]. unfold resolvePath in Hp. cbv zeta in Hp.
    destruct (match_placeholders _); [discriminate|]. injection Hp as <-. discriminate. }
  destruct (ToString NumberToString accessToken); [|intros [= <-]; discriminate].
  destruct (collectProperties NumberToString i _ _) as [e3|collected] eqn:Hc; [|discriminate].
  intros [= <-]. apply collectProperties_error in Hc as [message ->]. discriminate.
Qed.

Lemma processItem_reportable credentials accessToken i tr :
  throwsMessages NumberToString ->
  reportable NumberToString (fst (processItem credentials accessToken i tr)).
Proof.
  intros [Hparam Hhttp].
  destruct (buildRequest credentials accessToken i) as [e|req] eqn:Hreq.
  - rewrite (processItem_build_error _ _ _ _ _ Hreq). cbn.
    eapply buildRequest_error_message; [|exact Hreq]. intros e'. apply Hparam.
  - rewrite (processItem_build_ok _ _ _ _ _ Hreq). cbn [fst].
    destruct (httpRequest tr req) as [e|response] eqn:Hh; cbn.
    + eapply Hhttp. exact Hh.
    + destruct response; cbn; auto.
      destruct (_ <=? _)%nat; cbn; [auto|discriminate].
Qed.

Lemma runItems_reportable credentials accessToken indices : forall tr,
  throwsMessages NumberToString ->
  Forall (reportable NumberToString) (fst (runItems credentials accessToken indices tr)).
Proof.
  induction indices as [|i rest IH]; intros tr Hhost; [constructor|].
  rewrite runItems_cons. cbn [fst]. constructor.
  - apply processItem_reportable. exact Hhost.
  - apply IH. exact Hhost.
Qed.

Lemma capturedRecords_error e message :
  error_message e = Some message ->
  capturedRecords (inl e) = [ {| json := VObj [(js "error", VStr message)] |} ].
Proof. intros H. unfold capturedRecords, errorRecord. rewrite H. reflexivity. Qed.

(** With [continueOnFail] and outcomes that can all be reported, the loop
    does not throw: every item is processed and adds its records, or the
    record of its error. *)
Lemma itemLoop_continue credentials accessToken indices :
  continueOnFail = true ->
  forall returnData tr,
    Forall (reportable NumberToString) (fst (runItems credentials accessToken indices tr)) ->
    itemLoop credentials accessToken indices returnData tr
    = (inr (returnData
            ++ concat (map capturedRecords
                         (fst (runItems credentials accessToken indices tr)))),
       snd (runItems credentials accessToken indices tr)).
Proof.
  intros Hc. induction indices as [|i rest IH]; intros returnData tr Hrep.
  - cbn. rewrite app_nil_r. reflexivity.
  - rewrite runItems_cons in Hrep |- *. rewrite itemLoop_cons.
    cbn [fst snd map concat] in Hrep |- *.
    inversion Hrep as [|? ? Hhead Htail]; subst.
    destruct (processItem credentials accessToken i tr) as [[e|records] tr1];
      cbn [fst snd] in *.
    + rewrite Hc. unfold capturedRecords at 1.
      destruct (errorRecord e) as [thrown|record] eqn:Er.
      * unfold errorRecord in Er. cbn in Hhead.
        destruct (error_message e); [discriminate|destruct Hhead; reflexivity].
      * rewrite IH by exact Htail. rewrite <- app_assoc. reflexivity.
    + rewrite IH by exact Htail. rewrite <- app_assoc. reflexivity.
Qed.

(** Without it, items that succeed are passed over and the first failure
    ends the loop. *)
Lemma itemLoop_abort credentials accessToken finished : forall returnData tr,
  Forall succeeded (fst (runItems credentials accessToken finished tr)) ->
  forall i rest e tr',
    continueOnFail = false ->
    processItem credentials accessToken i
      (snd (runItems credentials accessToken finished tr)) = (inl e, tr') ->
    itemLoop credentials accessToken (finished ++ i :: rest) returnData tr = (inl e, tr').
Proof.
  induction finished as [|j finished IH]; intros returnData tr Hok i rest e tr' Hc Hi.
  - change (snd (runItems credentials accessToken [] tr)) with tr in Hi.
    cbn [app]. rewrite itemLoop_cons, Hi, Hc. reflexivity.
  - rewrite runItems_cons in Hok, Hi. cbn [fst snd] in Hok, Hi.
    cbn [app]. rewrite itemLoop_cons.
    destruct (processItem credentials accessToken j tr) as [[e'|records] tr1];
      cbn [fst snd] in Hok, Hi; inversion Hok as [|? ? H1 H2]; subst.
    + destruct H1.
    + eapply IH; eauto.
Qed.

Lemma runItems_length credentials accessToken indices : forall tr,
  length (fst (runItems credentials accessToken indices tr)) = length indices.
Proof.
  induction indices as [|i rest IH]; intros tr; [reflexivity|].
  rewrite runItems_cons. cbn [fst length]. rewrite IH. reflexivity.
Qed.

(** C7.  For every batch on a host whose thrown values have a message
    (instances of [Error], or values [String] converts): with
    [continueOnFail] the loop processes every item, each adding its
    records or, when it fails, the one record holding the error's message,
    so the output has one group per item; without it the first failing
    item ends the loop with its error, the requests issued are those up to
    the failure, and the items after it play no part. *)
Theorem continue_on_fail_policy credentials accessToken indices returnData tr :
  throwsMessages NumberToString ->
  (continueOnFail = true ->
     itemLoop credentials accessToken indices returnData tr
     = (inr (returnData
             ++ concat (map capturedRecords
                          (fst (runItems credentials accessToken indices tr)))),
        snd (runItems credentials accessToken indices tr))
     /\ length (fst (runItems credentials accessToken indices tr)) = length indices
     /\ forall e, inl e ∈ fst (runItems credentials accessToken indices tr) ->
           exists message,
             error_message e = Some message
             /\ capturedRecords (inl e)
                = [ {| json := VObj [(js "error", VStr message)] |} ])
  /\ (continueOnFail = false ->
      forall finished i rest e tr',
        indices = finished ++ i :: rest ->
        Forall succeeded (fst (runItems credentials accessToken finished tr)) ->
        processItem credentials accessToken i
          (snd (runItems credentials accessToken finished tr)) = (inl e, tr') ->
        itemLoop credentials accessToken indices returnData tr = (inl e, tr')).
Proof.
  intros Hhost.
  pose proof (runItems_reportable credentials accessToken indices tr Hhost) as Hrep.
  split.
  - intros Hc. split; [apply itemLoop_continue; [exact Hc | exact Hrep]|].
    split; [apply runItems_length|].
    intros e He. rewrite Forall_forall in Hrep. specialize (Hrep _ He). cbn in Hrep.
    destruct (error_message e) as [message|] eqn:Em; [|destruct Hrep; reflexivity].
    exists message. split; [reflexivity|]. apply capturedRecords_error. exact Em.
  - intros Hc finished i rest e tr' -> Hok Hi.
    eapply itemLoop_abort; eauto.
Qed.

(** Scenario 3 of the specification, from the token request on: three
    items, the second failing. *)
Lemma three_item_batch credentials tokenResponse accessToken r1 r3 e message tr1 tr2 tr3 :
  length getInputData = 3%nat ->
  getCredentials (js "glpiOAuth2Api") = inr credentials ->
  httpRequest [] (tokenRequest credentials) = inr tokenResponse ->
  get_property tokenResponse (js "access_token") = inr accessToken ->
  truthy accessToken = true ->
  processItem credentials accessToken 0 [tokenRequest credentials] = (inr [r1], tr1) ->
  processItem credentials accessToken 1 tr1 = (inl e, tr2) ->
  error_message e = Some message ->
  processItem credentials accessToken 2 tr2 = (inr [r3], tr3) ->
  execute [] =
    if continueOnFail
    then (inr [[r1; {| json := VObj [(js "error", VStr message)] |}; r3]], tr3)
    else (inl e, tr2).
Proof.
  intros Hn Hc Ht Ha Htr H1 H2 Hm H3.
  rewrite (execute_token _ _ _ _ Hc Ht Ha), Htr, Hn.
  cbn [seq app]. rewrite itemLoop_cons, H1. cbn [app]. rewrite itemLoop_cons, H2.
  destruct continueOnFail; [|reflexivity].
  unfold errorRecord. rewrite Hm.
  cbn [app]. rewrite itemLoop_cons, H3, itemLoop_nil. reflexivity.
Qed.

(** ** Parameter classifier *)

(** A routable descriptor without an operation list is in no operation's
    entry of the index, although the per-item scan of the earlier draft
    keeps it for every operation. *)
Lemma unrestricted_descriptor_dropped prop operation :
  prop ∈ properties ->
  routable (send_type prop) = true ->
  show_operation prop = None ->
  (prop ∉ operationProps properties operation)
  /\ prop ∈ Legacy.operationProps properties operation.
Proof.
  intros Hin Hr Hs. split.
  - rewrite operationProps_elem. intros (_ & _ & ops & Hops & _). congruence.
  - rewrite Legacy_operationProps_elem, Hs. auto.
Qed.

(** A descriptor restricted to other operations is excluded, by the index
    and by the scan alike. *)
Lemma restricted_descriptor_excluded prop ops operation :
  show_operation prop = Some ops -> operation ∉ ops ->
  (prop ∉ operationProps properties operation)
  /\ (prop ∉ Legacy.operationProps properties operation).
Proof.
  intros Hs Hn. split.
  - rewrite operationProps_elem. intros (_ & _ & ops' & Hops & Hin). congruence.
  - rewrite Legacy_operationProps_elem, Hs. tauto.
Qed.

(** On descriptors that carry an operation list the index and the scan
    agree. *)
Lemma restricted_descriptor_agree prop ops operation :
  show_operation prop = Some ops ->
  (prop ∈ operationProps properties operation
   <-> prop ∈ Legacy.operationProps properties operation).
Proof.
  intros Hs. rewrite operationProps_elem, Legacy_operationProps_elem, Hs.
  unfold indexed. rewrite Hs. split.
  - intros (H1 & H2 & ops' & [= <-] & H3). auto.
  - intros (H1 & H2 & H3). eauto.
Qed.

(** C1 (as amended).  The classified subset of an operation holds the
    routable descriptors whose operation list names it, and no others.
    So a descriptor restricted to other operations is excluded, by the
    index and by the scan of the earlier draft alike, and the two agree
    on every descriptor that has a list.  A descriptor without a list is
    filed under no operation by the index (line 64); the scan of the
    draft keeps it for every operation. *)
Theorem classifier_follows_operation_lists prop operation :
  (prop ∈ operationProps properties operation
   <-> prop ∈ properties /\ routable (send_type prop) = true
       /\ exists ops, show_operation prop = Some ops /\ operation ∈ ops)
  /\ (forall ops, show_operation prop = Some ops -> operation ∉ ops ->
        (prop ∉ operationProps properties operation)
        /\ (prop ∉ Legacy.operationProps properties operation))
  /\ (forall ops, show_operation prop = Some ops ->
        (prop ∈ operationProps properties operation
         <-> prop ∈ Legacy.operationProps properties operation))
  /\ (show_operation prop = None ->
        (prop ∉ operationProps properties operation)
        /\ (prop ∈ Legacy.operationProps properties operation
            <-> prop ∈ properties /\ routable (send_type prop) = true)).
Proof.
  split; [|split; [|split]].
  - rewrite operationProps_elem. unfold indexed. tauto.
  - intros ops. apply restricted_descriptor_excluded.
  - intros ops. apply restricted_descriptor_agree.
  - intros Hs. split.
    + rewrite operationProps_elem. intros (_ & _ & ops & Hops & _). congruence.
    + rewrite Legacy_operationProps_elem, Hs. tauto.
Qed.

End Claims.

(** ** Token request body *)

Lemma elem_of_bool_decide (x : jsstring) (l : list jsstring) :
  x ∈ l <-> bool_decide (x ∈ l) = true.
Proof. symmetry. apply bool_decide_eq_true. Qed.

(** C5.  The form body of the token request names [client_id] exactly
    when the credential's client id is a non-empty string, and
    [client_secret] exactly when its client secret is one: a field that is
    missing or empty in the credential is not sent at all, not even as an
    empty value, and a field that is sent carries the credential's
    value. *)
Theorem token_body_client_fields credentials :
  let entries := tokenBodyEntries credentials in
  let names := form_names (URLSearchParams_toString entries) in
  body (tokenRequest credentials) = Some (BodyText (URLSearchParams_toString entries))
  /\ (js "client_id" ∈ names
      <-> exists id, clientId credentials = Some id /\ id <> [])
  /\ (js "client_secret" ∈ names
      <-> exists secret, clientSecret credentials = Some secret /\ secret <> [])
  /\ (forall id, clientId credentials = Some id -> id <> [] ->
        obj_get entries (js "client_id") = Some id)
  /\ (forall secret, clientSecret credentials = Some secret -> secret <> [] ->
        obj_get entries (js "client_secret") = Some secret)
  /\ ((clientId credentials = None \/ clientId credentials = Some []) ->
        obj_get entries (js "client_id") = None)
  /\ ((clientSecret credentials = None \/ clientSecret credentials = Some []) ->
        obj_get entries (js "client_secret") = None).
Proof.
  intros entries names. split; [reflexivity|].
  assert (Htruthy : forall o : option jsstring,
            option_truthy o = true <-> exists x, o = Some x /\ x <> []).
  { intros [x|]; cbn; unfold str_eqb.
    - case_bool_decide as E; cbn; split.
      + discriminate.
      + intros (y & [= <-] & Hy). contradiction.
      + intros _. eauto.
      + reflexivity.
    - split; [discriminate | intros (x & H & _); discriminate]. }
  assert (Hfalsy : forall o : option jsstring,
            o = None \/ o = Some [] -> option_truthy o = false).
  { intros o [-> | ->]; reflexivity. }
  assert (Hnames :
            (js "client_id" ∈ names <-> option_truthy (clientId credentials) = true)
            /\ (js "client_secret" ∈ names
                <-> option_truthy (clientSecret credentials) = true)
            /\ obj_get entries (js "client_id")
               = (if option_truthy (clientId credentials)
                  then clientId credentials else None)
            /\ obj_get entries (js "client_secret")
               = (if option_truthy (clientSecret credentials)
                  then clientSecret credentials else None)).
  { subst names. rewrite form_names_toString. subst entries.
    unfold tokenBodyEntries.
    destruct (clientId credentials) as [cid|], (clientSecret credentials) as [sec|];
      cbn [option_truthy default];
      try destruct (negb (str_eqb cid [])) eqn:Ec;
      try destruct (negb (str_eqb sec [])) eqn:Es;
      (split; [|split; [|split]]);
      try (rewrite elem_of_bool_decide; vm_compute; split; congruence);
      try (unfold str_eqb in *; vm_compute; reflexivity). }
  destruct Hnames as (Hid & Hsecret & Eid & Esecret).
  split; [rewrite Hid; apply Htruthy|].
  split; [rewrite Hsecret; apply Htruthy|].
  split.
  { intros id Hi Hne. rewrite Eid.
    rewrite (proj2 (Htruthy _)) by eauto. exact Hi. }
  split.
  { intros secret Hi Hne. rewrite Esecret.
    rewrite (proj2 (Htruthy _)) by eauto. exact Hi. }
  split.
  { intros H. rewrite Eid, (Hfalsy _ H). reflexivity. }
  intros H. rewrite Esecret, (Hfalsy _ H). reflexivity.
Qed.

(* ===================================================================== *)
(** * Further properties of the node *)
(* ===================================================================== *)

(** ** Operation names, base URL and index *)

(** X1.  The operation value the parser produces is read back by the
    dispatcher.  [value] is [name]: the upper-cased method, a space, the
    pattern.  When the upper-cased method has no space, splitting the
    value on spaces gives back that method; the path part is the pattern
    up to its first space, so the whole pattern when it has none, and a
    pattern that starts with a slash is then the path template as it
    stands. *)
Theorem operation_value_round_trip toUpperCase operation context :
  no_char 32 (toUpperCase (OperationParser.method context)) ->
  let op := OperationParser.value toUpperCase operation context in
  op = OperationParser.name toUpperCase operation context
  /\ operationMethod op = toUpperCase (OperationParser.method context)
  /\ operationPath op = until_char 32 (OperationParser.pattern context)
  /\ (no_char 32 (OperationParser.pattern context) ->
      operationPath op = OperationParser.pattern context
      /\ (startsWith (OperationParser.pattern context) (cu "/") = true ->
          pathTemplate (operationPath op) = OperationParser.pattern context)).
Proof.
  intros Hm op. split; [reflexivity|].
  assert (Es : split 32 op = toUpperCase (OperationParser.method context)
                             :: split 32 (OperationParser.pattern context)).
  { unfold op, OperationParser.value, OperationParser.name.
    change (js " ") with [32]. cbn [app]. apply split_app. exact Hm. }
  assert (Ep : operationPath op = until_char 32 (OperationParser.pattern context)).
  { unfold operationPath. rewrite Es. cbn [nth].
    rewrite <- operationMethod_first_space. reflexivity. }
  split; [unfold operationMethod; rewrite Es; reflexivity|].
  split; [exact Ep|].
  intros Hp.
  assert (Eu : until_char 32 (OperationParser.pattern context) = OperationParser.pattern context).
  { clear -Hp. induction Hp as [|c s Hc Hs IH]; [reflexivity|].
    cbn. apply N.eqb_neq in Hc. rewrite Hc, IH. reflexivity. }
  rewrite Ep, Eu. split; [reflexivity|].
  intros Hs. unfold pathTemplate. rewrite Hs. reflexivity.
Qed.

Lemma dropSlashes_spec s :
  exists n, s = replicate n (cu "/") ++ dropSlashes s
            /\ startsWith (dropSlashes s) (cu "/") = false.
Proof.
  induction s as [|c r (n & E & H)]; [exists 0%nat; auto|].
  cbn [dropSlashes]. destruct (c =? cu "/") eqn:Ec.
  - apply N.eqb_eq in Ec. subst c. exists (S n). cbn. split; [f_equal; exact E | exact H].
  - exists 0%nat. split; [reflexivity|]. cbn. exact Ec.
Qed.

Lemma dropSlashes_replicate n s :
  dropSlashes (replicate n (cu "/") ++ s) = dropSlashes s.
Proof. induction n as [|n IH]; [reflexivity|]. cbn. rewrite N.eqb_refl. exact IH. Qed.

Lemma rev_replicate {A} n (x : A) : rev (replicate n x) = replicate n x.
Proof.
  induction n as [|n IH]; [reflexivity|]. cbn. rewrite IH.
  clear IH. induction n as [|n IH]; [reflexivity|]. cbn. f_equal. exact IH.
Qed.

Lemma stripTrailingSlashes_spec s :
  exists n, s = stripTrailingSlashes s ++ replicate n (cu "/").
Proof.
  unfold stripTrailingSlashes. destruct (dropSlashes_spec (rev s)) as (n & E & _).
  exists n. apply (f_equal (@rev N)) in E. rewrite rev_involutive, rev_app_distr in E.
  rewrite rev_replicate in E. exact E.
Qed.

Lemma stripTrailingSlashes_last s r : stripTrailingSlashes s <> r ++ [cu "/"].
Proof.
  unfold stripTrailingSlashes. destruct (dropSlashes_spec (rev s)) as (n & _ & H).
  intros E. apply (f_equal (@rev N)) in E. rewrite rev_involutive, rev_app_distr in E.
  cbn in E. rewrite E in H. cbn in H. rewrite N.eqb_refl in H. discriminate.
Qed.

Lemma stripTrailingSlashes_slashes s n :
  stripTrailingSlashes (s ++ replicate n (cu "/")) = stripTrailingSlashes s.
Proof.
  unfold stripTrailingSlashes. rewrite rev_app_distr, rev_replicate, dropSlashes_replicate.
  reflexivity.
Qed.

Section BaseUrl.
Context (NumberToString : number -> jsstring).
Context (maxArguments : nat).
Context (properties : list INodeProperties).
Context `{this : IExecuteFunctions}.

Local Abbreviation buildRequest := (buildRequest NumberToString properties).
Local Abbreviation processItem := (processItem NumberToString maxArguments properties).
Local Abbreviation itemLoop := (itemLoop NumberToString maxArguments properties).
Local Abbreviation execute := (execute NumberToString maxArguments properties).
Local Abbreviation resolvePath := (resolvePath NumberToString).
Local Abbreviation encodes := (encodes NumberToString).
Local Abbreviation placed := (placed NumberToString).
Local Abbreviation collectProperty := (collectProperty NumberToString).
Local Abbreviation collectProperties := (collectProperties NumberToString).
Local Abbreviation capturedRecords := (capturedRecords NumberToString).
Local Abbreviation runItems := (runItems NumberToString maxArguments properties).

(** X2.  The base URL is the credential's URL without its trailing
    slashes: the URL is the base followed by slashes only, the base does
    not end in a slash, the token URL is the base followed by
    [/api.php/token], and trailing slashes added to the credential's URL
    change neither the token request nor the request of any item. *)
Theorem trailing_slashes_are_irrelevant credentials n accessToken i :
  let baseUrl := stripTrailingSlashes (glpiUrl credentials) in
  let slashed := withUrl credentials (glpiUrl credentials ++ replicate n (cu "/")) in
  (exists k, glpiUrl credentials = baseUrl ++ replicate k (cu "/"))
  /\ (forall r, baseUrl <> r ++ [cu "/"])
  /\ url (tokenRequest credentials) = baseUrl ++ js "/api.php/token"
  /\ tokenRequest slashed = tokenRequest credentials
  /\ buildRequest slashed accessToken i = buildRequest credentials accessToken i.
Proof.
  intros baseUrl slashed.
  split; [apply stripTrailingSlashes_spec|].
  split; [apply stripTrailingSlashes_last|].
  split; [reflexivity|].
  split.
  - unfold tokenRequest, slashed, withUrl, tokenBodyEntries.
    cbn [glpiUrl username password scope clientId clientSecret ignoreSSLIssues].
    rewrite stripTrailingSlashes_slashes. reflexivity.
  - unfold buildRequest, slashed, withUrl.
    cbn [glpiUrl ignoreSSLIssues].
    rewrite stripTrailingSlashes_slashes. reflexivity.
Qed.

End BaseUrl.

Section IndexOrder.
Context (properties : list INodeProperties).

Lemma index_operations_lookup prop ops : forall m operation,
  default [] (index_operations prop m ops !! operation)
  = default [] (m !! operation)
    ++ replicate (length (filter (fun op => op = operation) ops)) prop.
Proof.
  induction ops as [|a ops IH]; intros m operation.
  - cbn. rewrite app_nil_r. reflexivity.
  - change (index_operations prop m (a :: ops))
      with (index_operations prop (<[a := default [] (m !! a) ++ [prop]]> m) ops).
    rewrite IH. destruct (decide (a = operation)) as [->|Hne].
    + rewrite lookup_insert_eq, filter_cons_True by reflexivity.
      cbn [length replicate]. unfold default at 1. cbn [from_option id].
      rewrite <- app_assoc. reflexivity.
    + rewrite lookup_insert_ne, filter_cons_False by exact Hne. reflexivity.
Qed.

Lemma index_property_lookup m prop operation :
  default [] (index_property m prop !! operation)
  = default [] (m !! operation) ++ replicate (occurrences operation prop) prop.
Proof.
  unfold index_property, occurrences.
  destruct (routable (send_type prop)); cbn [negb].
  - destruct (show_operation prop) as [ops|].
    + apply index_operations_lookup.
    + cbn. rewrite app_nil_r. reflexivity.
  - cbn. rewrite app_nil_r. reflexivity.
Qed.

Lemma fold_index_property_lookup props : forall m operation,
  default [] (fold_left index_property props m !! operation)
  = default [] (m !! operation)
    ++ flat_map (fun prop => replicate (occurrences operation prop) prop) props.
Proof.
  induction props as [|prop props IH]; intros m operation; cbn [fold_left flat_map].
  - rewrite app_nil_r. reflexivity.
  - rewrite IH, index_property_lookup, <- app_assoc. reflexivity.
Qed.

Lemma operationProps_flat_map operation :
  operationProps properties operation
  = flat_map (fun prop => replicate (occurrences operation prop) prop) properties.
Proof.
  unfold operationProps, operationPropertiesMap.
  rewrite fold_index_property_lookup, lookup_empty. reflexivity.
Qed.

Lemma includes_elem (l : list jsstring) (x : jsstring) :
  includes l x = true <-> x ∈ l.
Proof.
  unfold includes. rewrite existsb_exists. split.
  - intros (y & Hy & Heq). unfold str_eqb in Heq.
    apply bool_decide_eq_true in Heq. subst y. apply list_elem_of_In. exact Hy.
  - intros H. exists x. split; [apply list_elem_of_In; exact H|].
    unfold str_eqb. apply bool_decide_eq_true. reflexivity.
Qed.

Lemma NoDup_occurrences (ops : list jsstring) operation :
  NoDup ops ->
  length (filter (fun op => op = operation) ops)
  = if includes ops operation then 1%nat else 0%nat.
Proof.
  induction 1 as [|a ops Ha Hn IH]; [reflexivity|].
  destruct (decide (a = operation)) as [->|Hne].
  - rewrite filter_cons_True by reflexivity. cbn [length].
    assert (includes (operation :: ops) operation = true) as ->
      by (apply includes_elem; left).
    rewrite IH.
    destruct (includes ops operation) eqn:E; [|reflexivity].
    apply includes_elem in E. contradiction.
  - rewrite filter_cons_False by exact Hne. rewrite IH.
    destruct (includes ops operation) eqn:E.
    + assert (includes (a :: ops) operation = true) as ->
        by (apply includes_elem; right; apply includes_elem; exact E).
      reflexivity.
    + destruct (includes (a :: ops) operation) eqn:E'; [|reflexivity].
      apply includes_elem in E'. apply elem_of_cons in E' as [->|E']; [congruence|].
      apply includes_elem in E'. congruence.
Qed.

(** X3.  The entry of the index for an operation lists the routable
    descriptors in the order of the descriptor list, each as many times
    as its operation list names the operation; when no list names it
    twice, the entry is the descriptor list filtered. *)
Theorem operationProps_in_descriptor_order operation :
  operationProps properties operation
  = flat_map (fun prop => replicate (occurrences operation prop) prop) properties
  /\ ((forall prop, prop ∈ properties -> (occurrences operation prop <= 1)%nat) ->
      operationProps properties operation
      = filter (fun prop => occurrences operation prop = 1%nat) properties).
Proof.
  split; [apply operationProps_flat_map|].
  intros H. rewrite operationProps_flat_map.
  induction properties as [|p ps IH]; [reflexivity|].
  cbn [flat_map]. rewrite IH by (intros q Hq; apply H; right; exact Hq).
  pose proof (H p ltac:(left)) as Hp.
  destruct (occurrences operation p) as [|[|k]] eqn:E; [| |lia].
  - rewrite filter_cons_False by (rewrite E; discriminate). reflexivity.
  - rewrite filter_cons_True by (rewrite E; reflexivity). reflexivity.
Qed.

Lemma occurrences_applies operation prop ops :
  (routable (send_type prop) = true -> show_operation prop = Some ops /\ NoDup ops) ->
  occurrences operation prop = if Legacy.applies operation prop then 1%nat else 0%nat.
Proof.
  unfold occurrences, Legacy.applies, routable. intros H.
  destruct (send_type prop) as [t|]; [|reflexivity].
  destruct (negb (str_eqb t []) && includes [js "body"; js "query"; js "header"] t);
    [|reflexivity].
  destruct (H eq_refl) as [-> Hnd]. cbn [default andb].
  apply NoDup_occurrences. exact Hnd.
Qed.

Lemma operationProps_scan operation :
  (forall prop, prop ∈ properties -> routable (send_type prop) = true ->
     exists ops, show_operation prop = Some ops /\ NoDup ops) ->
  operationProps properties operation = Legacy.operationProps properties operation.
Proof.
  intros H. rewrite operationProps_flat_map. unfold Legacy.operationProps.
  induction properties as [|p ps IH]; [reflexivity|].
  cbn [flat_map]. rewrite IH by (intros q Hq; apply H; right; exact Hq).
  assert (E : occurrences operation p
              = if Legacy.applies operation p then 1%nat else 0%nat).
  { destruct (routable (send_type p)) eqn:Er.
    - destruct (H p ltac:(left) Er) as (ops & Hs & Hnd).
      apply (occurrences_applies operation p ops). auto.
    - apply (occurrences_applies operation p []). rewrite Er. discriminate. }
  rewrite E. destruct (Legacy.applies operation p) eqn:Ea.
  - rewrite filter_cons_True by exact Ea. reflexivity.
  - rewrite filter_cons_False by (rewrite Ea; discriminate). reflexivity.
Qed.

(** X4.  Every descriptor the index gives for an operation is one the
    per-item scan of the earlier draft keeps; and when every routable
    descriptor carries an operation list without repetition, the index
    gives exactly the list the scan keeps, in the same order. *)
Theorem index_agrees_with_scan operation :
  (forall prop, prop ∈ operationProps properties operation ->
                prop ∈ Legacy.operationProps properties operation)
  /\ ((forall prop, prop ∈ properties -> routable (send_type prop) = true ->
         exists ops, show_operation prop = Some ops /\ NoDup ops) ->
      operationProps properties operation = Legacy.operationProps properties operation).
Proof.
  split; [|apply operationProps_scan].
  intros prop. rewrite operationProps_elem, Legacy_operationProps_elem.
  intros (Hin & Hr & ops & Hs & Hop). rewrite Hs. auto.
Qed.

End IndexOrder.

Lemma operationMethod_name toUpperCase operation context :
  no_char 32 (toUpperCase (OperationParser.method context)) ->
  operationMethod (OperationParser.name toUpperCase operation context)
  = toUpperCase (OperationParser.method context).
Proof.
  intros Hm. unfold operationMethod, OperationParser.name.
  change (js " ") with [32]. cbn [app]. rewrite split_app by exact Hm. reflexivity.
Qed.

Section Methods.
Context (NumberToString : number -> jsstring).
Context (maxArguments : nat).
Context (properties : list INodeProperties).
Context `{this : IExecuteFunctions}.

Local Abbreviation buildRequest := (buildRequest NumberToString properties).
Local Abbreviation processItem := (processItem NumberToString maxArguments properties).

(** X5.  Operations as the parser names them, by method.  For [get],
    [put], [post], [delete] and [patch] the dispatcher reads the
    upper-cased method back and accepts it.  For [options], [head] and
    [trace] the item always fails with the invalid-method error, and no
    request is issued. *)
Theorem generated_methods operation pattern :
  let generated method :=
    OperationParser.value asciiUpperCase operation
      {| OperationParser.pattern := pattern; OperationParser.method := method |} in
  (forall method,
     method ∈ [js "get"; js "put"; js "post"; js "delete"; js "patch"] ->
     operationMethod (generated method) = asciiUpperCase method
     /\ includes validMethods (operationMethod (generated method)) = true)
  /\ (forall method credentials accessToken i tr,
        method ∈ [js "options"; js "head"; js "trace"] ->
        getNodeParameter (js "operation") i = inr (VStr (generated method)) ->
        processItem credentials accessToken i tr
        = (inl (NodeOperationError
                  (js "Invalid HTTP method parsed from operation: "
                   ++ [34] ++ asciiUpperCase method ++ [34])), tr)).
Proof.
  intros generated. split.
  - intros method Hin.
    assert (E : operationMethod (generated method) = asciiUpperCase method).
    { apply operationMethod_name. cbn [OperationParser.method].
      repeat (apply elem_of_cons in Hin as [->|Hin]);
        try (vm_compute; repeat constructor; discriminate).
      apply elem_of_nil in Hin. destruct Hin. }
    split; [exact E|]. rewrite E.
    repeat (apply elem_of_cons in Hin as [->|Hin]); try reflexivity.
    apply elem_of_nil in Hin. destruct Hin.
  - intros method credentials accessToken i tr Hin Hop.
    assert (E : operationMethod (generated method) = asciiUpperCase method).
    { apply operationMethod_name. cbn [OperationParser.method].
      repeat (apply elem_of_cons in Hin as [->|Hin]);
        try (vm_compute; repeat constructor; discriminate).
      apply elem_of_nil in Hin. destruct Hin. }
    apply processItem_build_error. unfold buildRequest. rewrite Hop.
    cbn [split_receiver]. fold (operationMethod (generated method)). rewrite E.
    repeat (apply elem_of_cons in Hin as [->|Hin]); try reflexivity.
    apply elem_of_nil in Hin. destruct Hin.
Qed.

End Methods.

(** ** More on the value normaliser *)

(** X6.  The normaliser on values that are not strings: an array is
    absent exactly when each of its elements is an empty array or an
    empty object (so the empty array is), an object exactly when it has no
    key, booleans and numbers never, [undefined] and [null] always. *)
Theorem isEmptyValue_structured :
  (forall elems,
     isEmptyValue (VArr elems) = true
     <-> Forall (fun v => v = VArr [] \/ v = VObj []) elems)
  /\ (forall props, isEmptyValue (VObj props) = true <-> props = [])
  /\ (forall b, isEmptyValue (VBool b) = false)
  /\ (forall n, isEmptyValue (VNum n) = false)
  /\ isEmptyValue VUndefined = true
  /\ isEmptyValue VNull = true.
Proof.
  split; [|split; [|repeat split]].
  - intros elems. unfold isEmptyValue. cbn [value_size isEmptyValue_fuel].
    destruct elems as [|x elems]; [cbn; split; [constructor | reflexivity]|].
    change ((length (x :: elems) =? 0)%nat) with false. cbn [orb].
    rewrite forallb_forall, Forall_forall. split.
    + intros H v Hv. specialize (H v (proj1 (list_elem_of_In _ _) Hv)).
      destruct v as [| | b | n | s | [|y l] | [|kv p]]; cbn in H; try discriminate; auto.
    + intros H v Hv. destruct (H v (proj2 (list_elem_of_In _ _) Hv)) as [->| ->]; reflexivity.
  - intros props. unfold isEmptyValue. cbn.
    destruct props; cbn; split; intros; try reflexivity; discriminate.
Qed.

Lemma Legacy_isEmptyValue_fuel_total n : forall v,
  (value_size v < n)%nat ->
  exists b, forall m, (value_size v < m)%nat -> Legacy.isEmptyValue_fuel m v = Some b.
Proof.
  induction n as [|n IH]; intros v Hn; [lia|].
  destruct v as [| | b | x | s | l | p];
    try (eexists; intros [|m] Hm; [lia | reflexivity]).
  destruct s as [|c s]; [exists true; intros [|m] Hm; [cbn in Hm; lia | reflexivity]|].
  set (t := trim (c :: s)).
  destruct (str_eqb t (js "{}") || str_eqb t (js "[]")) eqn:Eb.
  { exists true. intros [|m] Hm; [lia|]. cbn [Legacy.isEmptyValue_fuel]. fold t.
    rewrite Eb. reflexivity. }
  destruct (JSON_parse t) as [parsed|] eqn:Ep.
  - pose proof (JSON_parse_size _ _ Ep) as Hsz.
    pose proof (trim_length (c :: s)) as Ht. fold t in Ht. cbn [value_size] in Hn.
    destruct (IH parsed ltac:(lia)) as [b Hb]. exists b.
    intros [|m] Hm; [lia|]. cbn [Legacy.isEmptyValue_fuel]. fold t. rewrite Eb, Ep.
    apply Hb. cbn [value_size] in Hm. lia.
  - exists false. intros [|m] Hm; [lia|]. cbn [Legacy.isEmptyValue_fuel]. fold t.
    rewrite Eb, Ep. reflexivity.
Qed.

Lemma Legacy_isEmptyValue_fuel_enough fuel v :
  (value_size v < fuel)%nat ->
  Legacy.isEmptyValue_fuel fuel v = Some (Legacy.isEmptyValue v).
Proof.
  intros H. destruct (Legacy_isEmptyValue_fuel_total (S (value_size v)) v ltac:(lia)) as [b Hb].
  unfold Legacy.isEmptyValue. rewrite (Hb (S (value_size v))) by lia. auto.
Qed.

Lemma Legacy_isEmptyValue_string s :
  Legacy.isEmptyValue (VStr s) =
    if str_eqb s [] then true
    else let t := trim s in
         if str_eqb t (js "{}") || str_eqb t (js "[]") then true
         else match JSON_parse t with
              | Some parsed => Legacy.isEmptyValue parsed
              | None => false
              end.
Proof.
  destruct s as [|c s]; [reflexivity|].
  change (str_eqb (c :: s) []) with false. cbv iota zeta.
  unfold Legacy.isEmptyValue at 1. cbn [value_size Legacy.isEmptyValue_fuel].
  destruct (str_eqb _ _ || str_eqb _ _); [reflexivity|].
  destruct (JSON_parse (trim (c :: s))) as [parsed|] eqn:Ep; [|reflexivity].
  rewrite Legacy_isEmptyValue_fuel_enough; [reflexivity|].
  pose proof (JSON_parse_size _ _ Ep). pose proof (trim_length (c :: s)). cbn [length] in *. lia.
Qed.

Lemma Legacy_isEmptyValue_not_string val :
  (forall s, val <> VStr s) ->
  Legacy.isEmptyValue val = isEmptyValue val || is_zero val.
Proof.
  intros H. destruct val as [| | b | n | s | l | p]; try reflexivity.
  - destruct (H s eq_refl).
  - unfold Legacy.isEmptyValue, isEmptyValue. cbn. rewrite orb_false_r. reflexivity.
  - unfold Legacy.isEmptyValue, isEmptyValue. cbn. rewrite orb_false_r. reflexivity.
Qed.

Lemma isEmptyValue_Legacy n : forall val,
  (value_size val < n)%nat ->
  isEmptyValue val = true -> Legacy.isEmptyValue val = true.
Proof.
  induction n as [|n IH]; intros val Hn; [lia|].
  destruct val as [| | b | x | s | l | p];
    try (rewrite Legacy_isEmptyValue_not_string by discriminate;
         intros ->; reflexivity).
  rewrite isEmptyValue_string, Legacy_isEmptyValue_string.
  destruct (str_eqb s []); [reflexivity|]. cbv zeta.
  destruct (str_eqb _ _ || str_eqb _ _); [reflexivity|].
  destruct (JSON_parse (trim s)) as [parsed|] eqn:Ep; [|discriminate].
  apply IH. pose proof (JSON_parse_size _ _ Ep). pose proof (trim_length s).
  cbn [value_size] in Hn. lia.
Qed.

(** X7.  The normaliser against the draft's (lines 316-331), which drops
    the number zero as well.  Whatever the node treats as absent the
    draft did too; on values that are not strings the draft answers as
    the node does, or true on the number zero; on strings it follows the
    same recursive equation; and it is total for the same reason. *)
Theorem isEmptyValue_drops_less_than_the_draft :
  (forall val, isEmptyValue val = true -> Legacy.isEmptyValue val = true)
  /\ (forall val, (forall s, val <> VStr s) ->
        Legacy.isEmptyValue val = isEmptyValue val || is_zero val)
  /\ (forall s,
        Legacy.isEmptyValue (VStr s) =
          if str_eqb s [] then true
          else let t := trim s in
               if str_eqb t (js "{}") || str_eqb t (js "[]") then true
               else match JSON_parse t with
                    | Some parsed => Legacy.isEmptyValue parsed
                    | None => false
                    end)
  /\ (forall val fuel, (value_size val < fuel)%nat ->
        Legacy.isEmptyValue_fuel fuel val = Some (Legacy.isEmptyValue val)).
Proof.
  split; [|split; [|split]].
  - intros val. apply (isEmptyValue_Legacy (S (value_size val))). lia.
  - exact Legacy_isEmptyValue_not_string.
  - exact Legacy_isEmptyValue_string.
  - intros val fuel. apply Legacy_isEmptyValue_fuel_enough.
Qed.


Lemma lex_number_first s : forall ph a toks,
  lex (LNumber ph a) s = Some toks -> exists n rest, toks = TNumber n :: rest.
Proof.
  induction s as [|c r IH]; intros ph a toks; cbn [lex lex_eof].
  - destruct (num_accepting ph); [|discriminate]. intros [= <-]. eauto.
  - cbn [lex_step]. destruct (number_step ph a c) as [[ph' a']|].
    + destruct (lex (LNumber ph' a') r) as [more|] eqn:E; [|discriminate].
      intros [= <-]. cbn [app]. eapply IH. exact E.
    + destruct (num_accepting ph); [|discriminate].
      destruct (lex_start c) as [[toks' st']|]; [|discriminate].
      destruct (lex st' r) as [more|]; [|discriminate].
      intros [= <-]. cbn [app]. eauto.
Qed.

Lemma lex_literal_first s : forall pending t toks,
  pending <> [] ->
  lex (LLiteral pending t) s = Some toks -> exists rest, toks = t :: rest.
Proof.
  induction s as [|c r IH]; intros pending t toks Hp; cbn [lex lex_eof]; [discriminate|].
  cbn [lex_step]. destruct pending as [|p rest]; [congruence|].
  destruct (c =? p); [|discriminate].
  destruct rest as [|q rest].
  - destruct (lex LStart r) as [more|]; [|discriminate]. intros [= <-]. cbn. eauto.
  - destruct (lex (LLiteral (q :: rest) t) r) as [more|] eqn:E; [|discriminate].
    intros [= <-]. cbn [app]. eapply IH; [|exact E]. discriminate.
Qed.

(** A document whose first token is a scalar is that scalar. *)
Lemma parse_scalar_first t rest v v' :
  scalar t = Some v ->
  match parse_run (MValue, []) (t :: rest) with
  | Some (MDone w, _) => Some w
  | _ => None
  end = Some v' -> v' = v.
Proof.
  intros Hs. cbn [parse_run parse_step].
  assert (E : open_value t [] = Some (MDone v, [])).
  { destruct t; cbn in Hs |- *; try discriminate; injection Hs as <-; reflexivity. }
  rewrite E. destruct rest as [|t' rest]; cbn; [congruence | discriminate].
Qed.

Lemma parse_first_not_value t rest :
  t = TColon \/ t = TComma \/ t = TRBrace \/ t = TRBracket ->
  parse_run (MValue, []) (t :: rest) = None.
Proof. intros [->|[->|[->| ->]]]; reflexivity. Qed.

Lemma JSON_parse_first_char c r v :
  JSON_parse (c :: r) = Some v ->
  isWhiteSpace c = false ->
  (c = cu "{" \/ c = cu "[" \/ c = 34 \/ c = cu "n")
  \/ (exists n, v = VNum n) \/ (exists b, v = VBool b).
Proof.
  unfold JSON_parse, tokenize. cbn [lex lex_step]. unfold lex_start.
  intros H Hws.
  destruct ((c =? 9) || (c =? 10) || (c =? 13) || (c =? 32)) eqn:E0.
  { exfalso. unfold isWhiteSpace in Hws.
    rewrite !orb_true_iff, !N.eqb_eq in E0.
    destruct E0 as [[[-> | ->] | ->] | ->]; vm_compute in Hws; discriminate. }
  destruct (c =? cu "{") eqn:E1; [apply N.eqb_eq in E1; auto|].
  destruct (c =? cu "}") eqn:E2.
  { destruct (lex LStart r) as [more|]; [|discriminate]. cbn [app] in H.
    rewrite parse_first_not_value in H by auto. discriminate. }
  destruct (c =? cu "[") eqn:E3; [apply N.eqb_eq in E3; auto|].
  destruct (c =? cu "]") eqn:E4.
  { destruct (lex LStart r) as [more|]; [|discriminate]. cbn [app] in H.
    rewrite parse_first_not_value in H by auto. discriminate. }
  destruct (c =? cu ":") eqn:E5.
  { destruct (lex LStart r) as [more|]; [|discriminate]. cbn [app] in H.
    rewrite parse_first_not_value in H by auto. discriminate. }
  destruct (c =? cu ",") eqn:E6.
  { destruct (lex LStart r) as [more|]; [|discriminate]. cbn [app] in H.
    rewrite parse_first_not_value in H by auto. discriminate. }
  destruct (c =? 34) eqn:E7; [apply N.eqb_eq in E7; auto|].
  assert (Hnum : forall ph a,
            match match lex (LNumber ph a) r with
                  | Some more => Some ([] ++ more)
                  | None => None
                  end
            with
            | Some ts => match parse_run (MValue, []) ts with
                         | Some (MDone v, _) => Some v
                         | _ => None
                         end
            | None => None
            end = Some v -> exists n, v = VNum n).
  { intros ph a. destruct (lex (LNumber ph a) r) as [more|] eqn:El; [|discriminate].
    destruct (lex_number_first _ _ _ _ El) as (n & rest & ->). cbn [app].
    intros Hn. exists n. eapply parse_scalar_first; [|exact Hn]. reflexivity. }
  assert (Hlit : forall pending t b,
            pending <> [] -> scalar t = Some (VBool b) ->
            match match lex (LLiteral pending t) r with
                  | Some more => Some ([] ++ more)
                  | None => None
                  end
            with
            | Some ts => match parse_run (MValue, []) ts with
                         | Some (MDone v, _) => Some v
                         | _ => None
                         end
            | None => None
            end = Some v -> v = VBool b).
  { intros pending t b Hp Hs.
    destruct (lex (LLiteral pending t) r) as [more|] eqn:El; [|discriminate].
    destruct (lex_literal_first _ _ _ _ Hp El) as (rest & ->). cbn [app].
    intros Hn. eapply parse_scalar_first; [exact Hs | exact Hn]. }
  destruct (c =? cu "-"); [right; left; eapply Hnum; exact H|].
  destruct (c =? cu "0"); [right; left; eapply Hnum; exact H|].
  destruct (is_digit c); [right; left; eapply Hnum; exact H|].
  destruct (c =? cu "t").
  { right. right. exists true. eapply Hlit; [| |exact H]; [discriminate | reflexivity]. }
  destruct (c =? cu "f").
  { right. right. exists false. eapply Hlit; [| |exact H]; [discriminate | reflexivity]. }
  destruct (c =? cu "n") eqn:E8; [apply N.eqb_eq in E8; auto|].
  discriminate.
Qed.

Lemma lex_pending_nonempty s : forall st toks,
  st <> LStart -> lex st s = Some toks -> toks <> [].
Proof.
  induction s as [|c r IH]; intros st toks Hst; cbn [lex].
  - destruct st; cbn; try discriminate; [congruence|].
    destruct (num_accepting ph); [|discriminate]. intros [= <-]. discriminate.
  - destruct (lex_step st c) as [[first st']|] eqn:Es; [|discriminate].
    destruct (lex st' r) as [more|] eqn:El; [|discriminate].
    intros [= <-]. destruct first as [|t first]; [|discriminate].
    cbn [app]. eapply IH; [|exact El].
    intros ->. destruct st as [|acc|acc|acc need code|ph a|pending t];
      cbn [lex_step] in Es; [congruence| | | | |].
    + destruct (c =? 34); [discriminate|]. destruct (c =? 92); [discriminate|].
      destruct (c <? 32); discriminate.
    + destruct (c =? cu "u"); [discriminate|]. destruct (escape_val c); discriminate.
    + destruct (hex_val c); [|discriminate]. destruct need as [|[|k]]; discriminate.
    + destruct (number_step ph a c) as [[ph' a']|]; [discriminate|].
      destruct (num_accepting ph); [|discriminate].
      destruct (lex_start c) as [[toks' st'']|]; discriminate.
    + destruct pending as [|p rest]; [discriminate|].
      destruct (c =? p); [|discriminate]. destruct rest; discriminate.
Qed.

Lemma lex_start_silent c :
  lex_start c = Some ([], LStart) ->
  (c =? 9) || (c =? 10) || (c =? 13) || (c =? 32) = true.
Proof.
  unfold lex_start.
  destruct ((c =? 9) || (c =? 10) || (c =? 13) || (c =? 32)); [reflexivity|].
  repeat match goal with
         | |- context [if ?b then _ else _] => destruct b
         end; discriminate.
Qed.

(** Text that yields no token is JSON white space. *)
Lemma lex_start_empty s :
  lex LStart s = Some [] -> Forall (fun c => isWhiteSpace c = true) s.
Proof.
  induction s as [|c r IH]; [constructor|]. cbn [lex lex_step].
  destruct (lex_start c) as [[first st']|] eqn:Es; [|discriminate].
  destruct (lex st' r) as [more|] eqn:El; [|discriminate].
  intros [= E]. apply app_eq_nil in E as [-> ->].
  assert (Hdec : st' = LStart \/ st' <> LStart)
    by (destruct st'; [left; reflexivity | right; discriminate ..]).
  destruct Hdec as [->|Hst].
  - apply lex_start_silent in Es. constructor; [|apply IH; exact El].
    rewrite !orb_true_iff, !N.eqb_eq in Es.
    destruct Es as [[[-> | ->] | ->] | ->]; reflexivity.
  - destruct (lex_pending_nonempty _ _ _ Hst El eq_refl).
Qed.

Lemma JSON_parse_null r v :
  JSON_parse (cu "n" :: r) = Some v ->
  (forall a c, r = a ++ [c] -> isWhiteSpace c = false) ->
  r = js "ull".
Proof.
  unfold JSON_parse, tokenize. intros H Hlast.
  change (lex LStart (cu "n" :: r)) with
    (match lex (LLiteral (js "ull") TNull) r with
     | Some more => Some ([] ++ more)
     | None => None
     end) in H.
  change (js "ull") with [cu "u"; cu "l"; cu "l"] in H |- *.
  destruct r as [|c1 r]; [discriminate|]. cbn [lex lex_step] in H.
  destruct (c1 =? cu "u") eqn:E1; [apply N.eqb_eq in E1; subst c1|discriminate].
  destruct r as [|c2 r]; [discriminate|]. cbn [lex lex_step] in H.
  destruct (c2 =? cu "l") eqn:E2; [apply N.eqb_eq in E2; subst c2|discriminate].
  destruct r as [|c3 r]; [discriminate|]. cbn [lex lex_step] in H.
  destruct (c3 =? cu "l") eqn:E3; [apply N.eqb_eq in E3; subst c3|discriminate].
  destruct (lex LStart r) as [more|] eqn:El; [|discriminate].
  cbn [app parse_run parse_step open_value scalar deliver] in H.
  destruct more as [|t more]; [|discriminate].
  apply lex_start_empty in El.
  destruct r as [|x r0] using rev_ind; [reflexivity|]. rename r0 into a, x into c.
  clear IHr0. apply Forall_app in El as [_ Hc]. inversion Hc as [|? ? Hws _]; subst.
  rewrite (Hlast ([cu "u"; cu "l"; cu "l"] ++ a) c eq_refl) in Hws. discriminate.
Qed.

(** X8.  Which strings the normaliser can treat as absent: only the
    empty string, a string whose trimmed text is [null], and strings
    whose trimmed text starts with an opening brace, an opening bracket
    or a double quote.  [null] is indeed absent; a string of white space
    only is not.  So plain text, numbers and booleans written as strings
    are always sent. *)
Theorem absent_strings_look_like_json s :
  (isEmptyValue (VStr s) = true ->
   s = [] \/ trim s = js "null"
   \/ exists c r, trim s = c :: r /\ (c = cu "{" \/ c = cu "[" \/ c = 34))
  /\ isEmptyValue (VStr (js "null")) = true
  /\ (trim s = [] -> s <> [] -> isEmptyValue (VStr s) = false).
Proof.
  split; [|split; [reflexivity|]].
  - rewrite isEmptyValue_string. unfold str_eqb.
    case_bool_decide as Hs; [auto|]. cbv zeta. intros H. right.
    destruct (trim s) as [|c r] eqn:Et.
    { vm_compute in H. discriminate. }
    destruct (bool_decide (c :: r = js "{}")) eqn:E1.
    { apply bool_decide_eq_true in E1. injection E1 as -> ->. right. eauto. }
    destruct (bool_decide (c :: r = js "[]")) eqn:E2.
    { apply bool_decide_eq_true in E2. injection E2 as -> ->. right. eauto 6. }
    cbn [orb] in H.
    destruct (JSON_parse (c :: r)) as [parsed|] eqn:Ep; [|discriminate].
    destruct (JSON_parse_first_char _ _ _ Ep (trim_head _ _ _ Et))
      as [[Hc|[Hc|[Hc|Hc]]]|[[n ->]|[b ->]]];
      try discriminate H; try (right; eauto 6; fail).
    subst c. left. change (js "null") with (cu "n" :: js "ull"). f_equal.
    eapply JSON_parse_null; [exact Ep|].
    intros a c Hr. apply (trim_last s (cu "n" :: a) c). rewrite Et, Hr. reflexivity.
  - intros Ht Hs. rewrite isEmptyValue_string. unfold str_eqb.
    case_bool_decide; [contradiction|]. cbv zeta. rewrite Ht. reflexivity.
Qed.

Lemma lex_plain_string s : forall acc,
  plain s -> lex (LString acc) (s ++ [34]) = Some [TString (rev acc ++ s)].
Proof.
  induction s as [|c s IH]; intros acc Hp.
  - cbn. rewrite app_nil_r. reflexivity.
  - inversion Hp as [|? ? (H1 & H2 & H3) Hs]; subst.
    cbn [app lex lex_step].
    apply N.eqb_neq in H1. apply N.eqb_neq in H2. rewrite H1, H2.
    assert ((c <? 32) = false) as -> by (apply N.ltb_ge; exact H3).
    rewrite (IH (c :: acc) Hs). cbn [rev app]. rewrite <- app_assoc. reflexivity.
Qed.

Lemma JSON_parse_plain_string s :
  plain s -> JSON_parse ([34] ++ s ++ [34]) = Some (VStr s).
Proof.
  intros Hp. unfold JSON_parse, tokenize.
  change (lex LStart ([34] ++ s ++ [34]))
    with (match lex (LString []) (s ++ [34]) with
          | Some more => Some ([] ++ more)
          | None => None
          end).
  rewrite (lex_plain_string s [] Hp). reflexivity.
Qed.

Lemma trim_quoted s : trim ([34] ++ s ++ [34]) = [34] ++ s ++ [34].
Proof.
  unfold trim. cbn [app trimStart].
  change (isWhiteSpace 34) with false. cbv iota.
  change (34 :: s ++ [34]) with ([34] ++ s ++ [34]).
  rewrite !rev_app_distr. cbn [rev app trimStart].
  change (isWhiteSpace 34) with false. cbv iota.
  change (34 :: rev s ++ [34]) with ([34] ++ rev s ++ [34]).
  rewrite !rev_app_distr, rev_involutive. reflexivity.
Qed.

(** X9.  Quoting does not protect a value: the JSON string literal of a
    text without double quote, backslash or control character is absent
    exactly when the text itself is. *)
Theorem quoted_string_is_unwrapped s :
  plain s ->
  isEmptyValue (VStr ([34] ++ s ++ [34])) = isEmptyValue (VStr s).
Proof.
  intros Hp. rewrite (isEmptyValue_string ([34] ++ s ++ [34])).
  cbv zeta. rewrite trim_quoted, (JSON_parse_plain_string s Hp).
  reflexivity.
Qed.

(** X10.  On a string that is not empty the two literal tests add
    nothing: the string is absent exactly when its trimmed text parses as
    JSON to a value that is absent, and present when it does not
    parse. *)
Theorem string_absent_iff_parsed_absent s :
  s <> [] ->
  isEmptyValue (VStr s) =
    match JSON_parse (trim s) with
    | Some parsed => isEmptyValue parsed
    | None => false
    end.
Proof.
  intros Hs. rewrite isEmptyValue_string. unfold str_eqb.
  case_bool_decide; [contradiction|]. cbv zeta.
  case_bool_decide as E1; [rewrite E1; reflexivity|].
  case_bool_decide as E2; [rewrite E2; reflexivity|].
  reflexivity.
Qed.

(** ** The parameter loop *)

Section ParameterLoop.
Context (NumberToString : number -> jsstring).
Context (maxArguments : nat).
Context (properties : list INodeProperties).
Context `{this : IExecuteFunctions}.

Local Abbreviation buildRequest := (buildRequest NumberToString properties).
Local Abbreviation processItem := (processItem NumberToString maxArguments properties).
Local Abbreviation resolvePath := (resolvePath NumberToString).
Local Abbreviation placed := (placed NumberToString).
Local Abbreviation collectProperty := (collectProperty NumberToString).
Local Abbreviation collectProperties := (collectProperties NumberToString).

Lemma collectProperty_sources i acc prop acc' :
  collectProperty i acc prop = inr acc' ->
  (forall k v, own (bodyData acc') !! k = Some v ->
     own (bodyData acc) !! k = Some v \/ supplies i ToBody k v prop)
  /\ (forall k v, own (queryParams acc') !! k = Some v ->
        own (queryParams acc) !! k = Some v \/ supplies i ToQuery k v prop)
  /\ (forall k h, requestHeaders acc' !! k = Some h ->
        requestHeaders acc !! k = Some h
        \/ exists v, supplies i ToHeader k v prop /\ ToString NumberToString v = Some h).
Proof.
  unfold collectProperty, supplies, destinationOf.
  destruct (getNodeParameter (name prop) i) as [[m|m|x]|w] eqn:Hv;
    try discriminate; try (intros [= <-]; auto).
  destruct (isEmptyValue w) eqn:He; [intros [= <-]; auto|].
  repeat case_bool_decide.
  - intros [= <-]; cbn [bodyData queryParams requestHeaders].
    split; [|split]; auto. intros k v Hk.
    apply assign_source in Hk as [Hk|[<- <-]]; auto.
  - intros [= <-]; cbn [bodyData queryParams requestHeaders].
    split; [|split]; auto. intros k v Hk.
    apply assign_source in Hk as [Hk|[<- <-]]; auto.
  - destruct (ToString NumberToString w) as [text|] eqn:Et; intros [= <-]; [|auto].
    cbn [bodyData queryParams requestHeaders].
    split; [|split]; auto. intros k h Hk.
    apply assign_header_source in Hk as [Hk|[<- <-]]; [auto|].
    right. exists w. auto.
Qed.

Lemma collectProperties_sources i props : forall acc acc',
  collectProperties i props acc = inr acc' ->
  (forall k v, own (bodyData acc') !! k = Some v ->
     own (bodyData acc) !! k = Some v
     \/ exists prop, prop ∈ props /\ supplies i ToBody k v prop)
  /\ (forall k v, own (queryParams acc') !! k = Some v ->
        own (queryParams acc) !! k = Some v
        \/ exists prop, prop ∈ props /\ supplies i ToQuery k v prop)
  /\ (forall k h, requestHeaders acc' !! k = Some h ->
        requestHeaders acc !! k = Some h
        \/ exists prop v, prop ∈ props /\ supplies i ToHeader k v prop
                          /\ ToString NumberToString v = Some h).
Proof.
  induction props as [|p props IH]; intros acc acc' Hc; cbn in Hc.
  - injection Hc as <-. auto.
  - destruct (collectProperty i acc p) as [e|acc1] eqn:E1; [discriminate|].
    destruct (collectProperty_sources _ _ _ _ E1) as (B1 & Q1 & H1).
    destruct (IH _ _ Hc) as (B2 & Q2 & H2).
    split; [|split].
    + intros k v Hk. destruct (B2 k v Hk) as [Hk'|(q & Hq & Hs)].
      * destruct (B1 k v Hk'); [auto | right; exists p; split; [left | auto]].
      * right. exists q. split; [right; exact Hq | exact Hs].
    + intros k v Hk. destruct (Q2 k v Hk) as [Hk'|(q & Hq & Hs)].
      * destruct (Q1 k v Hk'); [auto | right; exists p; split; [left | auto]].
      * right. exists q. split; [right; exact Hq | exact Hs].
    + intros k h Hk. destruct (H2 k h Hk) as [Hk'|(q & v & Hq & Hs)].
      * destruct (H1 k h Hk') as [|(v & Hs & Ht)];
          [auto | right; exists p, v; split; [left | auto]].
      * right. exists q, v. split; [right; exact Hq | exact Hs].
Qed.

Lemma size_pos_nonempty {A} (m : gmap (list N) A) :
  (0 <? size m)%nat = true -> m <> ∅.
Proof. intros H ->. rewrite map_size_empty in H. discriminate. Qed.

(** X11.  In a request that is built the body is never a text; a body is
    only there for POST, PUT and PATCH, is not empty, and each of its
    entries is the value of a descriptor of the operation that targets the
    body under that key, was read without error and is not empty.  The
    query string likewise: when present it is not empty and each entry
    comes from such a descriptor targeting the query. *)
Theorem request_entries_have_a_source credentials accessToken i req operation :
  buildRequest credentials accessToken i = inr req ->
  getNodeParameter (js "operation") i = inr (VStr operation) ->
  let props := operationProps properties operation in
  (forall s, body req <> Some (BodyText s))
  /\ (forall b, body req = Some (BodyData b) ->
        includes payloadMethods (method req) = true /\ own b <> ∅
        /\ forall k v, own b !! k = Some v ->
             exists prop, prop ∈ props /\ supplies i ToBody k v prop)
  /\ (forall q, qs req = Some q ->
        own q <> ∅
        /\ forall k v, own q !! k = Some v ->
             exists prop, prop ∈ props /\ supplies i ToQuery k v prop).
Proof.
  intros Hreq Hop props.
  apply buildRequest_inr in Hreq
    as (op' & path & token & collected & Hop' & _ & _ & _ & Hc & Hm & _ & Hb & Hq & _).
  rewrite Hop in Hop'. injection Hop' as <-.
  destruct (collectProperties_sources _ _ _ _ Hc) as (B & Q & _).
  rewrite Hm. split; [|split].
  - intros s. rewrite Hb. destruct (_ && _); discriminate.
  - intros b. rewrite Hb.
    destruct (includes payloadMethods (operationMethod operation)); [|discriminate].
    cbn [andb]. destruct (0 <? size (own (bodyData collected)))%nat eqn:Es; [|discriminate].
    intros [= <-]. split; [reflexivity|]. split; [apply size_pos_nonempty; exact Es|].
    intros k v Hk. destruct (B k v Hk) as [H0|H]; [|exact H].
    cbn in H0. rewrite lookup_empty in H0. discriminate.
  - intros q. rewrite Hq.
    destruct (0 <? size (own (queryParams collected)))%nat eqn:Es; [|discriminate].
    intros [= <-]. split; [apply size_pos_nonempty; exact Es|].
    intros k v Hk. destruct (Q k v Hk) as [H0|H]; [|exact H].
    cbn in H0. rewrite lookup_empty in H0. discriminate.
Qed.

Lemma collectProperty_header_frame i acc prop acc' k :
  collectProperty i acc prop = inr acc' ->
  (forall v, ~ supplies i ToHeader k v prop) ->
  requestHeaders acc' !! k = requestHeaders acc !! k.
Proof.
  unfold collectProperty, supplies, destinationOf.
  destruct (getNodeParameter (name prop) i) as [[m|m|x]|w] eqn:Hv;
    try discriminate; try (intros [= <-]; auto).
  destruct (isEmptyValue w) eqn:He; [intros [= <-]; auto|].
  repeat case_bool_decide; try (intros [= <-] Hn; cbn [requestHeaders]; auto; fail).
  destruct (ToString NumberToString w); intros [= <-] Hn; cbn [requestHeaders]; auto.
  apply assign_header_lookup_ne. intros Hk. apply (Hn w). auto.
Qed.

Lemma collectProperties_header_frame i props k : forall acc acc',
  collectProperties i props acc = inr acc' ->
  (forall prop v, prop ∈ props -> ~ supplies i ToHeader k v prop) ->
  requestHeaders acc' !! k = requestHeaders acc !! k.
Proof.
  induction props as [|p props IH]; intros acc acc' Hc Hn; cbn in Hc.
  - injection Hc as <-. reflexivity.
  - destruct (collectProperty i acc p) as [e|acc1] eqn:E1; [discriminate|].
    rewrite (IH _ _ Hc) by (intros q v Hq; apply Hn; right; exact Hq).
    eapply collectProperty_header_frame; [exact E1|].
    intros v. apply Hn. left.
Qed.

(** X12.  The headers of a request that is built.  POST, PUT and PATCH
    requests carry [Content-Type: application/json] whatever the
    descriptors say.  A header that no descriptor of the operation
    supplies is as the node sets it: [Accept], [Authorization] with the
    bearer token, [Content-Type] for the three methods, nothing otherwise.
    Every header is one of these or the string form of the value of a
    header descriptor of the operation. *)
Theorem request_headers_policy credentials accessToken i req operation :
  buildRequest credentials accessToken i = inr req ->
  getNodeParameter (js "operation") i = inr (VStr operation) ->
  let props := operationProps properties operation in
  exists token,
    ToString NumberToString accessToken = Some token
    /\ let fixed := ownHeaders (method req) token in
       (includes payloadMethods (method req) = true ->
          headers req !! js "Content-Type" = Some (js "application/json"))
       /\ (forall k, (forall prop v, prop ∈ props -> ~ supplies i ToHeader k v prop) ->
             headers req !! k = fixed !! k)
       /\ (forall k h, headers req !! k = Some h ->
             fixed !! k = Some h
             \/ exists prop v, prop ∈ props /\ supplies i ToHeader k v prop
                               /\ ToString NumberToString v = Some h)
       /\ fixed !! js "Accept" = Some (js "application/json")
       /\ fixed !! js "Authorization" = Some (js "Bearer " ++ token).
Proof.
  intros Hreq Hop props.
  apply buildRequest_inr in Hreq
    as (op' & path & token & collected & Hop' & _ & _ & Ht & Hc & Hm & _ & _ & _ & Hh).
  rewrite Hop in Hop'. injection Hop' as <-.
  exists token. split; [exact Ht|]. intros fixed.
  destruct (collectProperties_sources _ _ _ _ Hc) as (_ & _ & S).
  subst fixed. unfold ownHeaders. rewrite Hm, Hh.
  split; [|split; [|split; [|split]]].
  - intros ->. apply lookup_insert_eq.
  - intros k Hn. pose proof (collectProperties_header_frame _ _ _ _ _ Hc Hn) as F.
    destruct (includes payloadMethods (operationMethod operation)); [|exact F].
    destruct (decide (js "Content-Type" = k)) as [<-|Hne].
    + rewrite !lookup_insert_eq. reflexivity.
    + rewrite !lookup_insert_ne by exact Hne. exact F.
  - intros k h.
    destruct (includes payloadMethods (operationMethod operation)); [|apply S].
    destruct (decide (js "Content-Type" = k)) as [<-|Hne].
    + rewrite !lookup_insert_eq. auto.
    + rewrite !lookup_insert_ne by exact Hne. apply S.
  - destruct (includes payloadMethods (operationMethod operation)); reflexivity.
  - destruct (includes payloadMethods (operationMethod operation)); reflexivity.
Qed.

Lemma collectProperty_soft i acc prop :
  (forall m, getNodeParameter (name prop) i <> inl (NodeOperationError m)) ->
  exists acc', collectProperty i acc prop = inr acc'.
Proof.
  intros H. unfold collectProperty.
  destruct (getNodeParameter (name prop) i) as [[m|m|x]|w]; eauto.
  - destruct (H m eq_refl).
  - destruct (isEmptyValue w); eauto. repeat case_bool_decide; eauto.
    destruct (ToString NumberToString w); eauto.
Qed.

Lemma collectProperties_soft i props : forall acc,
  (forall p m, p ∈ props -> getNodeParameter (name p) i <> inl (NodeOperationError m)) ->
  exists acc', collectProperties i props acc = inr acc'.
Proof.
  induction props as [|p props IH]; intros acc H; [eexists; reflexivity|].
  rewrite collectProperties_cons.
  destruct (collectProperty_soft i acc p) as [acc1 ->]; [intros m; apply H; left|].
  apply IH. intros q m Hq. apply H. right. exact Hq.
Qed.

Lemma collectProperties_hard i before prop after acc m :
  (forall q m', q ∈ before ->
                getNodeParameter (name q) i <> inl (NodeOperationError m')) ->
  getNodeParameter (name prop) i = inl (NodeOperationError m) ->
  collectProperties i (before ++ prop :: after) acc = inl (NodeOperationError m).
Proof.
  intros Hb Hp. rewrite collectProperties_app.
  destruct (collectProperties_soft i before acc Hb) as [acc1 ->].
  rewrite collectProperties_cons. unfold collectProperty. rewrite Hp. reflexivity.
Qed.

(** An item whose operation and path are in order goes on to the
    parameter loop when the access token has a string form, and fails
    with the TypeError of line 201 when it has none. *)
Lemma buildRequest_collect credentials accessToken i operation path :
  getNodeParameter (js "operation") i = inr (VStr operation) ->
  includes validMethods (operationMethod operation) = true ->
  resolvePath i (operationPath operation) = inr path ->
  match ToString NumberToString accessToken with
  | Some token =>
      match collectProperties i (operationProps properties operation)
              (initialCollected token) with
      | inr collected => exists req, buildRequest credentials accessToken i = inr req
      | inl e => buildRequest credentials accessToken i = inl e
      end
  | None => buildRequest credentials accessToken i = inl (JsError cannotConvert)
  end.
Proof.
  intros Hop Hm Hp. unfold buildRequest. rewrite Hop. cbn [split_receiver].
  fold (operationMethod operation). fold (operationPath operation).
  rewrite Hm. cbn [negb]. rewrite Hp.
  destruct (ToString NumberToString accessToken) as [token|]; [|reflexivity].
  fold (initialCollected token).
  destruct (collectProperties i _ _); [reflexivity|eexists; reflexivity].
Qed.

(** X13.  Errors raised while a descriptor's parameter is read, for an item
    whose operation and path are in order and whose access token has a
    string form.  When no descriptor of the operation raises an operation
    error the request is built: other lookup errors, and a header value
    without a string form, only skip the descriptor.  When one does, the
    item fails with the first such error and no request is issued for
    it. *)
Theorem descriptor_error_policy credentials accessToken token i operation path tr :
  getNodeParameter (js "operation") i = inr (VStr operation) ->
  includes validMethods (operationMethod operation) = true ->
  resolvePath i (operationPath operation) = inr path ->
  ToString NumberToString accessToken = Some token ->
  let props := operationProps properties operation in
  ((forall p m, p ∈ props ->
                getNodeParameter (name p) i <> inl (NodeOperationError m)) ->
   exists req, buildRequest credentials accessToken i = inr req)
  /\ (forall before prop after m,
        props = before ++ prop :: after ->
        (forall q m', q ∈ before ->
                      getNodeParameter (name q) i <> inl (NodeOperationError m')) ->
        getNodeParameter (name prop) i = inl (NodeOperationError m) ->
        processItem credentials accessToken i tr = (inl (NodeOperationError m), tr)).
Proof.
  intros Hop Hm Hp Ht props.
  pose proof (buildRequest_collect credentials accessToken i operation path Hop Hm Hp) as E.
  rewrite Ht in E. fold props in E.
  split.
  - intros Hsoft.
    destruct (collectProperties_soft i props (initialCollected token) Hsoft)
      as [collected Ec].
    rewrite Ec in E. exact E.
  - intros before prop after m Hsplit Hb Hthrow.
    apply processItem_build_error. rewrite Hsplit in E.
    rewrite (collectProperties_hard i before prop after _ m Hb Hthrow) in E. exact E.
Qed.

Lemma collectProperty_overwrites i acc prop acc' d k v :
  collectProperty i acc prop = inr acc' ->
  placed d acc k v ->
  (forall w, supplies i d k w prop -> w = v) ->
  placed d acc' k v.
Proof.
  intros Hc Hp Hsame. unfold collectProperty in Hc. unfold supplies in Hsame.
  destruct (getNodeParameter (name prop) i) as [[m|m|x]|w] eqn:Hv;
    try (injection Hc as <-; exact Hp); try discriminate.
  destruct (isEmptyValue w) eqn:He; [injection Hc as <-; exact Hp|].
  unfold destinationOf in Hsame.
  repeat case_bool_decide.
  - injection Hc as <-. destruct d; cbn in *; auto.
    apply assign_keeps; [exact Hp|]. intros Hk. apply Hsame. auto.
  - injection Hc as <-. destruct d; cbn in *; auto.
    apply assign_keeps; [exact Hp|]. intros Hk. apply Hsame. auto.
  - destruct (ToString NumberToString w) as [text|] eqn:Et; injection Hc as <-; [|exact Hp].
    destruct d; cbn in *; auto.
    destruct Hp as (t & Hs & Hp). exists t. split; [exact Hs|].
    apply assign_header_keeps; [exact Hp|].
    intros Hk. rewrite (Hsame w) in Et by auto. congruence.
Qed.

Lemma collectProperties_overwrites i props : forall acc acc' d k v,
  collectProperties i props acc = inr acc' ->
  placed d acc k v ->
  (forall p w, p ∈ props -> supplies i d k w p -> w = v) ->
  placed d acc' k v.
Proof.
  induction props as [|p props IH]; intros acc acc' d k v Hc Hp Hsame; cbn in Hc.
  - injection Hc as <-. exact Hp.
  - destruct (collectProperty i acc p) as [e|acc1] eqn:E1; [discriminate|].
    eapply IH; [exact Hc | | intros q w Hq; apply Hsame; right; exact Hq].
    eapply collectProperty_overwrites; [exact E1 | exact Hp |].
    intros w. apply Hsame. left.
Qed.

(** X14.  When descriptors share a destination and a key, the last one
    that supplies a value wins: a descriptor read without error, with a
    value that is not empty, after which no descriptor supplies another
    value for the same place, has its value there when the loop ends.
    Two cases are left out, in which the descriptor sets nothing: the key
    [__proto__], which an assignment does not define, and a header value
    without a string form, on which line 229 throws. *)
Theorem last_supplier_wins i before prop after acc acc' v :
  collectProperties i (before ++ prop :: after) acc = inr acc' ->
  getNodeParameter (name prop) i = inr v -> isEmptyValue v = false ->
  targetKey prop <> js "__proto__" ->
  (destinationOf prop = ToHeader -> ToString NumberToString v <> None) ->
  (forall q w, q ∈ after ->
     supplies i (destinationOf prop) (targetKey prop) w q -> w = v) ->
  placed (destinationOf prop) acc' (targetKey prop) v.
Proof.
  intros Hc Hv He Hkey Hstr Hafter. rewrite collectProperties_app in Hc.
  destruct (collectProperties i before acc) as [e|acc1]; [discriminate|].
  rewrite collectProperties_cons in Hc.
  destruct (collectProperty_places NumberToString i acc1 prop v Hv He Hkey Hstr)
    as (acc2 & E2 & Hp).
  rewrite E2 in Hc.
  eapply collectProperties_overwrites; [exact Hc | exact Hp | exact Hafter].
Qed.

End ParameterLoop.

(** ** Paths *)

Lemma hex_digit_unreserved n : n < 16 -> uriUnreserved (hex_digit n) = true.
Proof.
  intros Hn. unfold uriUnreserved, is_alpha, is_digit.
  destruct (hex_digit_range n Hn) as [[H1 H2]|[H1 H2]].
  - apply N.leb_le in H1. apply N.leb_le in H2. rewrite H1, H2.
    rewrite orb_true_r. reflexivity.
  - assert (H3 : hex_digit n <= 90) by lia.
    apply N.leb_le in H1. apply N.leb_le in H3. rewrite H1, H3. reflexivity.
Qed.

Lemma percent_uri_safe b : Forall (fun c => uri_safe c = true) (percent b).
Proof.
  unfold percent, uri_safe. repeat constructor.
  - rewrite hex_digit_unreserved by (apply N.mod_lt; discriminate). reflexivity.
  - rewrite hex_digit_unreserved by (apply N.mod_lt; discriminate). reflexivity.
Qed.

Lemma percent_utf8_uri_safe cp : Forall (fun c => uri_safe c = true) (percent_utf8 cp).
Proof.
  unfold percent_utf8. apply Forall_concat, Forall_map, Forall_forall.
  intros b _. apply percent_uri_safe.
Qed.

Lemma encodeURIComponent_uri_safe s : forall e,
  encodeURIComponent s = Some e -> Forall (fun c => uri_safe c = true) e.
Proof.
  remember (length s) as n eqn:Hn. revert s Hn.
  induction n as [n IH] using lt_wf_ind. intros s Hn e.
  destruct s as [|c rest]; cbn [encodeURIComponent].
  - intros [= <-]. constructor.
  - destruct (uriUnreserved c) eqn:Eu.
    + destruct (encodeURIComponent rest) as [e'|] eqn:Er; [|discriminate].
      intros [= <-]. constructor; [unfold uri_safe; rewrite Eu; reflexivity|].
      apply (IH (length rest)) with (s := rest); [subst n; cbn; lia | reflexivity | exact Er].
    + destruct (is_high_surrogate c).
      * destruct rest as [|d rest']; [discriminate|].
        destruct (is_low_surrogate d); [|discriminate].
        destruct (encodeURIComponent rest') as [e'|] eqn:Er; [|discriminate].
        intros [= <-]. apply Forall_app. split; [apply percent_utf8_uri_safe|].
        apply (IH (length rest')) with (s := rest'); [subst n; cbn; lia | reflexivity | exact Er].
      * destruct (is_low_surrogate c); [discriminate|].
        destruct (encodeURIComponent rest) as [e'|] eqn:Er; [|discriminate].
        intros [= <-]. apply Forall_app. split; [apply percent_utf8_uri_safe|].
        apply (IH (length rest)) with (s := rest); [subst n; cbn; lia | reflexivity | exact Er].
Qed.

Lemma segments_no_placeholder s :
  placeholders s = [] -> segments s = map Lit s.
Proof.
  unfold placeholders.
  remember (length s) as n eqn:Hn. revert s Hn.
  induction n as [n IH] using lt_wf_ind. intros s Hn.
  destruct s as [|c s]; [reflexivity|].
  rewrite segments_cons.
  destruct (match_placeholder (c :: s)) as [[nm rest]|] eqn:E.
  - intros H. discriminate H.
  - intros H. cbn [map]. f_equal.
    apply (IH (length s)); [subst n; cbn; lia | reflexivity | exact H].
Qed.

Lemma render_literals f s : concat (map (render f) (map Lit s)) = s.
Proof. induction s as [|c s IH]; [reflexivity|]. cbn. f_equal. exact IH. Qed.

Section Paths.
Context (NumberToString : number -> jsstring).
Context (maxArguments : nat).
Context (properties : list INodeProperties).
Context `{this : IExecuteFunctions}.

Local Abbreviation buildRequest := (buildRequest NumberToString properties).
Local Abbreviation processItem := (processItem NumberToString maxArguments properties).
Local Abbreviation itemLoop := (itemLoop NumberToString maxArguments properties).
Local Abbreviation execute := (execute NumberToString maxArguments properties).
Local Abbreviation resolvePath := (resolvePath NumberToString).
Local Abbreviation resolvePlaceholder := (resolvePlaceholder NumberToString).
Local Abbreviation encodes := (encodes NumberToString).
Local Abbreviation missingParameters := (missingParameters NumberToString).
Local Abbreviation capturedRecords := (capturedRecords NumberToString).
Local Abbreviation runItems := (runItems NumberToString maxArguments properties).

Lemma pathTemplate_slash pathPart :
  exists rest, pathTemplate pathPart = cu "/" :: rest.
Proof.
  unfold pathTemplate. destruct pathPart as [|c r]; cbn; [eauto|].
  destruct (c =? cu "/") eqn:E; [apply N.eqb_eq in E; subst c|]; eauto.
Qed.

Lemma resolvePath_inr i pathPart path :
  resolvePath i pathPart = inr path ->
  missingParameters i pathPart = []
  /\ path = rendered (encodes i) (pathTemplate pathPart).
Proof.
  rewrite resolvePath_cases.
  destruct (missingParameters i pathPart) eqn:E; [|discriminate].
  intros [= <-]. split; [reflexivity|]. apply replace_placeholders_rendered.
Qed.

Lemma filter_nil_Forall {A} (P : A -> Prop) `{!forall x, Decision (P x)} (l : list A) :
  filter P l = [] -> Forall (fun x => ~ P x) l.
Proof.
  induction l as [|x l IH]; [constructor|].
  destruct (decide (P x)) as [Hx|Hx].
  - rewrite filter_cons_True by exact Hx. discriminate.
  - rewrite filter_cons_False by exact Hx. intros E. constructor; auto.
Qed.

Lemma resolvePath_slash i pathPart path :
  resolvePath i pathPart = inr path -> startsWith path (cu "/") = true.
Proof.
  intros Hp. apply resolvePath_inr in Hp as [_ ->].
  destruct (pathTemplate_slash pathPart) as [rest E]. rewrite E.
  rewrite rendered_cons_Lit by (apply match_placeholder_other; vm_compute; discriminate).
  cbn. apply N.eqb_refl.
Qed.

(** X15.  A path that resolves starts with a slash and is the template
    with every placeholder replaced by the encoded string of its
    parameter; every parameter the template names was read and encoded,
    and the text put in consists of unreserved characters and percent
    signs only: no slash, question mark, hash, ampersand, brace or space
    ever comes from a parameter value. *)
Theorem resolved_path_is_delimiter_safe i pathPart path :
  resolvePath i pathPart = inr path ->
  let template := pathTemplate pathPart in
  startsWith path (cu "/") = true
  /\ path = concat (map (fun seg => match seg with
                                    | Lit c => [c]
                                    | Placeholder nm => default [] (encodes i nm)
                                    end) (segments template))
  /\ (forall nm, nm ∈ placeholders template ->
        exists v text e, getNodeParameter nm i = inr v
                         /\ ToString NumberToString v = Some text
                         /\ encodeURIComponent text = Some e
                         /\ encodes i nm = Some e
                         /\ Forall (fun c => uri_safe c = true) e)
  /\ Forall (fun c => uri_safe c = false) (js "/?#&=+,;:@$ {}[]").
Proof.
  intros Hp template. apply resolvePath_inr in Hp as [Hmiss ->]. pose proof Hmiss as Hnil.
  unfold missingParameters in Hmiss. apply filter_nil_Forall in Hmiss.
  fold template in Hmiss. rewrite Forall_forall in Hmiss.
  assert (Hall : forall nm, nm ∈ placeholders template ->
            exists v text e, getNodeParameter nm i = inr v
                             /\ ToString NumberToString v = Some text
                             /\ encodeURIComponent text = Some e
                             /\ encodes i nm = Some e
                             /\ Forall (fun c => uri_safe c = true) e).
  { intros nm Hin. specialize (Hmiss nm Hin). unfold encodes in Hmiss |- *.
    destruct (getNodeParameter nm i) as [err|v]; [congruence|].
    destruct (ToString NumberToString v) as [text|] eqn:Et; [|congruence].
    destruct (encodeURIComponent text) as [e|] eqn:Ee; [|congruence].
    exists v, text, e. repeat split; auto. eapply encodeURIComponent_uri_safe. exact Ee. }
  split; [|split; [|split]].
  - eapply resolvePath_slash. rewrite resolvePath_cases, Hnil.
    rewrite replace_placeholders_rendered. reflexivity.
  - fold template. unfold rendered. f_equal.
    assert (Hseg : forall nm, Placeholder nm ∈ segments template ->
                              nm ∈ placeholders template).
    { unfold placeholders. intros nm Hin. apply list_elem_of_omap.
      exists (Placeholder nm). auto. }
    revert Hseg. generalize (segments template) as segs.
    induction segs as [|seg segs IH]; intros Hseg; [reflexivity|].
    cbn [map]. f_equal.
    + destruct seg as [c|nm]; [reflexivity|]. cbn [render].
      destruct (Hall nm (Hseg nm ltac:(left))) as (v & text & e & _ & _ & _ & -> & _).
      reflexivity.
    + apply IH. intros nm Hin. apply Hseg. right. exact Hin.
  - exact Hall.
  - vm_compute. repeat constructor.
Qed.

(** X16.  A template without a placeholder is the path as it stands, and
    no parameter is read for it.  That covers the operation that is a
    bare method, whose path is the single slash, and templates whose
    braces form no placeholder, such as an empty pair or an opening brace
    that is never closed: they reach the URL unchanged. *)
Theorem path_without_placeholders i :
  (forall pathPart,
     placeholders (pathTemplate pathPart) = [] ->
     resolvePath i pathPart = inr (pathTemplate pathPart))
  /\ resolvePath i [] = inr (js "/")
  /\ (forall operation, no_char 32 operation -> operationPath operation = [])
  /\ placeholders (js "/Ticket/{}") = []
  /\ placeholders (js "/Ticket/{id") = [].
Proof.
  assert (H : forall pathPart,
            placeholders (pathTemplate pathPart) = [] ->
            resolvePath i pathPart = inr (pathTemplate pathPart)).
  { intros pathPart Hnone. rewrite resolvePath_cases.
    unfold missingParameters. rewrite Hnone, filter_nil.
    rewrite replace_placeholders_rendered. unfold rendered.
    rewrite (segments_no_placeholder _ Hnone), render_literals. reflexivity. }
  split; [exact H|]. split; [apply (H []); vm_compute; reflexivity|].
  split; [|split; vm_compute; reflexivity].
  intros operation Hns. unfold operationPath.
  rewrite split_no_sep by exact Hns. reflexivity.
Qed.

End Paths.

Lemma hex_digit_inj a b : a < 16 -> b < 16 -> hex_digit a = hex_digit b -> a = b.
Proof.
  unfold hex_digit. intros Ha Hb.
  destruct (a <? 10) eqn:Ea, (b <? 10) eqn:Eb;
    try apply N.ltb_lt in Ea; try apply N.ltb_lt in Eb;
    try apply N.ltb_ge in Ea; try apply N.ltb_ge in Eb; lia.
Qed.

Lemma nibbles_inj a b a' b' c c' :
  a < 16 -> a' < 16 -> b < 16 -> b' < 16 ->
  [cu "%"; hex_digit a; hex_digit b] ++ c = [cu "%"; hex_digit a'; hex_digit b'] ++ c' ->
  a = a' /\ b = b' /\ c = c'.
Proof.
  intros Ha Ha' Hb Hb' [= E1 E2 E3]. repeat split; auto using hex_digit_inj.
Qed.

Lemma percent_app_inj x y r r' :
  percent x ++ r = percent y ++ r' ->
  (x / 16) mod 16 = (y / 16) mod 16 /\ x mod 16 = y mod 16 /\ r = r'.
Proof. unfold percent. intros H. apply nibbles_inj in H; nibble_bounds. exact H. Qed.

Lemma byte_app_inj x y r r' :
  x < 256 -> y < 256 -> percent x ++ r = percent y ++ r' -> x = y /\ r = r'.
Proof.
  intros Hx Hy H. apply percent_app_inj in H as (E1 & E2 & H).
  split; [euclid | exact H].
Qed.

Lemma percent_utf8_app_inj cp cp' r r' :
  cp < 0x110000 -> cp' < 0x110000 ->
  percent_utf8 cp ++ r = percent_utf8 cp' ++ r' -> cp = cp' /\ r = r'.
Proof.
  intros Hcp Hcp'. unfold percent_utf8, utf8.
  destruct (cp <? 0x80) eqn:A1; [|destruct (cp <? 0x800) eqn:A2; [|destruct (cp <? 0x10000) eqn:A3]];
  (destruct (cp' <? 0x80) eqn:B1; [|destruct (cp' <? 0x800) eqn:B2; [|destruct (cp' <? 0x10000) eqn:B3]]);
  repeat match goal with
         | H : (_ <? _) = true |- _ => apply N.ltb_lt in H
         | H : (_ <? _) = false |- _ => apply N.ltb_ge in H
         end;
  cbn [map concat]; rewrite ?app_nil_r; intros H.
  all: repeat (rewrite <- ?app_assoc in H;
               apply byte_app_inj in H as (? & H); [| euclid | euclid]).
  all: try (split; [euclid | exact H]).
  all: exfalso; euclid.
Qed.

Lemma percent_utf8_head cp : exists r, percent_utf8 cp = cu "%" :: r.
Proof.
  unfold percent_utf8, utf8.
  destruct (cp <? 0x80); [|destruct (cp <? 0x800); [|destruct (cp <? 0x10000)]];
    cbn [map concat percent app]; eauto.
Qed.

Lemma surrogate_pair_range hi lo :
  is_high_surrogate hi = true -> is_low_surrogate lo = true ->
  0x10000 <= surrogate_pair hi lo < 0x110000.
Proof.
  unfold is_high_surrogate, is_low_surrogate, surrogate_pair.
  rewrite !andb_true_iff, !N.leb_le. lia.
Qed.

Lemma surrogate_pair_inj hi lo hi' lo' :
  is_high_surrogate hi = true -> is_low_surrogate lo = true ->
  is_high_surrogate hi' = true -> is_low_surrogate lo' = true ->
  surrogate_pair hi lo = surrogate_pair hi' lo' -> hi = hi' /\ lo = lo'.
Proof.
  unfold is_high_surrogate, is_low_surrogate, surrogate_pair.
  rewrite !andb_true_iff, !N.leb_le. lia.
Qed.

(** The three ways [encodeURIComponent] consumes the head of a string. *)
Lemma encodeURIComponent_cons c rest e :
  encodeURIComponent (c :: rest) = Some e ->
  (uriUnreserved c = true
   /\ exists e', encodeURIComponent rest = Some e' /\ e = c :: e')
  \/ (uriUnreserved c = false /\ is_high_surrogate c = true
      /\ exists d rest' e', rest = d :: rest' /\ is_low_surrogate d = true
           /\ encodeURIComponent rest' = Some e'
           /\ e = percent_utf8 (surrogate_pair c d) ++ e')
  \/ (uriUnreserved c = false /\ is_high_surrogate c = false
      /\ is_low_surrogate c = false
      /\ exists e', encodeURIComponent rest = Some e' /\ e = percent_utf8 c ++ e').
Proof.
  cbn [encodeURIComponent]. destruct (uriUnreserved c) eqn:Eu.
  - destruct (encodeURIComponent rest) as [e'|] eqn:Er; [|discriminate].
    intros [= <-]. left. eauto.
  - destruct (is_high_surrogate c) eqn:Eh.
    + destruct rest as [|d rest']; [discriminate|].
      destruct (is_low_surrogate d) eqn:El; [|discriminate].
      destruct (encodeURIComponent rest') as [e'|] eqn:Er; [|discriminate].
      intros [= <-]. right. left. split; [reflexivity|]. split; [reflexivity|].
      exists d, rest', e'. auto.
    + destruct (is_low_surrogate c) eqn:El; [discriminate|].
      destruct (encodeURIComponent rest) as [e'|] eqn:Er; [|discriminate].
      intros [= <-]. right. right. repeat (split; [reflexivity|]). eauto.
Qed.

Lemma encodeURIComponent_nil s : encodeURIComponent s = Some [] -> s = [].
Proof.
  destruct s as [|c r]; [reflexivity|]. intros H.
  apply encodeURIComponent_cons in H
    as [(_ & e' & _ & E)|[(_ & _ & d & s & e' & _ & _ & _ & E)|(_ & _ & _ & e' & _ & E)]].
  - discriminate.
  - destruct (percent_utf8_head (surrogate_pair c d)) as [x Hx].
    rewrite Hx in E. discriminate.
  - destruct (percent_utf8_head c) as [x Hx]. rewrite Hx in E. discriminate.
Qed.

Lemma encodeURIComponent_inj a : forall b e,
  code_units a -> code_units b ->
  encodeURIComponent a = Some e -> encodeURIComponent b = Some e -> a = b.
Proof.
  remember (length a) as n eqn:Hn. revert a Hn.
  induction n as [n IH] using lt_wf_ind. intros a Hn b e Ha Hb Ea Eb.
  assert (Hpct : uriUnreserved (cu "%") = false) by reflexivity.
  destruct a as [|c r], b as [|c' r']; [reflexivity| | |].
  - cbn in Ea. injection Ea as <-. symmetry. apply encodeURIComponent_nil. exact Eb.
  - cbn in Eb. injection Eb as <-. apply encodeURIComponent_nil. exact Ea.
  - inversion Ha as [|? ? Hc Hr]; subst. inversion Hb as [|? ? Hc' Hr']; subst.
    assert (Hrec : forall s t e0, (length s < length (c :: r))%nat ->
              code_units s -> code_units t ->
              encodeURIComponent s = Some e0 -> encodeURIComponent t = Some e0 -> s = t).
    { intros s t e0 Hlen. apply (IH (length s)); [exact Hlen | reflexivity]. }
    apply encodeURIComponent_cons in Ea
      as [(Ua & ea & Ra & ->)|[(Ua & Ha1 & d & s & ea & -> & Ha2 & Ra & ->)
                              |(Ua & Ha1 & Ha2 & ea & Ra & ->)]];
    apply encodeURIComponent_cons in Eb
      as [(Ub & eb & Rb & E)|[(Ub & Hb1 & d' & s' & eb & -> & Hb2 & Rb & E)
                             |(Ub & Hb1 & Hb2 & eb & Rb & E)]].
    + injection E as -> ->. f_equal. eapply Hrec; eauto; cbn; lia.
    + destruct (percent_utf8_head (surrogate_pair c' d')) as [x Hx].
      rewrite Hx in E. injection E as -> _. congruence.
    + destruct (percent_utf8_head c') as [x Hx].
      rewrite Hx in E. injection E as -> _. congruence.
    + destruct (percent_utf8_head (surrogate_pair c d)) as [x Hx].
      rewrite Hx in E. injection E as <- _. congruence.
    + inversion Hr as [|? ? Hd Hs]; subst. inversion Hr' as [|? ? Hd' Hs']; subst.
      apply percent_utf8_app_inj in E as [Ep ->];
        try (apply surrogate_pair_range; assumption).
      apply surrogate_pair_inj in Ep as [-> ->]; auto.
      do 2 f_equal. eapply Hrec; eauto; cbn; lia.
    + apply percent_utf8_app_inj in E as [Ep _];
        [| apply surrogate_pair_range; assumption | lia].
      pose proof (surrogate_pair_range c d Ha1 Ha2). lia.
    + destruct (percent_utf8_head c) as [x Hx].
      rewrite Hx in E. injection E as <- _. congruence.
    + apply percent_utf8_app_inj in E as [Ep _];
        [| lia | apply surrogate_pair_range; assumption].
      pose proof (surrogate_pair_range c' d' Hb1 Hb2). lia.
    + apply percent_utf8_app_inj in E as [-> ->]; [| lia | lia].
      f_equal. eapply Hrec; eauto; cbn; lia.
Qed.

(** In a template with a single placeholder, what replaces the
    placeholder can be read off the result. *)
Lemma render_single f g nm segs :
  omap (fun seg => match seg with
                   | Lit _ => None
                   | Placeholder nm => Some nm
                   end) segs = [nm] ->
  concat (map (render f) segs) = concat (map (render g) segs) ->
  render f (Placeholder nm) = render g (Placeholder nm).
Proof.
  induction segs as [|[c|nm'] segs IH].
  - discriminate.
  - intros Hn E. apply IH; [exact Hn|]. cbn in E. injection E as E. exact E.
  - intros Hn E.
    change (nm' :: omap (fun seg => match seg with
                                    | Lit _ => None
                                    | Placeholder nm => Some nm
                                    end) segs = [nm]) in Hn.
    injection Hn as -> Hn.
    assert (Hlit : forall h, concat (map (render h) segs)
                             = concat (map (render f) segs)).
    { clear -Hn. induction segs as [|[c|x] segs IH]; intros h; [reflexivity| |discriminate].
      cbn. f_equal. apply IH. exact Hn. }
    cbn [map concat] in E. rewrite (Hlit g) in E.
    apply app_inv_tail in E. exact E.
Qed.

Section Distinct.
Context (NumberToString : number -> jsstring).
Context (maxArguments : nat).
Context `{this : IExecuteFunctions}.
Local Abbreviation encodes := (encodes NumberToString).
Local Abbreviation resolvePath := (resolvePath NumberToString).

(** X17.  The path keeps items apart.  For a template with one
    placeholder, two items whose parameters have different strings
    (sequences of UTF-16 code units) never resolve to the same path:
    percent-encoding loses nothing. *)
Theorem distinct_values_resolve_differently i j pathPart nm v v' text text' path path' :
  placeholders (pathTemplate pathPart) = [nm] ->
  getNodeParameter nm i = inr v -> getNodeParameter nm j = inr v' ->
  ToString NumberToString v = Some text -> ToString NumberToString v' = Some text' ->
  code_units text -> code_units text' ->
  text <> text' ->
  resolvePath i pathPart = inr path -> resolvePath j pathPart = inr path' ->
  path <> path'.
Proof.
  intros Hone Hv Hv' Ht Ht' Hu Hu' Hne Hp Hp' E.
  apply resolvePath_inr in Hp as [Hm ->]. apply resolvePath_inr in Hp' as [Hm' ->].
  unfold missingParameters in Hm, Hm'. rewrite Hone in Hm, Hm'.
  assert (He : exists e, encodes i nm = Some e).
  { destruct (encodes i nm) as [e|] eqn:Ee; [eauto|].
    rewrite filter_cons_True in Hm by exact Ee. discriminate. }
  assert (He' : exists e, encodes j nm = Some e).
  { destruct (encodes j nm) as [e|] eqn:Ee; [eauto|].
    rewrite filter_cons_True in Hm' by exact Ee. discriminate. }
  destruct He as [e He], He' as [e' He'].
  unfold rendered in E. apply (render_single _ _ nm) in E; [|exact Hone].
  cbn [render] in E. rewrite He, He' in E. cbn in E. subst e'.
  unfold encodes in He, He'. rewrite Hv, Ht in He. rewrite Hv', Ht' in He'.
  apply Hne. eapply encodeURIComponent_inj; eauto.
Qed.
End Distinct.

(** ** The token body *)

(** X18.  The token body names, in this order, [grant_type], [username],
    [password], [scope], then [client_id] and [client_secret] when the
    credential has them, whatever characters the credential's values
    contain.  The grant type is [password], user name and password are
    the credential's, and the scope is the credential's when that is a
    non-empty string and [api] otherwise, so never empty. *)
Theorem token_body_fields credentials :
  let entries := tokenBodyEntries credentials in
  form_names (URLSearchParams_toString entries)
  = [js "grant_type"; js "username"; js "password"; js "scope"]
    ++ (if option_truthy (clientId credentials) then [js "client_id"] else [])
    ++ (if option_truthy (clientSecret credentials) then [js "client_secret"] else [])
  /\ obj_get entries (js "grant_type") = Some (js "password")
  /\ obj_get entries (js "username") = Some (username credentials)
  /\ obj_get entries (js "password") = Some (password credentials)
  /\ exists s, obj_get entries (js "scope") = Some s
               /\ s <> []
               /\ (option_truthy (scope credentials) = true -> scope credentials = Some s)
               /\ (option_truthy (scope credentials) = false -> s = js "api").
Proof.
  intros entries. rewrite form_names_toString. subst entries.
  unfold tokenBodyEntries.
  set (sc := if option_truthy (scope credentials)
             then default [] (scope credentials) else js "api").
  assert (Hsc : sc <> []
                /\ (option_truthy (scope credentials) = true -> scope credentials = Some sc)
                /\ (option_truthy (scope credentials) = false -> sc = js "api")).
  { subst sc. destruct (scope credentials) as [s|]; cbn [option_truthy];
      [|repeat split; discriminate].
    destruct (negb (str_eqb s [])) eqn:E; [|repeat split; discriminate].
    change (default [] (Some s)) with s.
    split; [intros ->; discriminate E|]. split; [reflexivity | discriminate]. }
  clearbody sc.
  destruct (option_truthy (clientId credentials)), (option_truthy (clientSecret credentials));
    (split; [vm_compute; reflexivity|]);
    (split; [vm_compute; reflexivity|]);
    (split; [vm_compute; reflexivity|]);
    (split; [vm_compute; reflexivity|]);
    exists sc; (split; [vm_compute; reflexivity | exact Hsc]).
Qed.

(** ** Items and executions *)

Section Executions.
Context (NumberToString : number -> jsstring).
Context (maxArguments : nat).
Context (properties : list INodeProperties).
Context `{this : IExecuteFunctions}.

Local Abbreviation buildRequest := (buildRequest NumberToString properties).
Local Abbreviation processItem := (processItem NumberToString maxArguments properties).
Local Abbreviation itemLoop := (itemLoop NumberToString maxArguments properties).
Local Abbreviation execute := (execute NumberToString maxArguments properties).
Local Abbreviation resolvePath := (resolvePath NumberToString).
Local Abbreviation collectProperty := (collectProperty NumberToString).
Local Abbreviation collectProperties := (collectProperties NumberToString).
Local Abbreviation capturedRecords := (capturedRecords NumberToString).
Local Abbreviation runItems := (runItems NumberToString maxArguments properties).

Lemma processItem_cases credentials accessToken i tr :
  (exists e, buildRequest credentials accessToken i = inl e
             /\ processItem credentials accessToken i tr = (inl e, tr))
  \/ (exists req, buildRequest credentials accessToken i = inr req
                  /\ snd (processItem credentials accessToken i tr) = tr ++ [req]
                  /\ fst (processItem credentials accessToken i tr)
                     = match httpRequest tr req with
                       | inr response => responseItems maxArguments response
                       | inl e => inl e
                       end).
Proof.
  destruct (buildRequest credentials accessToken i) as [e|req] eqn:E.
  - left. exists e. split; [reflexivity|]. apply processItem_build_error. exact E.
  - right. exists req. rewrite (processItem_build_ok _ _ _ _ _ _ _ _ E). auto.
Qed.

Lemma itemLoop_requests credentials accessToken indices : forall returnData tr,
  exists itemRequests,
    snd (itemLoop credentials accessToken indices returnData tr) = tr ++ itemRequests
    /\ (length itemRequests <= length indices)%nat
    /\ forall req, req ∈ itemRequests ->
         exists i, i ∈ indices /\ buildRequest credentials accessToken i = inr req.
Proof.
  induction indices as [|i rest IH]; intros returnData tr.
  - exists []. cbn. rewrite app_nil_r. repeat split; auto. intros req H. inversion H.
  - rewrite itemLoop_cons.
    assert (Hstop : forall (e : error) req,
              buildRequest credentials accessToken i = inr req ->
              exists itemRequests,
                snd (@inl error (list INodeExecutionData) e, tr ++ [req]) = tr ++ itemRequests
                /\ (length itemRequests <= length (i :: rest))%nat
                /\ forall r, r ∈ itemRequests ->
                     exists j, j ∈ i :: rest /\ buildRequest credentials accessToken j = inr r).
    { intros e req Hb. exists [req]. cbn [snd length]. split; [reflexivity|]. split; [lia|].
      intros r Hr. apply list_elem_of_singleton in Hr as ->.
      exists i. split; [left | exact Hb]. }
    assert (Hnone : forall (e : error),
              exists itemRequests,
                snd (@inl error (list INodeExecutionData) e, tr) = tr ++ itemRequests
                /\ (length itemRequests <= length (i :: rest))%nat
                /\ forall r, r ∈ itemRequests ->
                     exists j, j ∈ i :: rest /\ buildRequest credentials accessToken j = inr r).
    { intros e. exists []. cbn. rewrite app_nil_r. repeat split; [lia|].
      intros req H. inversion H. }
    assert (Hgo : forall returnData',
              exists itemRequests,
                snd (itemLoop credentials accessToken rest returnData' tr) = tr ++ itemRequests
                /\ (length itemRequests <= length (i :: rest))%nat
                /\ forall r, r ∈ itemRequests ->
                     exists j, j ∈ i :: rest /\ buildRequest credentials accessToken j = inr r).
    { intros returnData'. destruct (IH returnData' tr) as (reqs & E & Hl & Hall).
      exists reqs. split; [exact E|]. split; [cbn; lia|].
      intros req Hreq. destruct (Hall req Hreq) as (j & Hj & Hbj).
      exists j. split; [right; exact Hj | exact Hbj]. }
    assert (Hgo1 : forall returnData' req,
              buildRequest credentials accessToken i = inr req ->
              exists itemRequests,
                snd (itemLoop credentials accessToken rest returnData' (tr ++ [req]))
                = tr ++ itemRequests
                /\ (length itemRequests <= length (i :: rest))%nat
                /\ forall r, r ∈ itemRequests ->
                     exists j, j ∈ i :: rest /\ buildRequest credentials accessToken j = inr r).
    { intros returnData' req Hb.
      destruct (IH returnData' (tr ++ [req])) as (reqs & E & Hl & Hall).
      exists (req :: reqs). rewrite E, <- app_assoc. split; [reflexivity|].
      split; [cbn; lia|].
      intros r Hr. apply elem_of_cons in Hr as [->|Hr].
      - exists i. split; [left | exact Hb].
      - destruct (Hall r Hr) as (j & Hj & Hbj). exists j. split; [right; exact Hj | exact Hbj]. }
    destruct (processItem_cases credentials accessToken i tr)
      as [(e & Hb & Hp)|(req & Hb & Hs & Hf)].
    + rewrite Hp. destruct continueOnFail; [|apply Hnone].
      destruct (errorRecord NumberToString e); [apply Hnone | apply Hgo].
    + destruct (processItem credentials accessToken i tr) as [[e|records] tr1];
        cbn [fst snd] in Hs, Hf; subst tr1.
      * destruct continueOnFail; [|apply Hstop; exact Hb].
        destruct (errorRecord NumberToString e);
          [apply Hstop; exact Hb | apply Hgo1; exact Hb].
      * apply Hgo1. exact Hb.
Qed.

(** X19.  The requests an execution issues.  When the credential cannot
    be read the execution fails with that error and issues none.
    Otherwise the token request comes first, followed by at most one
    request per input item, each of them the request built for one of the
    items with the access token the token request was answered with; and
    a result, when there is one, has exactly one output branch. *)
Theorem execute_requests tr :
  match getCredentials (js "glpiOAuth2Api") with
  | inl e => execute tr = (inl e, tr)
  | inr credentials =>
      exists itemRequests,
        snd (execute tr) = tr ++ tokenRequest credentials :: itemRequests
        /\ (length itemRequests <= length getInputData)%nat
        /\ (forall req, req ∈ itemRequests ->
              exists tokenResponse accessToken i,
                httpRequest tr (tokenRequest credentials) = inr tokenResponse
                /\ get_property tokenResponse (js "access_token") = inr accessToken
                /\ truthy accessToken = true
                /\ (i < length getInputData)%nat
                /\ buildRequest credentials accessToken i = inr req)
        /\ (forall out, fst (execute tr) = inr out -> exists returnData, out = [returnData])
  end.
Proof.
  destruct (getCredentials (js "glpiOAuth2Api")) as [e|credentials] eqn:Hc.
  { unfold execute, bind, lift. rewrite Hc. reflexivity. }
  assert (Hnone : forall e,
            execute tr = (inl e, tr ++ [tokenRequest credentials]) ->
            exists itemRequests,
              snd (execute tr) = tr ++ tokenRequest credentials :: itemRequests
              /\ (length itemRequests <= length getInputData)%nat
              /\ (forall req, req ∈ itemRequests ->
                    exists tokenResponse accessToken i,
                      httpRequest tr (tokenRequest credentials) = inr tokenResponse
                      /\ get_property tokenResponse (js "access_token") = inr accessToken
                      /\ truthy accessToken = true
                      /\ (i < length getInputData)%nat
                      /\ buildRequest credentials accessToken i = inr req)
              /\ (forall out, fst (execute tr) = inr out ->
                    exists returnData, out = [returnData])).
  { intros e ->. exists []. cbn [fst snd length].
    split; [reflexivity|]. split; [lia|]. split; [|discriminate].
    intros req H. inversion H. }
  destruct (httpRequest tr (tokenRequest credentials)) as [e|tokenResponse] eqn:Ht.
  { apply (Hnone e). unfold execute, bind, lift, await_httpRequest. rewrite Hc, Ht.
    reflexivity. }
  destruct (get_property tokenResponse (js "access_token")) as [m|accessToken] eqn:Ha.
  { apply (Hnone (JsError m)).
    apply (execute_token_unreadable NumberToString maxArguments properties _ _ _ _ Hc Ht Ha). }
  pose proof (execute_token NumberToString maxArguments properties _ _ _ _ Hc Ht Ha) as E.
  destruct (truthy accessToken) eqn:Htr; [|apply (Hnone noTokenError); exact E].
  destruct (itemLoop_requests credentials accessToken (seq 0 (length getInputData)) []
              (tr ++ [tokenRequest credentials])) as (reqs & Es & Hl & Hall).
  exists reqs. rewrite E.
  assert (Hreqs : forall req, req ∈ reqs ->
            exists tokenResponse0 accessToken0 i,
              @inr error value tokenResponse = inr tokenResponse0
              /\ get_property tokenResponse0 (js "access_token") = inr accessToken0
              /\ truthy accessToken0 = true
              /\ (i < length getInputData)%nat
              /\ buildRequest credentials accessToken0 i = inr req).
  { intros req Hreq. destruct (Hall req Hreq) as (i & Hi & Hb).
    exists tokenResponse, accessToken, i. repeat split; auto.
    apply elem_of_seq in Hi. lia. }
  destruct (itemLoop credentials accessToken (seq 0 (length getInputData)) []
              (tr ++ [tokenRequest credentials])) as [[e|returnData] tr'];
    cbn [fst snd] in Es |- *; subst tr'; rewrite <- app_assoc;
    (split; [reflexivity|]); (split; [rewrite length_seq in Hl; exact Hl|]);
    (split; [exact Hreqs|intros out [= <-]; eauto]).
Qed.

Lemma buildRequest_flags credentials accessToken i req :
  buildRequest credentials accessToken i = inr req ->
  json_option req = true
  /\ skipSslCertificateValidation req = ignoreSSLIssues credentials.
Proof.
  unfold buildRequest.
  destruct (getNodeParameter (js "operation") i) as [e|parameter]; [discriminate|].
  destruct (split_receiver parameter) as [e|operation]; [discriminate|].
  destruct (negb _); [discriminate|].
  destruct (resolvePath i _) as [e|path]; [discriminate|].
  destruct (ToString NumberToString accessToken) as [token|]; [|discriminate].
  destruct (collectProperties i _ _) as [e|collected]; [discriminate|].
  intros [= <-]. auto.
Qed.

Lemma collectProperty_header_kept i acc prop acc' k :
  collectProperty i acc prop = inr acc' ->
  is_Some (requestHeaders acc !! k) -> is_Some (requestHeaders acc' !! k).
Proof.
  unfold collectProperty.
  destruct (getNodeParameter (name prop) i) as [[m|m|x]|w];
    try discriminate; try (intros [= <-]; auto).
  destruct (isEmptyValue w); [intros [= <-]; auto|].
  repeat case_bool_decide; try (intros [= <-]; cbn [requestHeaders]; auto; fail).
  destruct (ToString NumberToString w); intros [= <-]; cbn [requestHeaders]; auto.
  intros Hsome. unfold assign_header. destruct (str_eqb (targetKey prop) _); [exact Hsome|].
  destruct (decide (targetKey prop = k)) as [<-|Hne].
  - rewrite lookup_insert_eq. eauto.
  - rewrite lookup_insert_ne by exact Hne. exact Hsome.
Qed.

Lemma collectProperties_header_kept i props k : forall acc acc',
  collectProperties i props acc = inr acc' ->
  is_Some (requestHeaders acc !! k) -> is_Some (requestHeaders acc' !! k).
Proof.
  induction props as [|p props IH]; intros acc acc' Hc H; cbn in Hc.
  - injection Hc as <-. exact H.
  - destruct (collectProperty i acc p) as [e|acc1] eqn:E1; [discriminate|].
    eapply IH; [exact Hc|]. eapply collectProperty_header_kept; eauto.
Qed.

(** X20.  Every request built for an item goes to the credential's base
    URL under [/api.php/], has one of the five allowed methods, asks for a
    JSON answer, takes its certificate check from the credential,
    carries an [Authorization] and an [Accept] header, and is never the
    token request. *)
Theorem item_request_shape credentials accessToken i req :
  buildRequest credentials accessToken i = inr req ->
  (exists rest,
     url req = stripTrailingSlashes (glpiUrl credentials) ++ js "/api.php/" ++ rest)
  /\ method req ∈ validMethods
  /\ json_option req = true
  /\ skipSslCertificateValidation req = ignoreSSLIssues credentials
  /\ is_Some (headers req !! js "Authorization")
  /\ is_Some (headers req !! js "Accept")
  /\ req <> tokenRequest credentials.
Proof.
  intros Hreq. destruct (buildRequest_flags _ _ _ _ Hreq) as [Hj Hs].
  apply buildRequest_inr in Hreq
    as (operation & path & token & collected & _ & Hv & Hp & _ & Hc & Hm & Hu & _ & _ & Hh).
  assert (Hacc : is_Some (headers req !! js "Accept")).
  { assert (H : is_Some (requestHeaders collected !! js "Accept")).
    { eapply collectProperties_header_kept; [exact Hc|]. cbn. eauto. }
    rewrite Hh. destruct (includes payloadMethods _); [|exact H].
    rewrite lookup_insert_ne by discriminate. exact H. }
  split; [|split; [|split; [|split; [|split; [|split]]]]]; auto;
    try (intros ->; destruct Hacc as [h Hacc]; vm_compute in Hacc; discriminate).
  - pose proof (resolvePath_slash NumberToString _ _ _ Hp) as Hstart.
    destruct path as [|c rest]; [discriminate|]. cbn in Hstart.
    apply N.eqb_eq in Hstart. subst c. exists rest. rewrite Hu. reflexivity.
  - rewrite Hm. apply includes_elem. exact Hv.
  - assert (H : is_Some (requestHeaders collected !! js "Authorization")).
    { eapply collectProperties_header_kept; [exact Hc|]. cbn. eauto. }
    rewrite Hh. destruct (includes payloadMethods _); [|exact H].
    rewrite lookup_insert_ne by discriminate. exact H.
Qed.

Lemma itemLoop_succeeded credentials accessToken indices : forall returnData tr,
  Forall succeeded (fst (runItems credentials accessToken indices tr)) ->
  itemLoop credentials accessToken indices returnData tr
  = (inr (returnData
          ++ concat (map capturedRecords
                       (fst (runItems credentials accessToken indices tr)))),
     snd (runItems credentials accessToken indices tr))
  /\ length (snd (runItems credentials accessToken indices tr))
     = (length tr + length indices)%nat.
Proof.
  induction indices as [|i rest IH]; intros returnData tr Hok.
  - cbn. rewrite app_nil_r. split; [reflexivity | lia].
  - rewrite runItems_cons in Hok |- *. rewrite itemLoop_cons. cbn [fst snd map concat].
    cbn [fst] in Hok. inversion Hok as [|? ? H1 H2]; subst.
    destruct (processItem_cases credentials accessToken i tr)
      as [(e & Hb & Hp)|(req & Hb & Hs & Hf)].
    + rewrite Hp in H1. destruct H1.
    + destruct (processItem credentials accessToken i tr) as [[e|records] tr1];
        cbn [fst snd] in *; [destruct H1|]. subst tr1.
      destruct (IH (returnData ++ records) (tr ++ [req]) H2) as [E L].
      rewrite E, L, <- app_assoc, length_app. cbn [length]. split; [reflexivity | lia].
Qed.

(** X21.  When the token is obtained and no item fails, the execution
    returns the records of the items, in item order, in its single output
    branch, whatever [continueOnFail] says, having issued the token
    request and exactly one request per item.  Without input items the
    token is requested all the same and the result is one empty
    branch. *)
Theorem successful_batch credentials tokenResponse accessToken tr :
  getCredentials (js "glpiOAuth2Api") = inr credentials ->
  httpRequest tr (tokenRequest credentials) = inr tokenResponse ->
  get_property tokenResponse (js "access_token") = inr accessToken ->
  truthy accessToken = true ->
  let run := runItems credentials accessToken (seq 0 (length getInputData))
               (tr ++ [tokenRequest credentials]) in
  (Forall succeeded (fst run) ->
     execute tr = (inr [concat (map capturedRecords (fst run))], snd run)
     /\ length (snd run) = (length tr + 1 + length getInputData)%nat)
  /\ (getInputData = [] ->
      execute tr = (inr [[]], tr ++ [tokenRequest credentials])).
Proof.
  intros Hc Ht Ha Htr run.
  pose proof (execute_token NumberToString maxArguments properties _ _ _ _ Hc Ht Ha) as E.
  rewrite Htr in E. split.
  - intros Hok.
    destruct (itemLoop_succeeded credentials accessToken _ [] _ Hok) as [El L].
    fold run in El, L. rewrite E, El. split; [reflexivity|].
    rewrite L, length_app, length_seq. cbn. lia.
  - intros Hn. rewrite E, Hn. reflexivity.
Qed.

(** Under [continueOnFail] the loop throws in one case only: an item has
    failed with a thrown value that [String] cannot convert, and the
    conversion throws in the [catch] block. *)
Lemma itemLoop_continue_throws credentials accessToken indices :
  continueOnFail = true ->
  forall returnData tr e tr',
    itemLoop credentials accessToken indices returnData tr = (inl e, tr') ->
    e = JsError cannotConvert
    /\ exists i before thrown,
         i ∈ indices
         /\ processItem credentials accessToken i before = (inl thrown, tr')
         /\ error_message NumberToString thrown = None.
Proof.
  intros Hcont. induction indices as [|i rest IH]; intros returnData tr e tr'.
  - cbn. discriminate.
  - rewrite itemLoop_cons.
    destruct (processItem credentials accessToken i tr) as [[thrown|records] tr1] eqn:Hi.
    + rewrite Hcont. unfold errorRecord.
      destruct (error_message NumberToString thrown) as [message|] eqn:Em.
      * intros H. apply IH in H as (-> & j & before & t & Hj & Hp & Hm).
        split; [reflexivity|]. exists j, before, t. split; [right; exact Hj | auto].
      * intros [= <- <-]. split; [reflexivity|].
        exists i, tr, thrown. split; [left | auto].
    + intros H. apply IH in H as (-> & j & before & t & Hj & Hp & Hm).
      split; [reflexivity|]. exists j, before, t. split; [right; exact Hj | auto].
Qed.

(** X22.  Failures before the loop are fatal.  A credential that cannot be
    read fails the execution with no request issued; a token request that
    fails fails it with that request as the only one.  Conversely, under
    [continueOnFail] an execution fails in that way, with nothing issued
    after the token request, or because an item has thrown a value that
    [String] cannot convert: line 260 then throws out of the [catch]
    block.  On a host that throws only what has a message the second way
    is excluded. *)
Theorem setup_failures_are_fatal tr :
  (forall e, getCredentials (js "glpiOAuth2Api") = inl e -> execute tr = (inl e, tr))
  /\ (forall credentials e,
        getCredentials (js "glpiOAuth2Api") = inr credentials ->
        httpRequest tr (tokenRequest credentials) = inl e ->
        execute tr = (inl e, tr ++ [tokenRequest credentials]))
  /\ (continueOnFail = true ->
      forall e tr', execute tr = (inl e, tr') ->
        (tr' = tr /\ getCredentials (js "glpiOAuth2Api") = inl e)
        \/ (exists credentials,
              getCredentials (js "glpiOAuth2Api") = inr credentials
              /\ tr' = tr ++ [tokenRequest credentials])
        \/ (e = JsError cannotConvert
            /\ ~ throwsMessages NumberToString
            /\ exists credentials accessToken i before thrown,
                 (i < length getInputData)%nat
                 /\ processItem credentials accessToken i before = (inl thrown, tr')
                 /\ error_message NumberToString thrown = None)).
Proof.
  split; [|split].
  - intros e Hc. unfold execute, bind, lift. rewrite Hc. reflexivity.
  - intros credentials e Hc Ht. unfold execute, bind, lift, await_httpRequest.
    rewrite Hc, Ht. reflexivity.
  - intros Hcont e tr'.
    destruct (getCredentials (js "glpiOAuth2Api")) as [e0|credentials] eqn:Hc.
    { unfold execute, bind, lift. rewrite Hc. intros [= <- <-]. auto. }
    intros Hex.
    destruct (httpRequest tr (tokenRequest credentials)) as [e1|tokenResponse] eqn:Ht.
    { right. left. exists credentials. split; [reflexivity|].
      unfold execute, bind, lift, await_httpRequest in Hex. rewrite Hc, Ht in Hex.
      injection Hex as _ <-. reflexivity. }
    destruct (get_property tokenResponse (js "access_token")) as [m|accessToken] eqn:Ha.
    { right. left. exists credentials. split; [reflexivity|].
      rewrite (execute_token_unreadable NumberToString maxArguments properties
                 _ _ _ _ Hc Ht Ha) in Hex.
      injection Hex as _ <-. reflexivity. }
    rewrite (execute_token NumberToString maxArguments properties _ _ _ _ Hc Ht Ha) in Hex.
    destruct (truthy accessToken);
      [|right; left; exists credentials; split; [reflexivity|];
        injection Hex as _ <-; reflexivity].
    destruct (itemLoop credentials accessToken (seq 0 (length getInputData)) []
                (tr ++ [tokenRequest credentials])) as [[e2|returnData] tr2] eqn:Hloop;
      [|discriminate].
    injection Hex as <- <-.
    apply (itemLoop_continue_throws _ _ _ Hcont) in Hloop
      as (-> & i & before & thrown & Hi & Hp & Hm).
    right. right. split; [reflexivity|]. split.
    + intros Hhost.
      pose proof (processItem_reportable NumberToString maxArguments properties
                    credentials accessToken i before Hhost) as Hrep.
      rewrite Hp in Hrep. cbn in Hrep. contradiction.
    + exists credentials, accessToken, i, before, thrown.
      apply elem_of_seq in Hi. split; [lia | auto].
Qed.

End Executions.

Section Items.
Context (NumberToString : number -> jsstring).
Context (maxArguments : nat).
Context (properties : list INodeProperties).
Context `{this : IExecuteFunctions}.

Local Abbreviation buildRequest := (buildRequest NumberToString properties).
Local Abbreviation processItem := (processItem NumberToString maxArguments properties).
Local Abbreviation itemLoop := (itemLoop NumberToString maxArguments properties).
Local Abbreviation resolvePath := (resolvePath NumberToString).
Local Abbreviation missingParameters := (missingParameters NumberToString).
Local Abbreviation collectProperty := (collectProperty NumberToString).
Local Abbreviation collectProperties := (collectProperties NumberToString).
Local Abbreviation capturedRecords := (capturedRecords NumberToString).
Local Abbreviation runItems := (runItems NumberToString maxArguments properties).

Lemma collectProperties_inl i props : forall acc e,
  collectProperties i props acc = inl e ->
  exists prop m, prop ∈ props /\ e = NodeOperationError m
                 /\ getNodeParameter (name prop) i = inl e.
Proof.
  induction props as [|p props IH]; intros acc e; [discriminate|].
  rewrite collectProperties_cons.
  destruct (collectProperty i acc p) as [e1|acc1] eqn:E1.
  - intros [= <-]. unfold collectProperty in E1.
    destruct (getNodeParameter (name p) i) as [[m|m|x]|w] eqn:Hv; try discriminate.
    + injection E1 as <-. exists p, m. split; [left | auto].
    + destruct (isEmptyValue w); [discriminate|].
      repeat case_bool_decide; try discriminate.
      destruct (ToString NumberToString w); discriminate.
  - intros H. destruct (IH _ _ H) as (q & m & Hq & He & Hg).
    exists q, m. split; [right; exact Hq | auto].
Qed.

Lemma buildRequest_inl credentials accessToken i e :
  buildRequest credentials accessToken i = inl e ->
  getNodeParameter (js "operation") i = inl e
  \/ (exists v m, getNodeParameter (js "operation") i = inr v
                  /\ (forall s, v <> VStr s) /\ e = JsError m)
  \/ (exists operation,
        getNodeParameter (js "operation") i = inr (VStr operation)
        /\ includes validMethods (operationMethod operation) = false
        /\ e = NodeOperationError
                 (js "Invalid HTTP method parsed from operation: "
                  ++ [34] ++ operationMethod operation ++ [34]))
  \/ (exists operation,
        getNodeParameter (js "operation") i = inr (VStr operation)
        /\ includes validMethods (operationMethod operation) = true
        /\ missingParameters i (operationPath operation) <> []
        /\ resolvePath i (operationPath operation) = inl e)
  \/ (ToString NumberToString accessToken = None /\ e = JsError cannotConvert)
  \/ (exists operation prop m,
        getNodeParameter (js "operation") i = inr (VStr operation)
        /\ prop ∈ operationProps properties operation
        /\ e = NodeOperationError m
        /\ getNodeParameter (name prop) i = inl e).
Proof.
  unfold buildRequest.
  destruct (getNodeParameter (js "operation") i) as [e0|parameter] eqn:Hop.
  { intros [= <-]. auto. }
  destruct parameter as [| | b | n | operation | l | o]; cbn [split_receiver];
    try (intros [= <-]; right; left; eexists _, _;
         split; [reflexivity|]; split; [discriminate | reflexivity]).
  fold (operationMethod operation). fold (operationPath operation).
  destruct (includes validMethods (operationMethod operation)) eqn:Em; cbn [negb].
  2: { intros [= <-]. right. right. left. exists operation. auto. }
  destruct (resolvePath i (operationPath operation)) as [e1|path] eqn:Ep.
  { intros [= <-]. right. right. right. left. exists operation.
    repeat split; auto. intros Hnil. rewrite resolvePath_cases, Hnil in Ep. discriminate. }
  destruct (ToString NumberToString accessToken) as [token|] eqn:Et.
  2: { intros [= <-]. right. right. right. right. left. auto. }
  fold (initialCollected token).
  destruct (collectProperties i (operationProps properties operation)
              (initialCollected token)) as [e2|collected] eqn:Ec; [|discriminate].
  intros [= <-]. right. right. right. right. right.
  destruct (collectProperties_inl _ _ _ _ Ec) as (prop & m & Hin & He & Hg).
  exists operation, prop, m. auto.
Qed.

(** X23.  Why an item fails.  Either nothing was issued for it and the
    error is one of six: the lookup of the operation failed; the
    operation is not a string; its method is not an allowed one; a path
    parameter is missing or cannot be encoded; the access token has no
    string form; a descriptor's lookup raised an operation error.  Or its
    request was built and issued, and the error is the one the HTTP call
    raised, or the RangeError of an answer too long to be spread. *)
Theorem item_failure_causes credentials accessToken i tr e tr' :
  processItem credentials accessToken i tr = (inl e, tr') ->
  (tr' = tr
   /\ (getNodeParameter (js "operation") i = inl e
       \/ (exists v m, getNodeParameter (js "operation") i = inr v
                       /\ (forall s, v <> VStr s) /\ e = JsError m)
       \/ (exists operation,
             getNodeParameter (js "operation") i = inr (VStr operation)
             /\ includes validMethods (operationMethod operation) = false
             /\ e = NodeOperationError
                      (js "Invalid HTTP method parsed from operation: "
                       ++ [34] ++ operationMethod operation ++ [34]))
       \/ (exists operation,
             getNodeParameter (js "operation") i = inr (VStr operation)
             /\ includes validMethods (operationMethod operation) = true
             /\ missingParameters i (operationPath operation) <> []
             /\ resolvePath i (operationPath operation) = inl e)
       \/ (ToString NumberToString accessToken = None /\ e = JsError cannotConvert)
       \/ (exists operation prop m,
             getNodeParameter (js "operation") i = inr (VStr operation)
             /\ prop ∈ operationProps properties operation
             /\ e = NodeOperationError m
             /\ getNodeParameter (name prop) i = inl e)))
  \/ (exists req,
        buildRequest credentials accessToken i = inr req
        /\ tr' = tr ++ [req]
        /\ (httpRequest tr req = inl e
            \/ exists elems,
                 httpRequest tr req = inr (VArr elems)
                 /\ (maxArguments < length elems)%nat
                 /\ e = JsError stackExceeded)).
Proof.
  intros Hp.
  destruct (processItem_cases NumberToString maxArguments properties credentials accessToken i tr)
    as [(e0 & Hb & Hp')|(req & Hb & Hs & Hf)].
  - rewrite Hp in Hp'. injection Hp' as <- <-. left. split; [reflexivity|].
    apply (buildRequest_inl _ _ _ _ Hb).
  - rewrite Hp in Hs, Hf. cbn [fst snd] in Hs, Hf. right. exists req.
    split; [exact Hb|]. split; [exact Hs|].
    destruct (httpRequest tr req) as [e1|response]; [left; congruence|].
    right. destruct response; try discriminate. cbn in Hf.
    destruct (length elems <=? maxArguments)%nat eqn:El; [discriminate|].
    injection Hf as <-. exists elems. apply Nat.leb_gt in El. auto.
Qed.

Lemma runItems_outcomes credentials accessToken indices : forall tr,
  Forall (fun o => forall records, o = inr records ->
            exists tr' req response,
              httpRequest tr' req = inr response
              /\ responseItems maxArguments response = inr records)
         (fst (runItems credentials accessToken indices tr)).
Proof.
  induction indices as [|i rest IH]; intros tr; [constructor|].
  rewrite runItems_cons. cbn [fst]. constructor; [|apply IH].
  intros records Ho.
  destruct (processItem_cases NumberToString maxArguments properties credentials accessToken i tr)
    as [(e0 & Hb & Hp')|(req & Hb & Hs & Hf)].
  - rewrite Hp' in Ho. discriminate.
  - rewrite Ho in Hf. destruct (httpRequest tr req) as [e|response] eqn:Hr; [discriminate|].
    eauto.
Qed.

(** X24.  Under [continueOnFail], on a host that throws only what has a
    message, when no HTTP call answers with an array, the loop returns
    exactly one record per item, in item order: the record of the item's
    response, or the record of its error. *)
Theorem one_record_per_item credentials accessToken indices tr :
  continueOnFail = true ->
  throwsMessages NumberToString ->
  (forall tr' req elems, httpRequest tr' req <> inr (VArr elems)) ->
  exists out,
    fst (itemLoop credentials accessToken indices [] tr) = inr out
    /\ length out = length indices
    /\ map capturedRecords (fst (runItems credentials accessToken indices tr))
       = map (fun record => [record]) out.
Proof.
  intros Hc Hhost Hobj.
  pose proof (runItems_reportable NumberToString maxArguments properties
                credentials accessToken indices tr Hhost) as Hrep.
  rewrite (itemLoop_continue NumberToString maxArguments properties _ _ _ Hc _ _ Hrep).
  cbn [fst app].
  eexists. split; [reflexivity|].
  pose proof (runItems_outcomes credentials accessToken indices tr) as Hout.
  pose proof (runItems_length NumberToString maxArguments properties
                credentials accessToken indices tr) as Hlen.
  revert Hout Hrep Hlen.
  generalize (fst (runItems credentials accessToken indices tr)) as outcomes.
  intros outcomes Hout. revert indices.
  induction Hout as [|o outcomes Ho Hrest IH]; intros indices Hrep Hlen.
  - destruct indices; [|discriminate]. auto.
  - destruct indices as [|i indices]; [discriminate|].
    inversion Hrep as [|? ? Hhead Htail]; subst.
    injection Hlen as Hlen. destruct (IH indices Htail Hlen) as [IH1 IH2].
    assert (Hone : exists record, capturedRecords o = [record]).
    { destruct o as [e|records].
      - cbn in Hhead. unfold capturedRecords, errorRecord.
        destruct (error_message NumberToString e); [eexists; reflexivity|].
        destruct Hhead. reflexivity.
      - destruct (Ho records eq_refl) as (tr' & req & response & Hr & Hi).
        destruct response; try (injection Hi as <-; eexists; reflexivity).
        destruct (Hobj _ _ _ Hr). }
    destruct Hone as [record Hone].
    cbn [map concat]. rewrite Hone. cbn [app length map].
    split; [f_equal; exact IH1 | f_equal; exact IH2].
Qed.

End Items.

(** X25.  The request built for an item depends on the host only through
    the parameters of that item: two hosts that answer alike for the
    item's parameters build the same request, whatever their other
    items, input data, responses and [continueOnFail] are. *)
Theorem item_request_is_local NumberToString properties
    (host host' : IExecuteFunctions) credentials accessToken i :
  (forall paramName,
     getNodeParameter (IExecuteFunctions := host) paramName i
     = getNodeParameter (IExecuteFunctions := host') paramName i) ->
  buildRequest NumberToString properties (this := host) credentials accessToken i
  = buildRequest NumberToString properties (this := host') credentials accessToken i.
Proof.
  intros H.
  assert (Hpath : forall pathPart,
            resolvePath NumberToString (this := host) i pathPart
            = resolvePath NumberToString (this := host') i pathPart).
  { intros pathPart. unfold resolvePath, replace_placeholders.
    assert (E : forall seg,
              match seg with
              | Lit c => [c]
              | Placeholder nm =>
                  resolvePlaceholder NumberToString (this := host) i (placeholder_text nm) nm
              end
              = match seg with
                | Lit c => [c]
                | Placeholder nm =>
                    resolvePlaceholder NumberToString (this := host') i (placeholder_text nm) nm
                end).
    { intros [c|nm]; [reflexivity|]. unfold resolvePlaceholder. rewrite H. reflexivity. }
    rewrite (map_ext _ _ E). reflexivity. }
  assert (Hloop : forall props acc,
            collectProperties NumberToString (this := host) i props acc
            = collectProperties NumberToString (this := host') i props acc).
  { induction props as [|p props IH]; intros acc; [reflexivity|].
    rewrite !collectProperties_cons.
    assert (collectProperty NumberToString (this := host) i acc p
            = collectProperty NumberToString (this := host') i acc p) as ->
      by (unfold collectProperty; rewrite H; reflexivity).
    destruct (collectProperty NumberToString i acc p); [reflexivity | apply IH]. }
  unfold buildRequest. rewrite H.
  destruct (getNodeParameter (js "operation") i) as [e|parameter]; [reflexivity|].
  destruct (split_receiver parameter) as [e|operation]; [reflexivity|].
  destruct (negb _); [reflexivity|].
  rewrite Hpath. destruct (resolvePath NumberToString i _); [reflexivity|].
  destruct (ToString NumberToString accessToken); [|reflexivity].
  rewrite Hloop. reflexivity.
Qed.

Section Order.
Context (NumberToString : number -> jsstring).
Context (maxArguments : nat).
Context (properties : list INodeProperties).
Context `{this : IExecuteFunctions}.

Local Abbreviation buildRequest := (buildRequest NumberToString properties).
Local Abbreviation processItem := (processItem NumberToString maxArguments properties).
Local Abbreviation itemLoop := (itemLoop NumberToString maxArguments properties).
Local Abbreviation resolvePath := (resolvePath NumberToString).
Local Abbreviation encodes := (encodes NumberToString).

Lemma itemLoop_prefix credentials accessToken indices : forall returnData tr,
  exists processed rest,
    indices = processed ++ rest
    /\ snd (itemLoop credentials accessToken indices returnData tr)
       = tr ++ omap (fun i => match buildRequest credentials accessToken i with
                              | inr req => Some req
                              | inl _ => None
                              end) processed
    /\ (continueOnFail = true ->
        rest = []
        \/ fst (itemLoop credentials accessToken indices returnData tr)
           = inl (JsError cannotConvert))
    /\ (forall out, fst (itemLoop credentials accessToken indices returnData tr) = inr out ->
          rest = []).
Proof.
  induction indices as [|i indices IH]; intros returnData tr.
  - exists [], []. cbn. rewrite app_nil_r. auto.
  - rewrite itemLoop_cons.
    assert (Hgo : forall returnData' tr1,
              snd (processItem credentials accessToken i tr) = tr1 ->
              exists processed rest,
                i :: indices = processed ++ rest
                /\ snd (itemLoop credentials accessToken indices returnData' tr1)
                   = tr ++ omap (fun i => match buildRequest credentials accessToken i with
                                          | inr req => Some req
                                          | inl _ => None
                                          end) processed
                /\ (continueOnFail = true ->
                    rest = []
                    \/ fst (itemLoop credentials accessToken indices returnData' tr1)
                       = inl (JsError cannotConvert))
                /\ (forall out,
                      fst (itemLoop credentials accessToken indices returnData' tr1) = inr out ->
                      rest = [])).
    { intros returnData' tr1 Htr.
      destruct (IH returnData' tr1) as (processed & rest & -> & Es & Hc & Hok).
      exists (i :: processed), rest. split; [reflexivity|].
      change (omap ?f (i :: processed))
        with (match f i with Some y => y :: omap f processed | None => omap f processed end).
      cbv beta. rewrite Es. split; [|auto].
      destruct (processItem_cases NumberToString maxArguments properties
                  credentials accessToken i tr) as [(e & Hb & Hp)|(req & Hb & Hs & Hf)].
      - rewrite Hp in Htr. cbn in Htr. subst tr1. rewrite Hb. reflexivity.
      - rewrite Hs in Htr. subst tr1. rewrite Hb, <- app_assoc. reflexivity. }
    assert (Hstop : forall (e : error) tr1,
              snd (processItem credentials accessToken i tr) = tr1 ->
              (continueOnFail = true -> e = JsError cannotConvert) ->
              exists processed rest,
                i :: indices = processed ++ rest
                /\ snd (@inl error (list INodeExecutionData) e, tr1)
                   = tr ++ omap (fun i => match buildRequest credentials accessToken i with
                                          | inr req => Some req
                                          | inl _ => None
                                          end) processed
                /\ (continueOnFail = true ->
                    rest = []
                    \/ fst (@inl error (list INodeExecutionData) e, tr1)
                       = inl (JsError cannotConvert))
                /\ (forall out,
                      fst (@inl error (list INodeExecutionData) e, tr1) = inr out ->
                      rest = [])).
    { intros e tr1 Htr He. exists [i], indices. split; [reflexivity|].
      change (omap ?f [i]) with (match f i with Some y => [y] | None => [] end).
      cbv beta. cbn [fst snd]. split; [|split; [|discriminate]].
      - destruct (processItem_cases NumberToString maxArguments properties
                    credentials accessToken i tr) as [(e' & Hb & Hp)|(req & Hb & Hs & Hf)].
        + rewrite Hp in Htr. cbn in Htr. subst tr1. rewrite Hb, app_nil_r. reflexivity.
        + rewrite Hs in Htr. subst tr1. rewrite Hb. reflexivity.
      - intros Hc. right. rewrite (He Hc). reflexivity. }
    destruct (processItem credentials accessToken i tr) as [[e|records] tr1];
      cbn [fst snd] in Hgo, Hstop.
    + destruct continueOnFail eqn:Hcont.
      * unfold errorRecord. destruct (error_message NumberToString e).
        -- apply Hgo. reflexivity.
        -- apply Hstop; auto.
      * apply Hstop; [reflexivity | discriminate].
    + apply Hgo. reflexivity.
Qed.

(** X26.  The requests of the loop follow the order of the items: the
    loop processes a prefix of the items, issuing for each, in turn, the
    request built for it when there is one.  The prefix is the whole list
    whenever the loop returns; under [continueOnFail] it is the whole
    list too, unless the loop ends with the TypeError of line 260, which
    a host that throws only what has a message never causes. *)
Theorem requests_follow_item_order credentials accessToken indices : forall returnData tr,
  exists processed rest,
    indices = processed ++ rest
    /\ snd (itemLoop credentials accessToken indices returnData tr)
       = tr ++ omap (fun i => match buildRequest credentials accessToken i with
                              | inr req => Some req
                              | inl _ => None
                              end) processed
    /\ (continueOnFail = true ->
        rest = []
        \/ fst (itemLoop credentials accessToken indices returnData tr)
           = inl (JsError cannotConvert))
    /\ (continueOnFail = true -> throwsMessages NumberToString -> rest = [])
    /\ (forall out, fst (itemLoop credentials accessToken indices returnData tr) = inr out ->
          rest = []).
Proof.
  intros returnData tr.
  destruct (itemLoop_prefix credentials accessToken indices returnData tr)
    as (processed & rest & Hsplit & Hreqs & Hcont & Hok).
  exists processed, rest. split; [exact Hsplit|]. split; [exact Hreqs|].
  split; [exact Hcont|]. split; [|exact Hok].
  intros Hc Hhost. destruct (Hcont Hc) as [Hnil|Hthrow]; [exact Hnil|].
  pose proof (runItems_reportable NumberToString maxArguments properties
                credentials accessToken indices tr Hhost) as Hrep.
  rewrite (itemLoop_continue NumberToString maxArguments properties _ _ _ Hc _ _ Hrep)
    in Hthrow.
  discriminate.
Qed.

End Order.

(** ** The parameter loop of the draft *)

Section Drafts.
Context (NumberToString : number -> jsstring).
Context (maxArguments : nat).
Context (properties : list INodeProperties).
Context `{this : IExecuteFunctions}.

Local Abbreviation buildRequest := (buildRequest NumberToString properties).
Local Abbreviation processItem := (processItem NumberToString maxArguments properties).
Local Abbreviation itemLoop := (itemLoop NumberToString maxArguments properties).
Local Abbreviation execute := (execute NumberToString maxArguments properties).
Local Abbreviation collectProperty := (collectProperty NumberToString).
Local Abbreviation collectProperties := (collectProperties NumberToString).
Local Abbreviation capturedRecords := (capturedRecords NumberToString).
Local Abbreviation runItems := (runItems NumberToString maxArguments properties).

Lemma Legacy_collectProperty_skip operation i acc prop :
  Legacy.applies operation prop = false ->
  Legacy.collectProperty NumberToString operation i acc prop = acc.
Proof.
  unfold Legacy.applies, Legacy.collectProperty, routable.
  destruct (send_type prop) as [t|]; [|reflexivity].
  destruct (negb (str_eqb t []) && includes [js "body"; js "query"; js "header"] t);
    [|reflexivity].
  cbn [andb negb]. destruct (show_operation prop) as [ops|]; [|discriminate].
  intros ->. reflexivity.
Qed.

Lemma Legacy_collectProperty_applies operation i acc prop :
  Legacy.applies operation prop = true ->
  (forall m, getNodeParameter (name prop) i <> inl (NodeOperationError m)) ->
  (forall v, getNodeParameter (name prop) i = inr v ->
             Legacy.isEmptyValue v = isEmptyValue v) ->
  collectProperty i acc prop
  = inr (Legacy.collectProperty NumberToString operation i acc prop).
Proof.
  unfold Legacy.applies, Legacy.collectProperty, collectProperty, routable.
  destruct (send_type prop) as [t|]; [|discriminate].
  destruct (negb (str_eqb t []) && includes [js "body"; js "query"; js "header"] t);
    [|discriminate].
  cbn [andb negb]. intros Ha Hsoft Hempty.
  assert (match show_operation prop with
          | Some supported => negb (includes supported operation)
          | None => false
          end = false) as ->.
  { destruct (show_operation prop); [rewrite Ha|]; reflexivity. }
  destruct (getNodeParameter (name prop) i) as [[m|m|x]|v]; try reflexivity.
  - destruct (Hsoft m eq_refl).
  - rewrite (Hempty v eq_refl). destruct (isEmptyValue v); [reflexivity|].
    repeat case_bool_decide; try reflexivity.
    destruct (ToString NumberToString v); reflexivity.
Qed.

(** X27.  The parameter loop against the draft's (lines 423-451), which
    scans every descriptor for every item, swallows every lookup error
    and uses the draft's normaliser.  When every routable descriptor has
    an operation list without repetition, no applicable descriptor raises
    an operation error and the two normalisers agree on the values read,
    the loop over the index ends with the collections the scan
    computes. *)
Theorem parameter_loop_refines_the_draft operation i acc :
  (forall prop, prop ∈ properties -> routable (send_type prop) = true ->
     exists ops, show_operation prop = Some ops /\ NoDup ops) ->
  (forall prop m, prop ∈ properties -> Legacy.applies operation prop = true ->
     getNodeParameter (name prop) i <> inl (NodeOperationError m)) ->
  (forall prop v, prop ∈ properties -> Legacy.applies operation prop = true ->
     getNodeParameter (name prop) i = inr v ->
     Legacy.isEmptyValue v = isEmptyValue v) ->
  collectProperties i (operationProps properties operation) acc
  = inr (Legacy.collectProperties NumberToString properties operation i acc).
Proof.
  intros Hres Hsoft Hempty.
  rewrite (operationProps_scan properties operation Hres).
  unfold Legacy.operationProps, Legacy.collectProperties.
  clear Hres. revert acc.
  induction properties as [|p ps IH]; intros acc; [reflexivity|].
  cbn [fold_left]. destruct (Legacy.applies operation p) eqn:Ea.
  - rewrite filter_cons_True by exact Ea. rewrite collectProperties_cons.
    rewrite (Legacy_collectProperty_applies operation i acc p Ea).
    + apply IH.
      * intros q m Hq. apply Hsoft. right. exact Hq.
      * intros q v Hq. apply Hempty. right. exact Hq.
    + intros m. apply Hsoft; [left | exact Ea].
    + intros v. apply Hempty; [left | exact Ea].
  - rewrite filter_cons_False by (rewrite Ea; discriminate).
    rewrite Legacy_collectProperty_skip by exact Ea.
    apply IH.
    + intros q m Hq. apply Hsoft. right. exact Hq.
    + intros q v Hq. apply Hempty. right. exact Hq.
Qed.

End Drafts.

(* ===================================================================== *)
(** * Worked instances *)
(* ===================================================================== *)

Example sampleNumberToString_42 : sampleNumberToString (num_of_Z 42) = js "42".
Proof. vm_compute. reflexivity. Qed.

(** Scenario 1 of the specification: [GET /Ticket/{id}] with [id = 42]. *)
Example scenario_get_ticket :
  exists req,
    buildRequest sampleNumberToString sampleProperties
      (this := ticketHost (js "GET /Ticket/{id}") (Some (VNum (num_of_Z 42))))
      sampleCredentials (VStr (js "tok123")) 0 = inr req
    /\ method req = js "GET"
    /\ url req = js "https://glpi.example.com/api.php/Ticket/42"
    /\ body req = None
    /\ headers req !! js "Authorization" = Some (js "Bearer tok123").
Proof. eexists. split; [vm_compute; reflexivity|]. repeat split. Qed.

(** Scenario 2: [POST /Ticket] with a name and an empty content. *)
Example scenario_post_ticket :
  exists req b,
    buildRequest sampleNumberToString sampleProperties
      (this := tableHost 1
         (fun _ => [(js "operation", VStr (js "POST /Ticket"));
                    (js "name", VStr (js "Printer broken"));
                    (js "content", VStr [])])
         (inr sampleCredentials) (fun _ => inr VNull) false)
      sampleCredentials (VStr (js "tok123")) 0 = inr req
    /\ body req = Some (BodyData b)
    /\ own b !! js "name" = Some (VStr (js "Printer broken"))
    /\ own b !! js "content" = None
    /\ size (own b) = 1%nat
    /\ proto b = Object_prototype.
Proof. eexists. eexists. split; [vm_compute; reflexivity|]. repeat split. Qed.


(** Both zeros of the doubles are zero, and a literal too small for a
    double is read as one. *)
Example zeros :
  num_is_zero (num_of_Z 0) = true
  /\ JSON_parse (js "-0") = Some (VNum (S754_zero true))
  /\ JSON_parse (js "1e-400") = Some (VNum (S754_zero false))
  /\ JSON_parse (js "0.1") = Some (VNum (S754_finite false 7205759403792794 (-56)))
  /\ JSON_parse (js "1e400") = Some (VNum (S754_infinity false))
  /\ isEmptyValue (VStr (js "1e-400")) = false
  /\ Legacy.isEmptyValue (VStr (js "1e-400")) = true.
Proof. repeat split; vm_compute; reflexivity. Qed.

(** The claim C3 as the specification words it fails on a value that is
    supplied but cannot be URL-encoded: the lookup of [id] succeeds with a
    lone surrogate, [encodeURIComponent] throws, the callback's [catch]
    leaves the placeholder, and the item is reported as missing [id]. *)
Lemma supplied_value_left_unresolved :
  (forall nm, nm ∈ placeholders (pathTemplate (js "/Ticket/{id}")) ->
     exists v, getNodeParameter
                 (IExecuteFunctions := ticketHost (js "GET /Ticket/{id}") (Some (VStr [0xD800])))
                 nm 0%nat = inr v)
  /\ resolvePath sampleNumberToString
       (this := ticketHost (js "GET /Ticket/{id}") (Some (VStr [0xD800])))
       0 (js "/Ticket/{id}")
     = inl (NodeOperationError (js "Missing required path parameter(s): {id}")).
Proof.
  split; [|vm_compute; reflexivity].
  intros nm Hnm. vm_compute in Hnm. apply list_elem_of_singleton in Hnm. subst nm.
  eexists. vm_compute. reflexivity.
Defined.

(** The same happens to a supplied value that has no string form. *)
Example opaque_value_left_unresolved :
  resolvePath sampleNumberToString
    (this := ticketHost (js "GET /Ticket/{id}") (Some opaqueValue))
    0 (js "/Ticket/{id}")
  = inl (NodeOperationError (js "Missing required path parameter(s): {id}")).
Proof. vm_compute. reflexivity. Qed.

Lemma resolvePath_missing_parameters_witness :
  getNodeParameter
    (IExecuteFunctions := ticketHost (js "GET /Ticket/{id}/Document/{doc}")
                            (Some (VNum (num_of_Z 42))))
    (js "operation") 0%nat
  = inr (VStr (js "GET /Ticket/{id}/Document/{doc}"))
  /\ includes validMethods
       (operationMethod (js "GET /Ticket/{id}/Document/{doc}")) = true
  /\ processItem sampleNumberToString sampleMaxArguments sampleProperties
       (this := ticketHost (js "GET /Ticket/{id}/Document/{doc}")
                  (Some (VNum (num_of_Z 42))))
       sampleCredentials (VStr (js "tok123")) 0 []
     = (inl (NodeOperationError (js "Missing required path parameter(s): {doc}")), []).
Proof.
  split; [reflexivity|]. split; [reflexivity|].
  pose proof (resolvePath_missing_parameters sampleNumberToString sampleMaxArguments
                sampleProperties
                (this := ticketHost (js "GET /Ticket/{id}/Document/{doc}")
                           (Some (VNum (num_of_Z 42))))
                sampleCredentials (VStr (js "tok123")) 0
                (js "GET /Ticket/{id}/Document/{doc}") [] eq_refl eq_refl) as [_ H].
  cbv zeta in H.
  assert (E : missingParameters sampleNumberToString
                (this := ticketHost (js "GET /Ticket/{id}/Document/{doc}")
                           (Some (VNum (num_of_Z 42))))
                0 (operationPath (js "GET /Ticket/{id}/Document/{doc}")) = [js "doc"])
    by (vm_compute; reflexivity).
  rewrite E in H. exact (proj2 (proj2 H)).
Defined.

Lemma invalid_method_rejected_witness :
  includes validMethods (until_char 32 (js "FETCH /Ticket")) = false
  /\ processItem sampleNumberToString sampleMaxArguments sampleProperties
       (this := ticketHost (js "FETCH /Ticket") None)
       sampleCredentials (VStr (js "tok123")) 0 []
     = (inl (NodeOperationError
               (js "Invalid HTTP method parsed from operation: " ++ [34] ++ js "FETCH" ++ [34])),
        []).
Proof.
  split; [reflexivity|].
  exact (proj1 (proj2 (invalid_method_rejected sampleNumberToString sampleMaxArguments
                         sampleProperties
                         (this := ticketHost (js "FETCH /Ticket") None)
                         sampleCredentials (VStr (js "tok123")) 0 (js "FETCH /Ticket") []
                         eq_refl)) eq_refl).
Defined.

(** Scenario 4 of the specification: an answer of two objects gives two
    records. *)
Example response_of_two_objects :
  exists req,
    buildRequest sampleNumberToString sampleProperties (this := pagingHost)
      sampleCredentials (VStr (js "tok123")) 0 = inr req
    /\ processItem sampleNumberToString sampleMaxArguments sampleProperties (this := pagingHost)
         sampleCredentials (VStr (js "tok123")) 0 []
       = (inr [ {| json := VObj [(js "id", VNum (num_of_Z 1))] |};
                {| json := VObj [(js "id", VNum (num_of_Z 2))] |} ], [req]).
Proof. eexists. split; vm_compute; reflexivity. Qed.

(** The failing input of C8: an answer of two hundred thousand records on
    an engine that takes a hundred thousand arguments.  The request is
    issued and answered, and the item fails. *)
Lemma long_response_rejected_witness :
  exists req,
    buildRequest sampleNumberToString sampleProperties (this := longHost true)
      sampleCredentials (VStr (js "tok123")) 0 = inr req
    /\ httpRequest (IExecuteFunctions := longHost true) [tokenRequest sampleCredentials] req
       = inr (VArr longResponse)
    /\ (sampleMaxArguments <? length longResponse)%nat = true
    /\ processItem sampleNumberToString sampleMaxArguments sampleProperties
         (this := longHost true) sampleCredentials (VStr (js "tok123")) 0
         [tokenRequest sampleCredentials]
       = (inl (JsError stackExceeded), [tokenRequest sampleCredentials; req]).
Proof.
  eexists. split; [vm_compute; reflexivity|].
  split; [reflexivity|].
  assert (Hlen : (sampleMaxArguments <? length longResponse)%nat = true)
    by (vm_compute; reflexivity).
  split; [exact Hlen|].
  refine (proj1 (long_response_rejected sampleNumberToString sampleMaxArguments
                   sampleProperties (this := longHost true)
                   sampleCredentials (VStr (js "tok123")) 0
                   [tokenRequest sampleCredentials] _ longResponse _ eq_refl _)).
  - vm_compute. reflexivity.
  - apply Nat.ltb_lt. exact Hlen.
Defined.

(** The whole execution at that input: the one item yields the record of
    the RangeError instead of its two hundred thousand records, or ends
    the execution. *)
Example long_response_executed :
  fst (execute sampleNumberToString sampleMaxArguments sampleProperties
         (this := longHost true) [])
  = inr [[ {| json := VObj [(js "error", VStr stackExceeded)] |} ]]
  /\ fst (execute sampleNumberToString sampleMaxArguments sampleProperties
            (this := longHost false) [])
     = inl (JsError stackExceeded).
Proof. split; vm_compute; reflexivity. Qed.

Lemma missing_access_token_is_fatal_witness :
  continueOnFail (IExecuteFunctions := deniedHost) = true
  /\ execute sampleNumberToString sampleMaxArguments sampleProperties (this := deniedHost) []
     = (inl noTokenError, [tokenRequest sampleCredentials]).
Proof.
  split; [reflexivity|].
  destruct (missing_access_token_is_fatal sampleNumberToString sampleMaxArguments
              sampleProperties
              (this := deniedHost) sampleCredentials
              (VObj [(js "error", VStr (js "invalid_grant"))]) [] eq_refl eq_refl)
    as (e & He & Hno).
  - intros accessToken H. vm_compute in H. injection H as <-. reflexivity.
  - rewrite He, (Hno VUndefined eq_refl). reflexivity.
Defined.

(** The claim C1 as the specification words it fails on the index: the
    header descriptor of [sampleProperties] that names no operation is
    routable and restricted to nothing, and the entry of [GET /Ticket]
    does not hold it. *)
Lemma unrestricted_descriptor_left_out :
  entityProperty ∈ sampleProperties
  /\ routable (send_type entityProperty) = true
  /\ show_operation entityProperty = None
  /\ entityProperty ∉ operationProps sampleProperties (js "GET /Ticket").
Proof.
  split; [|split; [reflexivity|split; [reflexivity|]]].
  - unfold sampleProperties, entityProperty. do 3 apply list_elem_of_further.
    apply list_elem_of_here.
  - apply (unrestricted_descriptor_dropped sampleProperties entityProperty (js "GET /Ticket")).
    + unfold sampleProperties, entityProperty. do 3 apply list_elem_of_further.
      apply list_elem_of_here.
    + reflexivity.
    + reflexivity.
Defined.

(** The index at that input, evaluated: the entry of [GET /Ticket] holds
    the [start] descriptor only, where the scan of the draft also keeps
    the header descriptor. *)
Example operationProps_sample :
  operationProps sampleProperties (js "GET /Ticket") = [startProperty]
  /\ Legacy.operationProps sampleProperties (js "GET /Ticket")
     = [startProperty; entityProperty].
Proof. split; vm_compute; reflexivity. Qed.

Lemma tableHost_throwsMessages items parameters credentials responses continue :
  (forall k e, responses k = inl e -> error_message sampleNumberToString e <> None) ->
  throwsMessages sampleNumberToString
    (this := tableHost items parameters credentials responses continue).
Proof.
  intros Hresp. split.
  - intros paramName i e. cbn.
    destruct (obj_get (parameters i) paramName); [discriminate|].
    intros [= <-]. discriminate.
  - intros tr options e. cbn. apply Hresp.
Qed.

Lemma batchHost_throwsMessages continue :
  throwsMessages sampleNumberToString (this := batchHost continue).
Proof.
  apply tableHost_throwsMessages. intros k e.
  destruct k as [|[|[|k]]]; try discriminate. intros [= <-]. discriminate.
Qed.

(** Scenario 3 of the specification, and the same batch without
    [continueOnFail]: the loop over the three items, entered after the
    token request. *)
Lemma continue_on_fail_policy_witness :
  throwsMessages sampleNumberToString (this := batchHost true)
  /\ fst (itemLoop sampleNumberToString sampleMaxArguments sampleProperties (this := batchHost true)
         sampleCredentials (VStr (js "tok123")) [0; 1; 2]%nat []
         [tokenRequest sampleCredentials])
  = inr [ {| json := VObj [(js "call", VNum (num_of_Z 1))] |};
          {| json := VObj [(js "error", VStr (js "Request failed with status code 500"))] |};
          {| json := VObj [(js "call", VNum (num_of_Z 3))] |} ]
  /\ exists tr2,
       itemLoop sampleNumberToString sampleMaxArguments sampleProperties (this := batchHost false)
         sampleCredentials (VStr (js "tok123")) [0; 1; 2]%nat []
         [tokenRequest sampleCredentials]
       = (inl (JsError (js "Request failed with status code 500")), tr2)
       /\ length tr2 = 3%nat.
Proof.
  split; [apply batchHost_throwsMessages|]. split.
  - rewrite (proj1 (proj1 (continue_on_fail_policy sampleNumberToString sampleMaxArguments
                             sampleProperties
                             (this := batchHost true) sampleCredentials
                             (VStr (js "tok123")) [0; 1; 2]%nat []
                             [tokenRequest sampleCredentials]
                             (batchHost_throwsMessages true)) eq_refl)).
    vm_compute. reflexivity.
  - eexists. split.
    + refine (proj2 (continue_on_fail_policy sampleNumberToString sampleMaxArguments
                       sampleProperties
                       (this := batchHost false) sampleCredentials
                       (VStr (js "tok123")) [0; 1; 2]%nat []
                       [tokenRequest sampleCredentials]
                       (batchHost_throwsMessages false))
                eq_refl [0%nat] 1%nat [2%nat] _ _ eq_refl _ _).
      * vm_compute. repeat constructor.
      * vm_compute. reflexivity.
    + vm_compute. reflexivity.
Defined.

(** The same scenario through [execute]. *)
Example three_item_batch_executed :
  fst (execute sampleNumberToString sampleMaxArguments sampleProperties (this := batchHost true) [])
  = inr [[ {| json := VObj [(js "call", VNum (num_of_Z 1))] |};
           {| json := VObj [(js "error", VStr (js "Request failed with status code 500"))] |};
           {| json := VObj [(js "call", VNum (num_of_Z 3))] |} ]]
  /\ fst (execute sampleNumberToString sampleMaxArguments sampleProperties (this := batchHost false) [])
     = inl (JsError (js "Request failed with status code 500"))
  /\ length (snd (execute sampleNumberToString sampleMaxArguments sampleProperties (this := batchHost false) []))
     = 3%nat.
Proof. repeat split; vm_compute; reflexivity. Qed.

(** A thrown value without a string form leaves the [catch] block as a
    TypeError, [continueOnFail] or not: the second item is never
    processed. *)
Example opaque_error_ends_the_loop :
  continueOnFail (IExecuteFunctions := opaqueHost) = true
  /\ exists req,
       execute sampleNumberToString sampleMaxArguments sampleProperties (this := opaqueHost) []
       = (inl (JsError cannotConvert), [tokenRequest sampleCredentials; req]).
Proof. split; [reflexivity|]. eexists. vm_compute. reflexivity. Qed.

(** The token request body of a confidential and of a public client. *)
Example token_body_confidential :
  body (tokenRequest sampleCredentials)
  = Some (BodyText (js "grant_type=password&username=tech&password=s3cret%26x%3D1&scope=api&client_id=n8n&client_secret=hush")).
Proof. vm_compute. reflexivity. Qed.

Example token_body_public :
  body (tokenRequest publicCredentials)
  = Some (BodyText (js "grant_type=password&username=tech&password=s3cret&scope=api")).
Proof. vm_compute. reflexivity. Qed.

Example token_url_strips_slashes :
  url (tokenRequest sampleCredentials) = js "https://glpi.example.com/api.php/token".
Proof. vm_compute. reflexivity. Qed.

(** A [null] answer of the token endpoint: reading the field throws, and
    the execution stops there all the same. *)
Example null_token_response :
  execute sampleNumberToString sampleMaxArguments sampleProperties
    (this := tableHost 2 (fun _ => [(js "operation", VStr (js "GET /Ticket"))])
               (inr sampleCredentials) (fun _ => inr VNull) true) []
  = (inl (JsError (js "Cannot read properties of null (reading 'access_token')")),
     [tokenRequest sampleCredentials]).
Proof. vm_compute. reflexivity. Qed.

(** Escapes in a parsed string: each yields one code unit. *)
Example JSON_parse_escapes :
  JSON_parse ([34] ++ js "\u00e9\ud83d\ude00\t\\" ++ [34])
  = Some (VStr [0xE9; 0xD83D; 0xDE00; 9; 92]).
Proof. vm_compute. reflexivity. Qed.

(** Both placeholders resolved, one of them needing escapes. *)
Example resolvePath_two_parameters :
  resolvePath sampleNumberToString
    (this := tableHost 1
               (fun _ => [(js "id", VNum (num_of_Z 7)); (js "name", VStr (js "a b/{c}"))])
               (inr sampleCredentials) (fun _ => inr VNull) false)
    0 (js "/Ticket/{id}/Tag/{name}")
  = inr (js "/Ticket/7/Tag/a%20b%2F%7Bc%7D").
Proof. vm_compute. reflexivity. Qed.

(** String forms: an array joins its elements, [null] and [undefined]
    among them giving nothing; an object that owns a [toString] has none,
    and neither has an array that holds one. *)
Example ToString_samples :
  ToString sampleNumberToString (VArr [VNum (num_of_Z 1); VNull; VStr (js "a"); VArr []])
  = Some (js "1,,a,")
  /\ ToString sampleNumberToString (VObj [(js "a", VNull)]) = Some (js "[object Object]")
  /\ ToString sampleNumberToString opaqueValue = None
  /\ ToString sampleNumberToString (VArr [VBool true; opaqueValue]) = None.
Proof. repeat split; vm_compute; reflexivity. Qed.

(** Assignments to [__proto__]: a number is ignored, an object becomes the
    prototype, and once the prototype owns a property of that name the
    next assignment defines one.  A header value without a string form is
    skipped. *)
Example proto_key_assignments :
  assign emptyObject (js "__proto__") (VNum (num_of_Z 0)) = emptyObject
  /\ assign emptyObject (js "__proto__") (VObj [(js "a", VNull)])
     = {| own := ∅; proto := Proto (VObj [(js "a", VNull)]) |}
  /\ own (assign (assign emptyObject (js "__proto__") (VObj [(js "__proto__", VNull)]))
            (js "__proto__") (VNum (num_of_Z 0))) !! js "__proto__"
     = Some (VNum (num_of_Z 0))
  /\ exists req b,
       buildRequest sampleNumberToString [nameProperty; protoProperty; traceProperty]
         (this := cornerHost (VNum (num_of_Z 0))) sampleCredentials (VStr (js "tok123")) 0
       = inr req
       /\ body req = Some (BodyData b)
       /\ own b !! js "__proto__" = None
       /\ size (own b) = 1%nat
       /\ headers req !! js "X-Trace" = None.
Proof.
  split; [reflexivity|]. split; [reflexivity|]. split; [vm_compute; reflexivity|].
  eexists. eexists. split; [vm_compute; reflexivity|]. repeat split.
Qed.

(** ** Instances of the further properties *)

Lemma operation_value_round_trip_witness :
  no_char 32 (asciiUpperCase (js "get"))
  /\ OperationParser.value asciiUpperCase VNull
       {| OperationParser.pattern := js "/Assistance/Ticket/{id}";
          OperationParser.method := js "get" |}
     = js "GET /Assistance/Ticket/{id}"
  /\ operationMethod (js "GET /Assistance/Ticket/{id}") = js "GET"
  /\ operationPath (js "GET /Assistance/Ticket/{id}") = js "/Assistance/Ticket/{id}".
Proof.
  assert (H : no_char 32 (asciiUpperCase (js "get")))
    by (vm_compute; repeat constructor; discriminate).
  split; [exact H|]. split; [reflexivity|].
  pose proof (operation_value_round_trip asciiUpperCase VNull
                {| OperationParser.pattern := js "/Assistance/Ticket/{id}";
                   OperationParser.method := js "get" |} H) as (_ & Hm & _ & Hp).
  split; [exact Hm|].
  refine (proj1 (Hp _)). vm_compute. repeat constructor; discriminate.
Defined.

Lemma index_agrees_with_scan_witness :
  operationProps restrictedProperties (js "POST /Ticket")
  = Legacy.operationProps restrictedProperties (js "POST /Ticket").
Proof.
  apply (proj2 (index_agrees_with_scan restrictedProperties (js "POST /Ticket"))).
  intros prop Hin _. unfold restrictedProperties in Hin.
  repeat (apply elem_of_cons in Hin as [->|Hin]);
    try (eexists; split; [reflexivity|]; repeat constructor; apply not_elem_of_nil).
  apply elem_of_nil in Hin. destruct Hin.
Defined.

Lemma request_entries_have_a_source_witness :
  exists req,
    buildRequest sampleNumberToString sampleProperties (this := postHost)
      sampleCredentials (VStr (js "tok123")) 0 = inr req
    /\ (forall b, body req = Some (BodyData b) ->
          includes payloadMethods (method req) = true /\ own b <> ∅
          /\ forall k v, own b !! k = Some v ->
               exists prop, prop ∈ operationProps sampleProperties (js "POST /Ticket")
                            /\ supplies (this := postHost) 0 ToBody k v prop).
Proof.
  eexists. split; [vm_compute; reflexivity|].
  refine (proj1 (proj2 (request_entries_have_a_source sampleNumberToString sampleProperties
                          (this := postHost) sampleCredentials (VStr (js "tok123")) 0 _
                          (js "POST /Ticket") _ eq_refl))).
  vm_compute. reflexivity.
Defined.

Lemma request_headers_policy_witness :
  exists req,
    buildRequest sampleNumberToString sampleProperties (this := postHost)
      sampleCredentials (VStr (js "tok123")) 0 = inr req
    /\ headers req !! js "Content-Type" = Some (js "application/json")
    /\ headers req !! js "Authorization" = Some (js "Bearer tok123").
Proof.
  eexists. split; [vm_compute; reflexivity|].
  destruct (request_headers_policy sampleNumberToString sampleProperties
              (this := postHost) sampleCredentials (VStr (js "tok123")) 0 _
              (js "POST /Ticket") ltac:(vm_compute; reflexivity) eq_refl)
    as (token & Ht & Hct & Hown & _ & _ & Hauth).
  injection Ht as <-.
  split; [apply Hct; reflexivity|].
  rewrite Hown; [exact Hauth|].
  intros prop v Hin (Hd & _). vm_compute in Hin.
  repeat (apply elem_of_cons in Hin as [->|Hin]); try discriminate Hd.
  apply elem_of_nil in Hin. destruct Hin.
Defined.

Lemma descriptor_error_policy_witness :
  getNodeParameter (IExecuteFunctions := strictHost) (js "content") 0%nat
  = inl (NodeOperationError (js "Invalid expression"))
  /\ processItem sampleNumberToString sampleMaxArguments sampleProperties (this := strictHost)
       sampleCredentials (VStr (js "tok123")) 0 []
     = (inl (NodeOperationError (js "Invalid expression")), []).
Proof.
  split; [reflexivity|].
  refine (proj2 (descriptor_error_policy sampleNumberToString sampleMaxArguments
                   sampleProperties
                   (this := strictHost) sampleCredentials (VStr (js "tok123")) (js "tok123") 0
                   (js "POST /Ticket") (js "/Ticket") [] eq_refl eq_refl _ eq_refl)
            [nameProperty] contentProperty [] (js "Invalid expression") _ _ eq_refl).
  - vm_compute. reflexivity.
  - vm_compute. reflexivity.
  - intros q m Hq. apply list_elem_of_singleton in Hq. subst q. discriminate.
Defined.

Lemma last_supplier_wins_witness :
  exists acc',
    collectProperties sampleNumberToString (this := titledHost) 0
      [nameProperty; titleProperty] (initialCollected (js "tok123"))
    = inr acc'
    /\ own (bodyData acc') !! js "name" = Some (VStr (js "Printer on fire")).
Proof.
  eexists. split; [vm_compute; reflexivity|].
  refine (last_supplier_wins sampleNumberToString (this := titledHost) 0
            [nameProperty] titleProperty [] (initialCollected (js "tok123")) _
            (VStr (js "Printer on fire"))
            _ eq_refl eq_refl _ _ _).
  - vm_compute. reflexivity.
  - discriminate.
  - discriminate.
  - intros q w Hq. apply elem_of_nil in Hq. destruct Hq.
Defined.

Lemma resolved_path_is_delimiter_safe_witness :
  resolvePath sampleNumberToString
    (this := ticketHost (js "GET /Ticket/{id}") (Some (VStr (js "a/b"))))
    0 (js "/Ticket/{id}") = inr (js "/Ticket/a%2Fb")
  /\ startsWith (js "/Ticket/a%2Fb") (cu "/") = true.
Proof.
  split; [vm_compute; reflexivity|].
  exact (proj1 (resolved_path_is_delimiter_safe sampleNumberToString
                  (this := ticketHost (js "GET /Ticket/{id}") (Some (VStr (js "a/b"))))
                  0 (js "/Ticket/{id}") (js "/Ticket/a%2Fb")
                  ltac:(vm_compute; reflexivity))).
Defined.

(** Two items whose identifiers differ only by an encoding step: their
    paths differ. *)
Lemma distinct_values_resolve_differently_witness :
  resolvePath sampleNumberToString (this := twoTicketsHost) 0 (js "/Ticket/{id}")
  = inr (js "/Ticket/a%2Fb")
  /\ resolvePath sampleNumberToString (this := twoTicketsHost) 1 (js "/Ticket/{id}")
     = inr (js "/Ticket/a%252Fb")
  /\ js "/Ticket/a%2Fb" <> js "/Ticket/a%252Fb".
Proof.
  split; [vm_compute; reflexivity|]. split; [vm_compute; reflexivity|].
  refine (distinct_values_resolve_differently sampleNumberToString (this := twoTicketsHost)
            0%nat 1%nat (js "/Ticket/{id}") (js "id")
            (VStr (js "a/b")) (VStr (js "a%2Fb")) (js "a/b") (js "a%2Fb") _ _
            _ eq_refl eq_refl eq_refl eq_refl _ _ _ _ _).
  - vm_compute. reflexivity.
  - repeat constructor.
  - repeat constructor.
  - discriminate.
  - vm_compute. reflexivity.
  - vm_compute. reflexivity.
Defined.

Lemma item_request_shape_witness :
  exists req,
    buildRequest sampleNumberToString sampleProperties (this := postHost)
      sampleCredentials (VStr (js "tok123")) 0 = inr req
    /\ (exists rest, url req = js "https://glpi.example.com" ++ js "/api.php/" ++ rest)
    /\ method req ∈ validMethods.
Proof.
  eexists. split; [vm_compute; reflexivity|].
  pose proof (item_request_shape sampleNumberToString sampleProperties
                (this := postHost) sampleCredentials (VStr (js "tok123")) 0 _
                ltac:(vm_compute; reflexivity)) as (Hu & Hm & _).
  split; [exact Hu | exact Hm].
Defined.

Lemma successful_batch_witness :
  Forall succeeded
    (fst (runItems sampleNumberToString sampleMaxArguments sampleProperties (this := steadyHost)
            sampleCredentials (VStr (js "tok123")) [0; 1]%nat
            [tokenRequest sampleCredentials]))
  /\ fst (execute sampleNumberToString sampleMaxArguments sampleProperties (this := steadyHost) [])
     = inr [[ {| json := VObj [(js "call", VNum (num_of_Z 1))] |};
              {| json := VObj [(js "call", VNum (num_of_Z 2))] |} ]]
  /\ length (snd (execute sampleNumberToString sampleMaxArguments sampleProperties (this := steadyHost) []))
     = 3%nat.
Proof.
  assert (Hok : Forall succeeded
            (fst (runItems sampleNumberToString sampleMaxArguments sampleProperties (this := steadyHost)
                    sampleCredentials (VStr (js "tok123")) [0; 1]%nat
                    [tokenRequest sampleCredentials])))
    by (vm_compute; repeat constructor).
  split; [exact Hok|].
  destruct (proj1 (successful_batch sampleNumberToString sampleMaxArguments sampleProperties
                     (this := steadyHost) sampleCredentials tokenResponseOk
                     (VStr (js "tok123")) [] eq_refl eq_refl eq_refl eq_refl) Hok)
    as [E L].
  rewrite E. split; [vm_compute; reflexivity | exact L].
Defined.

Lemma parameter_loop_refines_the_draft_witness :
  collectProperties sampleNumberToString (this := postHost) 0
    (operationProps restrictedProperties (js "POST /Ticket"))
    (initialCollected (js "tok123"))
  = inr (Legacy.collectProperties sampleNumberToString (this := postHost)
           restrictedProperties (js "POST /Ticket") 0
           (initialCollected (js "tok123"))).
Proof.
  apply (parameter_loop_refines_the_draft sampleNumberToString restrictedProperties
           (this := postHost)).
  - intros prop Hin _. unfold restrictedProperties in Hin.
    repeat (apply elem_of_cons in Hin as [->|Hin]);
      try (eexists; split; [reflexivity|]; repeat constructor; apply not_elem_of_nil).
    apply elem_of_nil in Hin. destruct Hin.
  - intros prop m Hin _. unfold restrictedProperties in Hin.
    repeat (apply elem_of_cons in Hin as [->|Hin]); try discriminate.
    apply elem_of_nil in Hin. destruct Hin.
  - intros prop v Hin Ha. unfold restrictedProperties in Hin.
    repeat (apply elem_of_cons in Hin as [->|Hin]);
      try (intros [= <-]; vm_compute; reflexivity);
      try discriminate Ha.
    apply elem_of_nil in Hin. destruct Hin.
Defined.

Lemma item_failure_causes_witness :
  processItem sampleNumberToString sampleMaxArguments sampleProperties
    (this := ticketHost (js "FETCH /Ticket") None)
    sampleCredentials (VStr (js "tok123")) 0 []
  = (inl (NodeOperationError
            (js "Invalid HTTP method parsed from operation: " ++ [34] ++ js "FETCH" ++ [34])),
     [])
  /\ forall req,
       buildRequest sampleNumberToString sampleProperties
         (this := ticketHost (js "FETCH /Ticket") None)
         sampleCredentials (VStr (js "tok123")) 0 <> inr req.
Proof.
  assert (H : processItem sampleNumberToString sampleMaxArguments sampleProperties
                (this := ticketHost (js "FETCH /Ticket") None)
                sampleCredentials (VStr (js "tok123")) 0 []
              = (inl (NodeOperationError
                        (js "Invalid HTTP method parsed from operation: "
                         ++ [34] ++ js "FETCH" ++ [34])), []))
    by (vm_compute; reflexivity).
  split; [exact H|]. intros req Hreq.
  destruct (item_failure_causes sampleNumberToString sampleMaxArguments sampleProperties
              (this := ticketHost (js "FETCH /Ticket") None)
              sampleCredentials (VStr (js "tok123")) 0 [] _ _ H)
    as [_|(req' & Hb & _)]; [|discriminate Hb].
  discriminate Hreq.
Defined.

Lemma item_request_is_local_witness :
  buildRequest sampleNumberToString sampleProperties
    (this := ticketHost (js "GET /Ticket/{id}") (Some (VNum (num_of_Z 42))))
    sampleCredentials (VStr (js "tok123")) 0
  = buildRequest sampleNumberToString sampleProperties
      (this := tableHost 5
                 (fun _ => [(js "operation", VStr (js "GET /Ticket/{id}"));
                            (js "id", VNum (num_of_Z 42))])
                 (inr publicCredentials)
                 (fun _ => inl (JsError (js "Request failed with status code 500")))
                 false)
      sampleCredentials (VStr (js "tok123")) 0.
Proof.
  apply item_request_is_local. intros paramName. reflexivity.
Defined.

Lemma one_record_per_item_witness :
  exists out,
    fst (itemLoop sampleNumberToString sampleMaxArguments sampleProperties (this := batchHost true)
           sampleCredentials (VStr (js "tok123")) [0; 1; 2]%nat []
           [tokenRequest sampleCredentials]) = inr out
    /\ length out = 3%nat.
Proof.
  destruct (one_record_per_item sampleNumberToString sampleMaxArguments sampleProperties
              (this := batchHost true) sampleCredentials (VStr (js "tok123"))
              [0; 1; 2]%nat [tokenRequest sampleCredentials] eq_refl
              (batchHost_throwsMessages true))
    as (out & Hout & Hlen & _).
  - intros tr' req elems. cbn.
    destruct (length tr') as [|[|[|n]]]; discriminate.
  - exists out. split; [exact Hout | exact Hlen].
Defined.

Lemma quoted_string_is_unwrapped_witness :
  plain (js "{}")
  /\ isEmptyValue (VStr ([34] ++ js "{}" ++ [34])) = true.
Proof.
  assert (H : plain (js "{}")) by (repeat constructor; try discriminate; vm_compute; discriminate).
  split; [exact H|].
  rewrite (quoted_string_is_unwrapped (js "{}") H). reflexivity.
Defined.

Lemma string_absent_iff_parsed_absent_witness :
  js "[" ++ [10; 32; 32] ++ js "{}" ++ [10] ++ js "]" <> []
  /\ JSON_parse (trim (js "[" ++ [10; 32; 32] ++ js "{}" ++ [10] ++ js "]"))
     = Some (VArr [VObj []])
  /\ isEmptyValue (VStr (js "[" ++ [10; 32; 32] ++ js "{}" ++ [10] ++ js "]")) = true.
Proof.
  split; [discriminate|]. split; [vm_compute; reflexivity|].
  rewrite (string_absent_iff_parsed_absent
             (js "[" ++ [10; 32; 32] ++ js "{}" ++ [10] ++ js "]")) by discriminate.
  vm_compute. reflexivity.
Defined.
